(** * Verification of the discord-rpc transport and request core

    The development embeds, function by function, the parts of
    [src/options/transports/ipc.js] (frame codec, endpoint walk, transport
    connect) and of [client.js] ([RequestQueue], [ResponseCache], [RpcClient])
    that the specification's testable properties speak about, and proves or
    refutes each property on the embedding.

    Conventions.
    - The codec of [ipc.js] is embedded twice.  Module [IPC] has it over a
      fragment of JSON whose texts are lists of bytes ([list ascii]), with
      [Buffer.toString] and [Buffer.write] the identity: it is executable and
      serves to evaluate the code on given frames.  Module [Wire] has it over
      the builtins of any runtime, as parameters, for the statements that
      speak of every frame and every payload.
    - Asynchronous code is embedded as an event-driven machine: one function
      per handler, the client object as an explicit record, promises and
      timers as entries of stores inside that record.
    - Builtins of the runtime (JSON, Buffer, Map, timers) are modelled in
      their own modules, before the code of the repository. *)

From Stdlib Require Import ZArith NArith List Ascii String Lia Bool.
From Stdlib Require Import DecimalFacts DecimalN DecimalZ DecimalPos.
From stdpp Require Import gmap strings list.
From Equations Require Import Equations.

Set Warnings "-register-all".
Local Open Scope Z_scope.

(** ** The JSON builtin

    The fragment of JSON that the payloads of the protocol use: [null],
    booleans, integers, strings, arrays and objects.  It differs from the
    builtin of JavaScript outside that use: numbers with a fraction or an
    exponent are not of the fragment (the parser rejects them), integers are
    exact where those of JavaScript are doubles (the two agree below [2^53]),
    an object is the list of its members in source order, with the members of
    the same name all kept, and texts are 8-bit.  The statements that are to
    hold outside the fragment are made in module [Wire]. *)
Module JSON.

Definition text := list ascii.

Inductive value :=
| JNull
| JBool (b : bool)
| JNum (z : Z)
| JStr (s : text)
| JArr (items : list value)
| JObj (members : list (text * value)).

Definition dquote : ascii := "034"%char.
Definition backslash : ascii := "092"%char.

Definition lit (s : string) : text := list_ascii_of_string s.

(** *** JSON.stringify *)

Definition hex_digit (n : N) : ascii :=
  if (n <? 10)%N then ascii_of_N (48 + n) else ascii_of_N (87 + n).

(** QuoteJSONString: the two-character escapes, [\u00xx] for the other
    control characters, every other character as it is. *)
Definition escape_char (c : ascii) : text :=
  if (c =? dquote)%char then [backslash; dquote]
  else if (c =? backslash)%char then [backslash; backslash]
  else if (c =? "008")%char then [backslash; "b"%char]
  else if (c =? "009")%char then [backslash; "t"%char]
  else if (c =? "010")%char then [backslash; "n"%char]
  else if (c =? "012")%char then [backslash; "f"%char]
  else if (c =? "013")%char then [backslash; "r"%char]
  else if (N_of_ascii c <? 32)%N then
    [backslash; "u"%char; "0"%char; "0"%char;
     hex_digit (N_of_ascii c / 16); hex_digit (N_of_ascii c mod 16)]
  else [c].

Definition quote (s : text) : text :=
  dquote :: flat_map escape_char s ++ [dquote].

Fixpoint digits (u : Decimal.uint) : text :=
  match u with
  | Decimal.Nil => []
  | Decimal.D0 u => "0"%char :: digits u
  | Decimal.D1 u => "1"%char :: digits u
  | Decimal.D2 u => "2"%char :: digits u
  | Decimal.D3 u => "3"%char :: digits u
  | Decimal.D4 u => "4"%char :: digits u
  | Decimal.D5 u => "5"%char :: digits u
  | Decimal.D6 u => "6"%char :: digits u
  | Decimal.D7 u => "7"%char :: digits u
  | Decimal.D8 u => "8"%char :: digits u
  | Decimal.D9 u => "9"%char :: digits u
  end.

(** The decimal notation of an integer, which is how JavaScript prints the
    integers that it holds exactly, below [10^21]. *)
Definition print_number (z : Z) : text :=
  match Z.to_int z with
  | Decimal.Pos u => digits u
  | Decimal.Neg u => "-"%char :: digits u
  end.

Fixpoint stringify (v : value) : text :=
  match v with
  | JNull => lit "null"
  | JBool true => lit "true"
  | JBool false => lit "false"
  | JNum z => print_number z
  | JStr s => quote s
  | JArr [] => lit "[]"
  | JArr (x :: l) =>
      "["%char :: stringify x ++
      (fix more (l : list value) : text :=
         match l with
         | [] => []
         | y :: l' => ","%char :: stringify y ++ more l'
         end) l ++ ["]"%char]
  | JObj [] => lit "{}"
  | JObj ((k, x) :: l) =>
      "{"%char :: quote k ++ ":"%char :: stringify x ++
      (fix more (l : list (text * value)) : text :=
         match l with
         | [] => []
         | (k', y) :: l' => ","%char :: quote k' ++ ":"%char :: stringify y ++ more l'
         end) l ++ ["}"%char]
  end.

Fixpoint more_items (l : list value) : text :=
  match l with
  | [] => []
  | y :: l' => ","%char :: stringify y ++ more_items l'
  end.

Fixpoint more_members (l : list (text * value)) : text :=
  match l with
  | [] => []
  | (k, y) :: l' => ","%char :: quote k ++ ":"%char :: stringify y ++ more_members l'
  end.

(** *** JSON.parse *)

Definition is_ws (c : ascii) : bool :=
  (c =? " ")%char || (c =? "009")%char || (c =? "010")%char || (c =? "013")%char.

Fixpoint skip_ws (s : text) : text :=
  match s with
  | c :: r => if is_ws c then skip_ws r else s
  | [] => []
  end.

Fixpoint strip_prefix (p s : text) : option text :=
  match p, s with
  | [], _ => Some s
  | a :: p', b :: s' => if (a =? b)%char then strip_prefix p' s' else None
  | _ :: _, [] => None
  end.

Definition hex_value (c : ascii) : option N :=
  let n := N_of_ascii c in
  if (48 <=? n)%N && (n <=? 57)%N then Some (n - 48)%N
  else if (97 <=? n)%N && (n <=? 102)%N then Some (n - 87)%N
  else if (65 <=? n)%N && (n <=? 70)%N then Some (n - 55)%N
  else None.

Definition unescape (e : ascii) : option ascii :=
  if (e =? dquote)%char then Some dquote
  else if (e =? backslash)%char then Some backslash
  else if (e =? "/")%char then Some "/"%char
  else if (e =? "b")%char then Some "008"%char
  else if (e =? "t")%char then Some "009"%char
  else if (e =? "n")%char then Some "010"%char
  else if (e =? "f")%char then Some "012"%char
  else if (e =? "r")%char then Some "013"%char
  else None.

(** The characters of a string up to its closing quote.  A [\uxxxx] escape is
    kept when it names a 7-bit character; the others are outside the
    fragment. *)
Fixpoint parse_chars (s : text) : option (text * text) :=
  match s with
  | [] => None
  | c :: r =>
      if (c =? dquote)%char then Some ([], r)
      else if (c =? backslash)%char then
        match r with
        | [] => None
        | e :: r1 =>
            if (e =? "u")%char then
              match r1 with
              | h1 :: h2 :: h3 :: h4 :: r2 =>
                  match hex_value h1, hex_value h2, hex_value h3, hex_value h4 with
                  | Some a, Some b, Some c', Some d =>
                      let code := (4096 * a + 256 * b + 16 * c' + d)%N in
                      if (code <? 128)%N then
                        match parse_chars r2 with
                        | Some (str, r3) => Some (ascii_of_N code :: str, r3)
                        | None => None
                        end
                      else None
                  | _, _, _, _ => None
                  end
              | _ => None
              end
            else
              match unescape e with
              | Some c' =>
                  match parse_chars r1 with
                  | Some (str, r2) => Some (c' :: str, r2)
                  | None => None
                  end
              | None => None
              end
        end
      else if (N_of_ascii c <? 32)%N then None
      else
        match parse_chars r with
        | Some (str, r1) => Some (c :: str, r1)
        | None => None
        end
  end.

Definition digit_of (c : ascii) : option (Decimal.uint -> Decimal.uint) :=
  if (c =? "0")%char then Some Decimal.D0
  else if (c =? "1")%char then Some Decimal.D1
  else if (c =? "2")%char then Some Decimal.D2
  else if (c =? "3")%char then Some Decimal.D3
  else if (c =? "4")%char then Some Decimal.D4
  else if (c =? "5")%char then Some Decimal.D5
  else if (c =? "6")%char then Some Decimal.D6
  else if (c =? "7")%char then Some Decimal.D7
  else if (c =? "8")%char then Some Decimal.D8
  else if (c =? "9")%char then Some Decimal.D9
  else None.

Fixpoint scan_digits (s : text) : Decimal.uint * text :=
  match s with
  | [] => (Decimal.Nil, [])
  | c :: r =>
      match digit_of c with
      | Some d => let (u, r') := scan_digits r in (d u, r')
      | None => (Decimal.Nil, s)
      end
  end.

(** An integer: an optional minus sign, then [0] or a run of digits that does
    not start with [0]. *)
Definition parse_number (s : text) : option (Z * text) :=
  let (neg, s') :=
    match s with
    | c :: r => if (c =? "-")%char then (true, r) else (false, s)
    | [] => (false, s)
    end in
  match scan_digits s' with
  | (Decimal.Nil, _) => None
  | (Decimal.D0 Decimal.Nil, r) => Some (0, r)
  | (Decimal.D0 _, _) => None
  | (u, r) => Some (Z.of_int (if neg then Decimal.Neg u else Decimal.Pos u), r)
  end.

Fixpoint parse_value (fuel : nat) (s : text) : option (value * text) :=
  match fuel with
  | O => None
  | S fuel =>
      match skip_ws s with
      | [] => None
      | c :: r =>
          if (c =? "[")%char then
            match skip_ws r with
            | c' :: r' =>
                if (c' =? "]")%char then Some (JArr [], r')
                else
                  match parse_value fuel r with
                  | Some (v, r1) =>
                      match parse_items fuel r1 with
                      | Some (vs, r2) => Some (JArr (v :: vs), r2)
                      | None => None
                      end
                  | None => None
                  end
            | [] => None
            end
          else if (c =? "{")%char then
            match skip_ws r with
            | c' :: r' =>
                if (c' =? "}")%char then Some (JObj [], r')
                else
                  match parse_member fuel r with
                  | Some (m, r1) =>
                      match parse_members fuel r1 with
                      | Some (ms, r2) => Some (JObj (m :: ms), r2)
                      | None => None
                      end
                  | None => None
                  end
            | [] => None
            end
          else if (c =? dquote)%char then
            match parse_chars r with
            | Some (str, r') => Some (JStr str, r')
            | None => None
            end
          else if (c =? "n")%char then
            match strip_prefix (lit "ull") r with
            | Some r' => Some (JNull, r')
            | None => None
            end
          else if (c =? "t")%char then
            match strip_prefix (lit "rue") r with
            | Some r' => Some (JBool true, r')
            | None => None
            end
          else if (c =? "f")%char then
            match strip_prefix (lit "alse") r with
            | Some r' => Some (JBool false, r')
            | None => None
            end
          else
            match parse_number (c :: r) with
            | Some (z, r') => Some (JNum z, r')
            | None => None
            end
      end
  end
with parse_items (fuel : nat) (s : text) : option (list value * text) :=
  match fuel with
  | O => None
  | S fuel =>
      match skip_ws s with
      | c :: r =>
          if (c =? "]")%char then Some ([], r)
          else if (c =? ",")%char then
            match parse_value fuel r with
            | Some (v, r1) =>
                match parse_items fuel r1 with
                | Some (vs, r2) => Some (v :: vs, r2)
                | None => None
                end
            | None => None
            end
          else None
      | [] => None
      end
  end
with parse_member (fuel : nat) (s : text) : option ((text * value) * text) :=
  match fuel with
  | O => None
  | S fuel =>
      match skip_ws s with
      | c :: r =>
          if (c =? dquote)%char then
            match parse_chars r with
            | Some (k, r1) =>
                match skip_ws r1 with
                | c' :: r2 =>
                    if (c' =? ":")%char then
                      match parse_value fuel r2 with
                      | Some (v, r3) => Some ((k, v), r3)
                      | None => None
                      end
                    else None
                | [] => None
                end
            | None => None
            end
          else None
      | [] => None
      end
  end
with parse_members (fuel : nat) (s : text) : option (list (text * value) * text) :=
  match fuel with
  | O => None
  | S fuel =>
      match skip_ws s with
      | c :: r =>
          if (c =? "}")%char then Some ([], r)
          else if (c =? ",")%char then
            match parse_member fuel r with
            | Some (m, r1) =>
                match parse_members fuel r1 with
                | Some (ms, r2) => Some (m :: ms, r2)
                | None => None
                end
            | None => None
            end
          else None
      | [] => None
      end
  end.

(** [JSON.parse]: one value, then nothing but white space.  [None] stands for
    the [SyntaxError] the builtin throws. *)
Definition parse (s : text) : option value :=
  match parse_value (S (length s)) s with
  | Some (v, r) => match skip_ws r with [] => Some v | _ => None end
  | None => None
  end.

(** Number of nodes of a value, an upper bound of the fuel its text needs. *)
Fixpoint size (v : value) : nat :=
  match v with
  | JArr l => S (fold_right (fun x n => S (size x + n)) O l)
  | JObj l => S (fold_right (fun m n => S (S (size (snd m)) + n)) O l)
  | _ => 1
  end.

Definition items_size (l : list value) : nat :=
  fold_right (fun x n => S (size x + n)) O l.

Definition members_size (l : list (text * value)) : nat :=
  fold_right (fun m n => S (S (size (snd m)) + n)) O l.

Definition is_digit (c : ascii) : bool :=
  match digit_of c with Some _ => true | None => false end.

(** The first character of a number. *)
Definition is_num_start (c : ascii) : bool := (c =? "-")%char || is_digit c.

(** The text does not go on with a digit. *)
Definition no_digit_head (r : text) : Prop :=
  match r with c :: _ => is_digit c = false | [] => True end.

End JSON.

(** ** The Buffer builtin *)
Module Buffer.

Definition t := list ascii.

(** [Buffer.byteLength(string)]: the number of UTF-8 bytes of the text. *)
Definition byteLength (s : JSON.text) : Z := Z.of_nat (length s).

(** [buf.toString()]: the text whose UTF-8 bytes the buffer holds. *)
Definition toString (b : t) : JSON.text := b.

Definition byte_of (z : Z) (k : Z) : ascii :=
  ascii_of_N (Z.to_N (Z.land (Z.shiftr z (8 * k)) 255)).

(** The four bytes [buf.writeInt32LE(value, offset)] stores; the call throws
    [ERR_OUT_OF_RANGE] ([None]) outside the signed 32-bit range. *)
Definition writeInt32LE (value : Z) : option t :=
  if (- 2 ^ 31 <=? value) && (value <? 2 ^ 31)
  then Some [byte_of value 0; byte_of value 1; byte_of value 2; byte_of value 3]
  else None.

Definition byte_val (c : ascii) : Z := Z.of_N (N_of_ascii c).

(** [buf.readInt32LE(offset)]: throws ([None]) unless four bytes are there;
    the top byte is shifted as a signed 32-bit integer. *)
Definition readInt32LE (b : t) (offset : nat) : option Z :=
  match skipn offset b with
  | b0 :: b1 :: b2 :: b3 :: _ =>
      let u := byte_val b0 + byte_val b1 * 2 ^ 8 + byte_val b2 * 2 ^ 16
               + byte_val b3 * 2 ^ 24 in
      Some (if u <? 2 ^ 31 then u else u - 2 ^ 32)
  | _ => None
  end.

(** Index clamping of [slice]: a negative index counts from the end. *)
Definition adjustOffset (offset len : Z) : Z :=
  if offset <? 0 then Z.max (offset + len) 0 else Z.min offset len.

Definition slice (b : t) (start stop : Z) : t :=
  let n := Z.of_nat (length b) in
  let s := adjustOffset start n in
  let e := adjustOffset stop n in
  if s <? e then firstn (Z.to_nat (e - s)) (skipn (Z.to_nat s) b) else [].

End Buffer.

(** ** transports/ipc.js *)
Module IPC.

Module OPCodes.
Definition HANDSHAKE : Z := 0.
Definition FRAME : Z := 1.
Definition CLOSE : Z := 2.
Definition PING : Z := 3.
Definition PONG : Z := 4.
End OPCodes.

Inductive errorCode := ConnectionFailed | MissingEndpoint.

(** [getIPC(id)].  [accepts i] tells whether the peer listens on the path of
    instance [i], that is whether [net.createConnection(getIPCPath(i))]
    connects rather than emitting ['error'].  The result is the list of the
    instances tried, in order, and either the instance whose socket the
    promise resolves to or the error it rejects with. *)
Equations? getIPC (accepts : nat -> bool) (id : nat)
  : list nat * (nat + errorCode) by wf (10 - id)%nat lt :=
getIPC accepts id with accepts id => {
  | true => ([id], inl id)
  | false with lt_dec id 10 => {
    | left _ =>
        let r := getIPC accepts (S id) in (id :: fst r, snd r)
    | right _ => ([id], inr ConnectionFailed) } }.
Proof. lia. Qed.

(** [encode(op, data)]; [None] when [writeInt32LE] throws. *)
Definition encode (op : Z) (data : JSON.value) : option Buffer.t :=
  let data := JSON.stringify data in
  let len := Buffer.byteLength data in
  match Buffer.writeInt32LE op, Buffer.writeInt32LE len with
  | Some h1, Some h2 => Some (h1 ++ h2 ++ firstn (Z.to_nat len) data)
  | _, _ => None
  end.

(** The entry of [socketState] for one socket. *)
Record State := { full : JSON.text; op : option Z }.

Definition initial : State := {| full := []; op := None |}.

(** The argument of one call of the callback of [decode]. *)
Record Message := { msg_op : option Z; msg_data : JSON.value }.

(** How a call of [decode] ends: it returns, or an exception leaves it; in
    both cases with the state of the socket and the calls of the callback
    made so far. *)
Inductive outcome :=
| Returned (st : State) (calls : list Message)
| Threw (st : State) (calls : list Message).

Definition called (m : list Message) (o : outcome) : outcome :=
  match o with
  | Returned st calls => Returned st (m ++ calls)
  | Threw st calls => Threw st (m ++ calls)
  end.

(** The [try]/[catch] of [decode] on [state.full + raw]. *)
Definition parse_step (st : State) (op : option Z) (raw : JSON.text)
  : State * list Message :=
  match JSON.parse (full st ++ raw) with
  | Some data => ({| full := []; op := None |}, [{| msg_op := op; msg_data := data |}])
  | None => ({| full := full st ++ raw; op := IPC.op st |}, [])
  end.

(** The body of [decode] for one packet that [socket.read()] returned. *)
Definition decode_packet (st : State) (packet : Buffer.t)
  : State * list Message + State :=
  match full st with
  | [] =>
      match Buffer.readInt32LE packet 0 with
      | None => inr st
      | Some o =>
          let st := {| full := full st; op := Some o |} in
          match Buffer.readInt32LE packet 4 with
          | None => inr st
          | Some len =>
              inl (parse_step st (Some o)
                     (Buffer.toString (Buffer.slice packet 8 (len + 8))))
          end
      end
  | _ :: _ => inl (parse_step st (op st) (Buffer.toString packet))
  end.

(** [decode(socket, callback)].  The socket is the list of the packets that
    the successive calls of [socket.read()] return before [null]. *)
Fixpoint decode (st : State) (socket : list Buffer.t) : outcome :=
  match socket with
  | [] => Returned st []
  | packet :: socket =>
      match decode_packet st packet with
      | inr st => Threw st []
      | inl (st, calls) => called calls (decode st socket)
      end
  end.

(** The ['readable'] handler run once per chunk: each run calls [decode],
    whose first [read] returns the chunk and whose second returns [null]. *)
Fixpoint readable (st : State) (chunks : list Buffer.t) : outcome :=
  match chunks with
  | [] => Returned st []
  | chunk :: chunks =>
      match decode st [chunk] with
      | Returned st calls => called calls (readable st chunks)
      | Threw st calls => Threw st calls
      end
  end.

(** The payload of the handshake frame. *)
Definition handshake (clientId : JSON.text) : JSON.value :=
  JSON.JObj [(JSON.lit "v", JSON.JNum 1);
             (JSON.lit "client_id", JSON.JStr clientId)].

(** [IPCTransport.connect()] up to the first write: the instances tried and
    either the instance connected to with the frame written on its socket, or
    the error of [getIPC]. *)
Definition connect (accepts : nat -> bool) (clientId : JSON.text)
  : list nat * (nat * option Buffer.t + errorCode) :=
  let r := getIPC accepts 0 in
  match snd r with
  | inl socket => (fst r, inl (socket, encode OPCodes.HANDSHAKE (handshake clientId)))
  | inr e => (fst r, inr e)
  end.

End IPC.

(** ** client.js: RequestQueue

    [add] is an [async] function; a call of it is suspended at most twice, at
    [await new Promise(resolve => this.queue.push(resolve))] and at
    [await fn()].  The machine below has one event per piece of code that runs
    without suspension: the start of a call, the continuation of a call whose
    [resolve] was called, and the continuation ([finally]) of a call whose
    [fn()] settled, by fulfilment or by rejection alike.  Calls are named by
    numbers; the queue holds the names of the calls whose [resolve] it
    stores. *)
Module RequestQueue.

Record t := {
  queue : list nat;
  running : Z;
  maxConcurrent : Z;
  (** calls whose [resolve] was called and whose continuation has not run *)
  woken : gset nat;
  (** calls between [this.running++] and [this.running--] *)
  inflight : gset nat;
  (** the calls in the order in which their [fn] was invoked *)
  started : list nat
}.

Definition new (maxConcurrent : Z) : t :=
  {| queue := []; running := 0; maxConcurrent := maxConcurrent;
     woken := ∅; inflight := ∅; started := [] |}.

Inductive event :=
| Add (i : nat)      (* [add(fn)] is called; [i] names the call *)
| Resume (i : nat)   (* the first [await] of call [i] returns *)
| Finish (i : nat).  (* [fn()] of call [i] has settled; the [finally] runs *)

(** [this.running++; ... fn()] *)
Definition enter (i : nat) (q : t) : t :=
  {| queue := queue q; running := running q + 1; maxConcurrent := maxConcurrent q;
     woken := woken q; inflight := {[i]} ∪ inflight q;
     started := started q ++ [i] |}.

Definition known (i : nat) (q : t) : bool :=
  bool_decide (i ∈ queue q) || bool_decide (i ∈ woken q)
  || bool_decide (i ∈ inflight q) || bool_decide (i ∈ started q).

Definition step (e : event) (q : t) : t :=
  match e with
  | Add i =>
      if known i q then q
      else if running q >=? maxConcurrent q then
        {| queue := queue q ++ [i]; running := running q;
           maxConcurrent := maxConcurrent q; woken := woken q;
           inflight := inflight q; started := started q |}
      else enter i q
  | Resume i =>
      if bool_decide (i ∈ woken q) then
        enter i {| queue := queue q; running := running q;
                   maxConcurrent := maxConcurrent q; woken := woken q ∖ {[i]};
                   inflight := inflight q; started := started q |}
      else q
  | Finish i =>
      if bool_decide (i ∈ inflight q) then
        (* [this.running--; const next = this.queue.shift(); if (next) next()] *)
        match queue q with
        | next :: rest =>
            {| queue := rest; running := running q - 1;
               maxConcurrent := maxConcurrent q; woken := {[next]} ∪ woken q;
               inflight := inflight q ∖ {[i]}; started := started q |}
        | [] =>
            {| queue := []; running := running q - 1;
               maxConcurrent := maxConcurrent q; woken := woken q;
               inflight := inflight q ∖ {[i]}; started := started q |}
        end
      else q
  end.

Definition run (es : list event) (q : t) : t := fold_left (fun q e => step e q) es q.

(** The calls waiting, woken and in flight are kept apart. *)
Definition apart (q : t) : Prop :=
  NoDup (queue q) /\
  (forall i, i ∈ queue q -> (i ∉ woken q) /\ (i ∉ inflight q)) /\
  (forall i, i ∈ woken q -> i ∉ inflight q).

(** The call that an event makes wait ([this.queue.push(resolve)]) and the
    call that it wakes ([next()]), as lists of at most one call. *)
Definition waits (e : event) (q : t) : list nat :=
  match e with
  | Add i =>
      if known i q then []
      else if running q >=? maxConcurrent q then [i] else []
  | _ => []
  end.

Definition wakes (e : event) (q : t) : list nat :=
  match e with
  | Finish i =>
      if bool_decide (i ∈ inflight q) then
        match queue q with next :: _ => [next] | [] => [] end
      else []
  | _ => []
  end.

(** The calls that had to wait, and the calls that were woken, over a run,
    each in order of time. *)
Fixpoint waited (es : list event) (q : t) : list nat :=
  match es with
  | [] => []
  | e :: es => waits e q ++ waited es (step e q)
  end.

Fixpoint woke (es : list event) (q : t) : list nat :=
  match es with
  | [] => []
  | e :: es => wakes e q ++ woke es (step e q)
  end.

(** The calls whose [fn] has settled over a run, read off the events alone:
    [Finish i] counts when [fn] of call [i] was invoked before and has not
    settled before.  [done] holds the calls that settled before the run. *)
Fixpoint settled (es : list event) (q : t) (done : list nat) : list nat :=
  match es with
  | [] => done
  | e :: es =>
      settled es (step e q)
        match e with
        | Finish i =>
            if bool_decide (i ∈ started q) && negb (bool_decide (i ∈ done))
            then done ++ [i] else done
        | _ => done
        end
  end.

(** What ties the counter to the events: the calls in flight are those
    that started and have not settled. *)
Definition counted (q : t) (done : list nat) : Prop :=
  NoDup (started q) /\ NoDup done /\
  (forall i, i ∈ inflight q <-> i ∈ started q /\ i ∉ done) /\
  (forall i, i ∈ done -> i ∈ started q) /\
  (forall i, i ∈ queue q \/ i ∈ woken q -> i ∉ started q) /\
  running q = Z.of_nat (length (started q)) - Z.of_nat (length done).

(** No call is added while a call that was woken has not resumed: the
    continuation of a woken call runs before any other [add]. *)
Fixpoint prompt (es : list event) (q : t) : Prop :=
  match es with
  | [] => True
  | e :: es =>
      match e with Add _ => woken q = ∅ | _ => True end /\ prompt es (step e q)
  end.

(** A schedule that overfills a queue of capacity [k]: calls [0 .. k-1] enter
    and call [k] waits; call [0] ends, which wakes call [k]; call [k+1] is
    added before call [k] resumes. *)
Definition overfill (k : nat) : list event :=
  map Add (seq 0 (S k)) ++ [Finish 0; Add (S k); Resume k].

End RequestQueue.

(** ** client.js: ResponseCache *)
Module ResponseCache.

Record item (V : Type) := { value : V; expires : Z }.
Arguments value {V}.
Arguments expires {V}.

Record t (V : Type) := { cache : gmap string (item V); ttl : Z }.
Arguments cache {V}.
Arguments ttl {V}.

Definition new {V} (ttl : Z) : t V := {| cache := ∅; ttl := ttl |}.

(** [set(key, value)] at time [now] ([Date.now()]). *)
Definition set {V} (now : Z) (key : string) (v : V) (c : t V) : t V :=
  {| cache := <[key := {| value := v; expires := now + ttl c |}]> (cache c);
     ttl := ttl c |}.

(** [get(key)] at time [now]: the result ([None] is [null]) and the cache
    after the call. *)
Definition get {V} (now : Z) (key : string) (c : t V) : option V * t V :=
  match cache c !! key with
  | None => (None, c)
  | Some it =>
      if now >? expires it
      then (None, {| cache := delete key (cache c); ttl := ttl c |})
      else (Some (value it), c)
  end.

Definition clear {V} (c : t V) : t V := {| cache := ∅; ttl := ttl c |}.

End ResponseCache.

(** ** client.js: RpcClient

    The client object is the record [Client].  Besides the fields of the
    JavaScript object it holds what the runtime keeps for it: the promises it
    created, the timers it started and has not cleared, the [once] listeners
    it registered, the suspended calls of [_tryReconnect], the queue of
    microtasks, and the trace of what it did to the outside.

    One event of [event] is one macrotask: a call from the application, a
    timer that fires, something the transport emits.  [step] runs its handler
    and then the microtasks it queued. *)
Module RpcClient.

(** The errors a promise of the client is rejected with, or that it emits. *)
Inductive rejection :=
| RpcTimeout
    (* [new RpcTimeout(errorCode.RpcTimeout)] *)
| ConnectionError (detail : string)
    (* [new RpcError(errorCode.ConnectionError, `${event.code}: ${event.reason}`)] *)
| MessageError (data : option JSON.value)
    (* [new RpcError(errorCode.MessageError, message.data.message)] *)
| ReconnectFailed (attempts : Z)
    (* [new RpcError(errorCode.ConnectionFailed,
           `Failed to reconnect after ${attempts} attempts`)] *)
| TransportFailure (e : IPC.errorCode)
    (* what [transport.connect()] rejected with *)
| SendFailure.
    (* what [transport.send(...)] threw in the executor of [request]: the
       [TypeError] of [this.socket.write] on a [null] socket, or what
       [encode] threw *)

(** What a promise is fulfilled with: the client itself ([connect]) or the
    [data] of a message ([request]). *)
Inductive resolution :=
| This
| Data (d : option JSON.value).

Inductive settlement :=
| Pending
| Fulfilled (v : resolution)
| Rejected (e : rejection).

Record Options := {
  requestTimeout : Z;
  autoReconnect : bool;
  maxReconnectAttempts : Z
}.

(** The callback of a timer. *)
Inductive action :=
| ConnectTimeout (p : nat)                  (* in [connect] *)
| RequestTimeout (nonce : string) (p : nat) (* in [request] *)
| ReconnectDelay (clientId : string).       (* in [_tryReconnect] *)

Record Timer := { due : Z; callback : action }.

(** An entry of [_expecting]: its [resolve] and [reject] clear [timeout] and
    settle [promise]. *)
Record Expecting := { promise : nat; timeout : nat }.

(** The [args] of a request: a value that [encode] accepts in the message
    [{ cmd, args, evt, nonce }] ([Plain None]: [undefined]), or one that
    makes [encode] throw: a cyclic object or a [BigInt], on which
    [JSON.stringify] throws, or a value whose text is too long for a frame. *)
Inductive Args :=
| Plain (v : option JSON.value)
| Unserializable.

(** The argument of the transport's ['message'] event, by its properties
    ([None]: the property is missing). *)
Record Message := {
  cmd : option string;
  evt : option string;
  nonce : option string;
  data : option JSON.value
}.

(** The argument of the transport's ['close'] event when it is neither
    [null] nor [undefined], by the texts that [`${event.code}`] and
    [`${event.reason}`] give.  The socket's ['close'] gives a boolean, its
    ['error'] an [Error], a [CLOSE] frame the value of its payload; that
    payload can be [null], on which reading [event.code] throws: the event
    is then [None] in [OnClose] below. *)
Record CloseEvent := { code : string; reason : string }.

(** What the client does to the outside. *)
Inductive effect :=
| EmitConnected
| EmitDisconnected
| EmitReconnecting (attempt : Z)
| EmitReconnected
| EmitError (e : rejection)
| EmitEvent (evt : option string) (data : option JSON.value)
| TransportConnect                       (* [this.transport.connect()] *)
| TransportSend (cmd : string) (args : option JSON.value)
                (evt : option string) (nonce : string)
| SetTimeout (timer : nat) (delay : Z) (a : action)
| Settle (p : nat) (s : settlement)      (* a pending promise is settled *)
| Throw.                                 (* a handler ends by a [TypeError] *)

(** A microtask: the continuation of [_tryReconnect] after
    [await this.connect(clientId)], with the way the promise settled. *)
Record Job := { job_clientId : string; job_fulfilled : bool }.

Record Client := {
  options : Options;
  clientId : option string;
  user : option JSON.value;
  socket : bool;                            (* [this.transport.socket] is not [null] *)
  reconnectAttempts : Z;
  isReconnecting : bool;
  _expecting : list (string * Expecting);   (* a [Map], in insertion order *)
  _connectPromise : option nat;
  promises : list settlement;               (* by promise number *)
  timers : gmap nat Timer;                  (* the timers not fired or cleared *)
  nextTimer : nat;
  onConnected : list (nat * nat);           (* [this.once('connected', ...)]: timer, promise *)
  onClose : list (string * nat);            (* [transport.once('close', ...)]: clientId, promise *)
  awaiting : list (nat * string);           (* [await this.connect(clientId)] *)
  jobs : list Job;
  trace : list effect
}.

(** The client after its constructor. *)
Definition new (o : Options) : Client :=
  {| options := o; clientId := None; user := None; socket := false;
     reconnectAttempts := 0;
     isReconnecting := false; _expecting := []; _connectPromise := None;
     promises := []; timers := ∅; nextTimer := 0; onConnected := [];
     onClose := []; awaiting := []; jobs := []; trace := [] |}.

(** *** Field updates *)

Definition set_clientId (x : option string) (c : Client) : Client :=
  {| options := options c; clientId := x; user := user c; socket := socket c;
     reconnectAttempts := reconnectAttempts c; isReconnecting := isReconnecting c;
     _expecting := _expecting c; _connectPromise := _connectPromise c;
     promises := promises c; timers := timers c; nextTimer := nextTimer c;
     onConnected := onConnected c; onClose := onClose c; awaiting := awaiting c;
     jobs := jobs c; trace := trace c |}.

Definition set_user (x : option JSON.value) (c : Client) : Client :=
  {| options := options c; clientId := clientId c; user := x; socket := socket c;
     reconnectAttempts := reconnectAttempts c; isReconnecting := isReconnecting c;
     _expecting := _expecting c; _connectPromise := _connectPromise c;
     promises := promises c; timers := timers c; nextTimer := nextTimer c;
     onConnected := onConnected c; onClose := onClose c; awaiting := awaiting c;
     jobs := jobs c; trace := trace c |}.

Definition set_socket (x : bool) (c : Client) : Client :=
  {| options := options c; clientId := clientId c; user := user c; socket := x;
     reconnectAttempts := reconnectAttempts c; isReconnecting := isReconnecting c;
     _expecting := _expecting c; _connectPromise := _connectPromise c;
     promises := promises c; timers := timers c; nextTimer := nextTimer c;
     onConnected := onConnected c; onClose := onClose c; awaiting := awaiting c;
     jobs := jobs c; trace := trace c |}.

Definition set_reconnectAttempts (x : Z) (c : Client) : Client :=
  {| options := options c; clientId := clientId c; user := user c; socket := socket c;
     reconnectAttempts := x; isReconnecting := isReconnecting c;
     _expecting := _expecting c; _connectPromise := _connectPromise c;
     promises := promises c; timers := timers c; nextTimer := nextTimer c;
     onConnected := onConnected c; onClose := onClose c; awaiting := awaiting c;
     jobs := jobs c; trace := trace c |}.

Definition set_isReconnecting (x : bool) (c : Client) : Client :=
  {| options := options c; clientId := clientId c; user := user c; socket := socket c;
     reconnectAttempts := reconnectAttempts c; isReconnecting := x;
     _expecting := _expecting c; _connectPromise := _connectPromise c;
     promises := promises c; timers := timers c; nextTimer := nextTimer c;
     onConnected := onConnected c; onClose := onClose c; awaiting := awaiting c;
     jobs := jobs c; trace := trace c |}.

Definition set_expecting (x : list (string * Expecting)) (c : Client) : Client :=
  {| options := options c; clientId := clientId c; user := user c; socket := socket c;
     reconnectAttempts := reconnectAttempts c; isReconnecting := isReconnecting c;
     _expecting := x; _connectPromise := _connectPromise c;
     promises := promises c; timers := timers c; nextTimer := nextTimer c;
     onConnected := onConnected c; onClose := onClose c; awaiting := awaiting c;
     jobs := jobs c; trace := trace c |}.

Definition set_connectPromise (x : option nat) (c : Client) : Client :=
  {| options := options c; clientId := clientId c; user := user c; socket := socket c;
     reconnectAttempts := reconnectAttempts c; isReconnecting := isReconnecting c;
     _expecting := _expecting c; _connectPromise := x;
     promises := promises c; timers := timers c; nextTimer := nextTimer c;
     onConnected := onConnected c; onClose := onClose c; awaiting := awaiting c;
     jobs := jobs c; trace := trace c |}.

Definition set_promises (x : list settlement) (c : Client) : Client :=
  {| options := options c; clientId := clientId c; user := user c; socket := socket c;
     reconnectAttempts := reconnectAttempts c; isReconnecting := isReconnecting c;
     _expecting := _expecting c; _connectPromise := _connectPromise c;
     promises := x; timers := timers c; nextTimer := nextTimer c;
     onConnected := onConnected c; onClose := onClose c; awaiting := awaiting c;
     jobs := jobs c; trace := trace c |}.

Definition set_timers (x : gmap nat Timer) (n : nat) (c : Client) : Client :=
  {| options := options c; clientId := clientId c; user := user c; socket := socket c;
     reconnectAttempts := reconnectAttempts c; isReconnecting := isReconnecting c;
     _expecting := _expecting c; _connectPromise := _connectPromise c;
     promises := promises c; timers := x; nextTimer := n;
     onConnected := onConnected c; onClose := onClose c; awaiting := awaiting c;
     jobs := jobs c; trace := trace c |}.

Definition set_onConnected (x : list (nat * nat)) (c : Client) : Client :=
  {| options := options c; clientId := clientId c; user := user c; socket := socket c;
     reconnectAttempts := reconnectAttempts c; isReconnecting := isReconnecting c;
     _expecting := _expecting c; _connectPromise := _connectPromise c;
     promises := promises c; timers := timers c; nextTimer := nextTimer c;
     onConnected := x; onClose := onClose c; awaiting := awaiting c;
     jobs := jobs c; trace := trace c |}.

Definition set_onClose (x : list (string * nat)) (c : Client) : Client :=
  {| options := options c; clientId := clientId c; user := user c; socket := socket c;
     reconnectAttempts := reconnectAttempts c; isReconnecting := isReconnecting c;
     _expecting := _expecting c; _connectPromise := _connectPromise c;
     promises := promises c; timers := timers c; nextTimer := nextTimer c;
     onConnected := onConnected c; onClose := x; awaiting := awaiting c;
     jobs := jobs c; trace := trace c |}.

Definition set_awaiting (x : list (nat * string)) (c : Client) : Client :=
  {| options := options c; clientId := clientId c; user := user c; socket := socket c;
     reconnectAttempts := reconnectAttempts c; isReconnecting := isReconnecting c;
     _expecting := _expecting c; _connectPromise := _connectPromise c;
     promises := promises c; timers := timers c; nextTimer := nextTimer c;
     onConnected := onConnected c; onClose := onClose c; awaiting := x;
     jobs := jobs c; trace := trace c |}.

Definition set_jobs (x : list Job) (c : Client) : Client :=
  {| options := options c; clientId := clientId c; user := user c; socket := socket c;
     reconnectAttempts := reconnectAttempts c; isReconnecting := isReconnecting c;
     _expecting := _expecting c; _connectPromise := _connectPromise c;
     promises := promises c; timers := timers c; nextTimer := nextTimer c;
     onConnected := onConnected c; onClose := onClose c; awaiting := awaiting c;
     jobs := x; trace := trace c |}.

Definition set_trace (x : list effect) (c : Client) : Client :=
  {| options := options c; clientId := clientId c; user := user c; socket := socket c;
     reconnectAttempts := reconnectAttempts c; isReconnecting := isReconnecting c;
     _expecting := _expecting c; _connectPromise := _connectPromise c;
     promises := promises c; timers := timers c; nextTimer := nextTimer c;
     onConnected := onConnected c; onClose := onClose c; awaiting := awaiting c;
     jobs := jobs c; trace := x |}.

(** *** The runtime: effects, promises, timers, the Map *)

Definition log (e : effect) (c : Client) : Client := set_trace (trace c ++ [e]) c.

(** [new Promise(...)]: the number of the promise and the client holding it. *)
Definition new_promise (c : Client) : nat * Client :=
  (length (promises c), set_promises (promises c ++ [Pending]) c).

(** The calls suspended on promise [p] are queued as microtasks. *)
Definition wake (p : nat) (fulfilled : bool) (c : Client) : Client :=
  let ready := List.filter (fun a => bool_decide (a.1 = p)) (awaiting c) in
  let rest := List.filter (fun a => negb (bool_decide (a.1 = p))) (awaiting c) in
  set_jobs (jobs c ++ map (fun a => {| job_clientId := a.2; job_fulfilled := fulfilled |}) ready)
    (set_awaiting rest c).

(** [resolve(v)] or [reject(e)] of promise [p]: a promise that is no longer
    pending is left as it is. *)
Definition settle (p : nat) (s : settlement) (c : Client) : Client :=
  match promises c !! p with
  | Some Pending =>
      wake p (match s with Fulfilled _ => true | _ => false end)
        (log (Settle p s) (set_promises (<[p := s]> (promises c)) c))
  | _ => c
  end.

(** [setTimeout(callback, delay)] at time [now]. *)
Definition setTimeout (now : Z) (a : action) (delay : Z) (c : Client) : nat * Client :=
  let t := nextTimer c in
  (t, log (SetTimeout t delay a)
        (set_timers (<[t := {| due := now + delay; callback := a |}]> (timers c)) (S t) c)).

Definition clearTimeout (t : nat) (c : Client) : Client :=
  set_timers (delete t (timers c)) (nextTimer c) c.

Definition map_has {V} (k : string) (m : list (string * V)) : bool :=
  existsb (fun e => String.eqb e.1 k) m.

Definition map_get {V} (k : string) (m : list (string * V)) : option V :=
  option_map snd (find (fun e => String.eqb e.1 k) m).

(** [Map.prototype.set]: the value of a present key is replaced in place, a
    new key goes to the end. *)
Fixpoint map_set {V} (k : string) (v : V) (m : list (string * V)) : list (string * V) :=
  match m with
  | [] => [(k, v)]
  | (k', v') :: m' => if String.eqb k' k then (k, v) :: m' else (k', v') :: map_set k v m'
  end.

Definition map_delete {V} (k : string) (m : list (string * V)) : list (string * V) :=
  List.filter (fun e => negb (String.eqb e.1 k)) m.

(** The [resolve] and the [reject] stored in an entry of [_expecting]. *)
Definition entry_settle (e : Expecting) (s : settlement) (c : Client) : Client :=
  settle (promise e) s (clearTimeout (timeout e) c).

(** *** The methods and handlers *)

(** [connect(clientId)] at time [now]: the promise returned and the client
    after the call. *)
Definition connect (now : Z) (id : string) (c : Client) : nat * Client :=
  match _connectPromise c with
  | Some p => (p, c)
  | None =>
      let (p, c) := new_promise c in
      let c := set_clientId (Some id) c in
      let (t, c) := setTimeout now (ConnectTimeout p) (requestTimeout (options c)) c in
      let c := set_onConnected (onConnected c ++ [(t, p)]) c in
      let c := set_onClose (onClose c ++ [(id, p)]) c in
      let c := log TransportConnect c in
      (p, set_connectPromise (Some p) c)
  end.

(** The function that [request] hands to the request queue, run when the
    queue admits the call, at time [now]; [token] is the value of [uuid()].
    [this.transport.send(...)] is [this.socket.write(encode(op, data))]: it
    throws when the socket is [null] or when [encode] throws.  The exception
    leaves the executor of the promise, which is rejected with it; the
    timer and the entry of [_expecting] are there already and stay. *)
Definition request (now : Z) (cmd : string) (args : Args)
    (evt : option string) (token : string) (c : Client) : nat * Client :=
  let (p, c) := new_promise c in
  let (t, c) := setTimeout now (RequestTimeout token p) (requestTimeout (options c)) c in
  let c := set_expecting (map_set token {| promise := p; timeout := t |} (_expecting c)) c in
  match args with
  | Plain a =>
      if socket c then (p, log (TransportSend cmd a evt token) c)
      else (p, settle p (Rejected SendFailure) c)
  | Unserializable => (p, settle p (Rejected SendFailure) c)
  end.

(** [_tryReconnect(clientId)] up to its first [await].  When the attempts
    are used up the error is emitted; on a client without a listener of
    ['error'] that [emit] throws, inside the [async] function: the exception
    rejects the promise of the call, which nobody holds, and changes nothing
    of the client. *)
Definition _tryReconnect (now : Z) (id : string) (c : Client) : Client :=
  if reconnectAttempts c >=? maxReconnectAttempts (options c) then
    log (EmitError (ReconnectFailed (reconnectAttempts c))) c
  else
    let c := set_isReconnecting true c in
    let c := set_reconnectAttempts (reconnectAttempts c + 1) c in
    let c := log (EmitReconnecting (reconnectAttempts c)) c in
    let delay := Z.min (1000 * 2 ^ reconnectAttempts c) 30000 in
    snd (setTimeout now (ReconnectDelay id) delay c).

(** [_tryReconnect] from the end of the delay to [await this.connect(...)];
    the promise awaited is the one [connect] has just made, still pending. *)
Definition reconnect_resume (now : Z) (id : string) (c : Client) : Client :=
  let c := set_connectPromise None c in
  let (p, c) := connect now id c in
  set_awaiting (awaiting c ++ [(p, id)]) c.

(** [_tryReconnect] after [await this.connect(clientId)]. *)
Definition run_job (now : Z) (j : Job) (c : Client) : Client :=
  if job_fulfilled j then log EmitReconnected (set_isReconnecting false c)
  else _tryReconnect now (job_clientId j) c.

(** The microtasks queued by a handler, in order. *)
Definition drain (now : Z) (c : Client) : Client :=
  fold_left (fun c j => run_job now j c) (jobs c) (set_jobs [] c).

(** The listener that [connect] registers with [this.once('connected', ...)]. *)
Definition connected_listener (h : nat * nat) (c : Client) : Client :=
  let c := clearTimeout h.1 c in
  let c := set_reconnectAttempts 0 c in
  settle h.2 (Fulfilled This) c.

(** The listener that [connect] registers with [transport.once('close', ...)]. *)
Definition close_listener (now : Z) (event : CloseEvent) (h : string * nat)
    (c : Client) : Client :=
  let err := ConnectionError (code event +:+ ": " +:+ reason event) in
  let c := fold_left (fun c e => entry_settle e.2 (Rejected err) c) (_expecting c) c in
  let c := log EmitDisconnected c in
  let c := if autoReconnect (options c) && negb (isReconnecting c)
           then _tryReconnect now h.1 c else c in
  settle h.2 (Rejected err) c.

(** The same listener when the event is [null] or [undefined]: the first
    [`${event.code}`] that is evaluated throws a [TypeError], which leaves
    the listener.  With an entry in [_expecting] that is in the callback of
    [forEach], before anything is done; with none it is in the argument of
    the last [reject], after ['disconnected'] and [_tryReconnect]. *)
Definition close_listener_null (now : Z) (h : string * nat) (c : Client) : Client :=
  match _expecting c with
  | _ :: _ => log Throw c
  | [] =>
      let c := log EmitDisconnected c in
      let c := if autoReconnect (options c) && negb (isReconnecting c)
               then _tryReconnect now h.1 c else c in
      log Throw c
  end.

(** [transport.emit('close', event)]: the [once] listeners run in the order
    of their registration, each removed before it is called; an exception
    that leaves one of them leaves [emit], and the listeners after it stay
    registered. *)
Definition emit_close (now : Z) (event : option CloseEvent) (c : Client) : Client :=
  match event with
  | Some ev =>
      let listeners := onClose c in
      fold_left (fun c h => close_listener now ev h c) listeners (set_onClose [] c)
  | None =>
      match onClose c with
      | h :: rest => close_listener_null now h (set_onClose rest c)
      | [] => c
      end
  end.

(** [this.emit('connected')]: the [once] listeners of [connect]. *)
Definition emit_connected (c : Client) : Client :=
  let listeners := onConnected c in
  fold_left (fun c h => connected_listener h c) listeners (set_onConnected [] c).

(** [this.emit(message.evt, message.data)] of a message that answers no
    request.  The client is taken without listeners of the application: the
    only listeners are those of [connect], which run when the name is
    ['connected']; and when the name is ['error'] the call throws, as
    [emit('error')] does on an emitter that has no listener for it.
    ([evt] is [None] when [message.evt] is not a string.) *)
Definition emit_event (evt : option string) (data : option JSON.value) (c : Client)
  : Client :=
  let c := log (EmitEvent evt data) c in
  if bool_decide (evt = Some "connected"%string) then emit_connected c
  else if bool_decide (evt = Some "error"%string) then log Throw c
  else c.

(** Truthiness of [message.data.user]; [None] when reading the property
    throws, that is when [message.data] is [undefined] or [null]. *)
Definition data_user (d : option JSON.value) : option (option JSON.value) :=
  match d with
  | None | Some JSON.JNull => None
  | Some (JSON.JObj members) =>
      match find (fun m => bool_decide (m.1 = JSON.lit "user")) (rev members) with
      | None => Some None
      | Some (_, u) =>
          match u with
          | JSON.JNull | JSON.JBool false | JSON.JNum 0 | JSON.JStr [] => Some None
          | _ => Some (Some u)
          end
      end
  | Some _ => Some None
  end.

(** The constants of [constants.js] that [_onRpcMessage] compares with. *)
Record Constants := { DISPATCH : string; READY : string }.

(** [_onRpcMessage(message)]. *)
Definition _onRpcMessage (k : Constants) (m : Message) (c : Client) : Client :=
  if bool_decide (cmd m = Some (DISPATCH k)) && bool_decide (evt m = Some (READY k)) then
    match data_user (data m) with
    | None => log Throw c
    | Some u =>
        let c := match u with Some u => set_user (Some u) c | None => c end in
        let c := log EmitConnected c in
        let listeners := onConnected c in
        fold_left (fun c h => connected_listener h c) listeners (set_onConnected [] c)
    end
  else
    match nonce m with
    | Some n =>
        match map_get n (_expecting c) with
        | Some e =>
            if bool_decide (evt m = Some "RpcError") then
              match data m with
              | None | Some JSON.JNull => log Throw c
              | Some _ =>
                  let c := entry_settle e (Rejected (MessageError (data m))) c in
                  set_expecting (map_delete n (_expecting c)) c
              end
            else
              let c := entry_settle e (Fulfilled (Data (data m))) c in
              set_expecting (map_delete n (_expecting c)) c
        | None => emit_event (evt m) (data m) c
        end
    | None => emit_event (evt m) (data m) c
    end.

(** The callback of a timer. *)
Definition fire (now : Z) (a : action) (c : Client) : Client :=
  match a with
  | ConnectTimeout p => settle p (Rejected RpcTimeout) c
  | RequestTimeout token p =>
      settle p (Rejected RpcTimeout)
        (set_expecting (map_delete token (_expecting c)) c)
  | ReconnectDelay id => reconnect_resume now id c
  end.

(** *** The machine *)

Inductive event :=
| Connect (id : string)
    (* the application calls [connect(id)] *)
| Request (cmd : string) (args : Args) (evt : option string)
          (token : string)
    (* the request queue runs the function of a [request] *)
| Fire (timer : nat)
    (* a timer is due and its callback runs *)
| OnMessage (m : Message)
    (* the transport emits ['message'] *)
| OnClose (e : option CloseEvent)
    (* the transport emits ['close'] *)
| ConnectRejected (p : nat) (e : IPC.errorCode)
    (* [transport.connect()] of the [connect] that made [p] rejects *)
| TransportOpened.
    (* [getIPC()] resolves in [transport.connect()]: [this.socket] is set *)

Definition handle (k : Constants) (now : Z) (e : event) (c : Client) : Client :=
  match e with
  | Connect id => snd (connect now id c)
  | Request cmd args evt token => snd (request now cmd args evt token c)
  | Fire t =>
      match timers c !! t with
      | Some tm =>
          if due tm <=? now then fire now (callback tm) (clearTimeout t c) else c
      | None => c
      end
  | OnMessage m => _onRpcMessage k m c
  | OnClose ev => emit_close now ev c
  | ConnectRejected p e => settle p (Rejected (TransportFailure e)) c
  | TransportOpened => set_socket true c
  end.

(** One macrotask at time [now], with the microtasks it leaves. *)
Definition step (k : Constants) (e : Z * event) (c : Client) : Client :=
  drain e.1 (handle k e.1 e.2 c).

Definition run (k : Constants) (es : list (Z * event)) (c : Client) : Client :=
  fold_left (fun c e => step k e c) es c.

End RpcClient.

(** ** client.js: batchRequest and _processBatch

    [this.request] is taken by the way its promise ends: [request r] is the
    outcome of [this.request(r.cmd, r.args, r.evt)].  A caller of
    [batchRequest] with batching enabled is named by the number of the promise
    it was given, and [callers] holds how these promises stand. *)
Module Batch.

Section Batch.
Context {Req Res Err : Type}.

(** How a promise ends. *)
Inductive outcome (A : Type) :=
| Fulfil (v : A)
| Reject (e : Err)
| Never.
Arguments Fulfil {A}.
Arguments Reject {A}.
Arguments Never {A}.

Variable request : Req -> outcome Res.

Definition first_reject (l : list (outcome Res)) : option Err :=
  match find (fun o => match o with Reject _ => true | _ => false end) l with
  | Some (Reject e) => Some e
  | _ => None
  end.

Fixpoint all_values (l : list (outcome Res)) : option (list Res) :=
  match l with
  | [] => Some []
  | Fulfil v :: l =>
      match all_values l with Some vs => Some (v :: vs) | None => None end
  | _ :: _ => None
  end.

(** [Promise.all]: rejected as soon as one of the promises is (when several
    are, the leftmost stands for the first in time), fulfilled with all the
    values when all are fulfilled, pending for ever otherwise. *)
Definition Promise_all (l : list (outcome Res)) : outcome (list Res) :=
  match first_reject l with
  | Some e => Reject e
  | None =>
      match all_values l with
      | Some vs => Fulfil vs
      | None => Never
      end
  end.

(** An element of [_batchQueue]: the request and the [resolve] of the promise
    of the call of [batchRequest] that queued it. *)
Record Item := { item_request : Req; item_resolve : nat }.

Record t := {
  enableBatching : bool;
  batchDelay : Z;
  _batchQueue : list Item;
  _batchTimer : option Z;          (* when the timer not yet fired is due *)
  callers : list (option Res)      (* [None]: the promise is pending *)
}.

Definition new (enabled : bool) (delay : Z) : t :=
  {| enableBatching := enabled; batchDelay := delay; _batchQueue := [];
     _batchTimer := None; callers := [] |}.

(** [resolve(v)] of the promise of caller [p]. *)
Definition resolve (p : nat) (v : Res) (cs : list (option Res)) : list (option Res) :=
  match cs !! p with
  | Some None => <[p := Some v]> cs
  | _ => cs
  end.

(** What [batchRequest(requests)] returns, at time [now]: with batching off,
    the promise of [Promise.all], given by its outcome; with batching on, a new
    promise, given by its number. *)
Definition batchRequest (now : Z) (requests : list Req) (b : t)
  : (outcome (list Res) + nat) * t :=
  if enableBatching b then
    let p := length (callers b) in
    (inr p,
     {| enableBatching := enableBatching b; batchDelay := batchDelay b;
        _batchQueue := _batchQueue b
          ++ map (fun r => {| item_request := r; item_resolve := p |}) requests;
        _batchTimer := Some (now + batchDelay b);
        callers := callers b ++ [None] |})
  else (inl (Promise_all (map request requests)), b).

(** [batch.forEach((item, i) => item.resolve(results[i]))] *)
Fixpoint resolve_each (batch : list Item) (results : list Res)
    (cs : list (option Res)) : list (option Res) :=
  match batch, results with
  | item :: batch, v :: results =>
      resolve_each batch results (resolve (item_resolve item) v cs)
  | _, _ => cs
  end.

(** [_processBatch()], seen once the requests it issued have ended. *)
Definition _processBatch (b : t) : t :=
  let batch := _batchQueue b in
  let promises := map (fun item => request (item_request item)) batch in
  {| enableBatching := enableBatching b; batchDelay := batchDelay b;
     _batchQueue := []; _batchTimer := _batchTimer b;
     callers :=
       match Promise_all promises with
       | Fulfil results => resolve_each batch results (callers b)
       | _ => callers b
       end |}.

(** The batch timer fires at time [now]. *)
Definition timer_fires (now : Z) (b : t) : t :=
  match _batchTimer b with
  | Some due =>
      if due <=? now then
        _processBatch
          {| enableBatching := enableBatching b; batchDelay := batchDelay b;
             _batchQueue := _batchQueue b; _batchTimer := None;
             callers := callers b |}
      else b
  | None => b
  end.

End Batch.

Arguments Fulfil {Err A}.
Arguments Reject {Err A}.
Arguments Never {Err A}.
Arguments Item : clear implicits.
Arguments t : clear implicits.

End Batch.

(** ** Observations on a run of the client *)
Module Observe.
Import RpcClient.

(** The calls of [transport.connect()] in a trace. *)
Definition connects (tr : list effect) : nat :=
  length (List.filter (fun e => match e with TransportConnect => true | _ => false end) tr).

(** The delays of the timers that [_tryReconnect] started. *)
Fixpoint schedule (tr : list effect) : list Z :=
  match tr with
  | [] => []
  | SetTimeout _ d (ReconnectDelay _) :: tr => d :: schedule tr
  | _ :: tr => schedule tr
  end.

(** The numbers of the attempts that [_tryReconnect] announced with
    ['reconnecting']. *)
Fixpoint announced (tr : list effect) : list Z :=
  match tr with
  | [] => []
  | EmitReconnecting n :: tr => n :: announced tr
  | _ :: tr => announced tr
  end.

(** The errors emitted. *)
Fixpoint reported (tr : list effect) : list rejection :=
  match tr with
  | [] => []
  | EmitError e :: tr => e :: reported tr
  | _ :: tr => reported tr
  end.

(** The promises settled, in order. *)
Fixpoint settled (tr : list effect) : list (nat * settlement) :=
  match tr with
  | [] => []
  | Settle p s :: tr => (p, s) :: settled tr
  | _ :: tr => settled tr
  end.

(** [backoff n]: the wait of the attempt announced as number [n]. *)
Definition backoff (n : Z) : Z := Z.min (1000 * 2 ^ n) 30000.

Definition is_reconnect (a : action) : bool :=
  match a with ReconnectDelay _ => true | _ => false end.

(** The event makes [_tryReconnect] go on after its delay. *)
Definition resumes (c : Client) (e : Z * event) : bool :=
  match e.2 with
  | Fire t =>
      match timers c !! t with
      | Some tm => is_reconnect (callback tm) && (due tm <=? e.1)
      | None => false
      end
  | _ => false
  end.

(** No event of the run makes [_tryReconnect] go on. *)
Fixpoint no_resume (k : Constants) (c : Client) (es : list (Z * event)) : Prop :=
  match es with
  | [] => True
  | e :: es => resumes c e = false /\ no_resume k (step k e c) es
  end.

(** One reconnection attempt that fails: the delay ends, [connect] is called
    again, and the [transport.connect()] it makes rejects with [e]. *)
Definition failed_attempt (k : Constants) (e : IPC.errorCode) (c : Client) : Client :=
  let t := pred (nextTimer c) in
  match timers c !! t with
  | Some tm =>
      let c := step k (due tm, Fire t) c in
      step k (due tm, ConnectRejected (pred (length (promises c))) e) c
  | None => c
  end.

(** No reconnection is under way and none can start: no call of
    [_tryReconnect] is suspended, no timer of it is pending, and the guard
    [autoReconnect && !isReconnecting] of the close listener is false. *)
Definition dormant (c : Client) : Prop :=
  awaiting c = [] /\ jobs c = [] /\
  (forall t tm, timers c !! t = Some tm -> is_reconnect (callback tm) = false) /\
  autoReconnect (options c) && negb (isReconnecting c) = false.

(** The client will not try to reconnect again. *)
Definition gave_up (c : Client) : Prop :=
  dormant c /\ isReconnecting c = true /\ is_Some (_connectPromise c).

(** [_tryReconnect] waits for the end of its delay, after the attempt
    announced as number [a]: its timer is the last one started and the only
    one of its kind. *)
Definition retrying (c : Client) (id : string) (a : Z) : Prop :=
  awaiting c = [] /\ jobs c = [] /\
  reconnectAttempts c = a /\ isReconnecting c = true /\
  nextTimer c <> O /\
  (exists d, timers c !! pred (nextTimer c)
             = Some {| due := d; callback := ReconnectDelay id |}) /\
  (forall t tm, timers c !! t = Some tm -> is_reconnect (callback tm) = true ->
                t = pred (nextTimer c)).

(** From [c] to [c'] the memoized promise of [connect] is the same, no call of
    [transport.connect()] was made, and the promises that were settled are as
    they were. *)
Definition keeps (c c' : Client) : Prop :=
  _connectPromise c' = _connectPromise c /\
  connects (trace c') = connects (trace c) /\
  forall p s, promises c !! p = Some s -> s <> Pending -> promises c' !! p = Some s.

(** From [c] to [c'] the promises that were settled are as they were. *)
Definition stable (c c' : Client) : Prop :=
  forall p s, promises c !! p = Some s -> s <> Pending -> promises c' !! p = Some s.

(** Timer [t] was started and is no longer there: it fired or was cleared,
    and its number is not given again. *)
Definition cleared (t : nat) (c : Client) : Prop :=
  (t < nextTimer c)%nat /\ timers c !! t = None.

(** The microtasks left are continuations of [_tryReconnect] whose
    [await this.connect(clientId)] was fulfilled. *)
Definition fulfilled_jobs (c : Client) : Prop :=
  Forall (fun j => job_fulfilled j = true) (jobs c).

(** The message is the dispatch of [READY]. *)
Definition is_ready (k : Constants) (m : Message) : bool :=
  bool_decide (cmd m = Some (DISPATCH k)) && bool_decide (evt m = Some (READY k)).

(** Request [token] is registered: its entry, its timer and its promise. *)
Record registered (c : Client) (token : string) (p t : nat) (deadline : Z) : Prop := {
  reg_entry : map_get token (_expecting c) = Some {| promise := p; timeout := t |};
  reg_timer : timers c !! t = Some {| due := deadline; callback := RequestTimeout token p |};
  reg_pending : promises c !! p = Some Pending
}.

End Observe.

(** ** Concrete inputs used in the examples *)
Module Samples.

(** The environment in which only instance 10 listens. *)
Definition only_instance_10 (i : nat) : bool := Nat.eqb i 10.

Definition constants : RpcClient.Constants :=
  {| RpcClient.DISPATCH := "DISPATCH"; RpcClient.READY := "READY" |}.

(** The default options, and the same with automatic reconnection. *)
Definition manual : RpcClient.Options :=
  {| RpcClient.requestTimeout := 10000; RpcClient.autoReconnect := false;
     RpcClient.maxReconnectAttempts := 3 |}.

Definition automatic : RpcClient.Options :=
  {| RpcClient.requestTimeout := 10000; RpcClient.autoReconnect := true;
     RpcClient.maxReconnectAttempts := 3 |}.

Definition ready_message : RpcClient.Message :=
  {| RpcClient.cmd := Some "DISPATCH"; RpcClient.evt := Some "READY";
     RpcClient.nonce := None; RpcClient.data := Some (JSON.JObj []) |}.

Definition lost : RpcClient.CloseEvent :=
  {| RpcClient.code := "1006"; RpcClient.reason := "gone" |}.

(** A client that connected at time 0, whose socket opened at time 1, that
    got [READY] at time 5 and has issued
    three requests that are not answered yet. *)
Definition three_pending (o : RpcClient.Options) : RpcClient.Client :=
  RpcClient.run constants
    [(0, RpcClient.Connect "app");
     (1, RpcClient.TransportOpened);
     (5, RpcClient.OnMessage ready_message);
     (10, RpcClient.Request "GET_GUILDS" (RpcClient.Plain None) None "n1");
     (11, RpcClient.Request "GET_CHANNELS" (RpcClient.Plain None) None "n2");
     (12, RpcClient.Request "GET_VOICE_SETTINGS" (RpcClient.Plain None) None "n3")]
    (RpcClient.new o).

End Samples.

(** ** transports/ipc.js: the path of a socket *)
Module Paths.
Import JSON.

(** What [getIPCPath] reads of [process]: the platform and four variables of
    the environment ([None]: the variable is not set). *)
Record Process := {
  platform : string;
  XDG_RUNTIME_DIR : option text;
  TMPDIR : option text;
  TMP : option text;
  TEMP : option text
}.

(** [a || b] on values that are a string or [undefined]: the empty string is
    falsy as [undefined] is. *)
Definition or (a b : option text) : option text :=
  match a with
  | Some (_ :: _) => a
  | _ => b
  end.

(** The variable is not set, or set to the empty string. *)
Definition unset (x : option text) : Prop := x = None \/ x = Some [].

(** [s.replace(/\/$/, '')]: a slash at the very end of the text is removed. *)
Definition strip_slash (s : text) : text :=
  match rev s with
  | c :: r => if (c =? "/")%char then rev r else s
  | [] => s
  end.

Definition prefix (p : Process) : text :=
  match or (or (or (or (XDG_RUNTIME_DIR p) (TMPDIR p)) (TMP p)) (TEMP p))
           (Some (lit "/tmp")) with
  | Some s => s
  | None => []
  end.

(** [getIPCPath(id)], for an instance number, printed in decimal notation
    (the instances that [getIPC] asks for are 0 to 10). *)
Definition getIPCPath (p : Process) (id : nat) : text :=
  if String.eqb (platform p) "win32" then
    lit "\\?\pipe\discord-ipc-" ++ print_number (Z.of_nat id)
  else
    strip_slash (prefix p) ++ lit "/discord-ipc-" ++ print_number (Z.of_nat id).

End Paths.

(** ** transports/ipc.js: the probe of the HTTP endpoint *)
Module Endpoint.
Import JSON.

Definition port (tries : nat) : Z := 6463 + Z.of_nat (tries mod 10).

Definition endpoint (tries : nat) : text :=
  lit "http://127.0.0.1:" ++ print_number (port tries).

(** [findEndpoint(tries)].  [status t] is how the [fetch] of the call with
    [tries = t] ends: the HTTP status of the response, or [None] when its
    promise rejects.  The result is the list of the endpoints fetched, in
    order, and the endpoint returned or the error thrown. *)
Equations? findEndpoint (status : nat -> option Z) (tries : nat)
  : list text * (text + IPC.errorCode) by wf (31 - tries)%nat lt :=
findEndpoint status tries with gt_dec tries 30 => {
  | left _ => ([], inr IPC.MissingEndpoint)
  | right _ with status tries => {
    | Some s with Z.eq_dec s 404 => {
      | left _ => ([endpoint tries], inl (endpoint tries))
      | right _ =>
          let r := findEndpoint status (S tries) in (endpoint tries :: fst r, snd r) }
    | None =>
        let r := findEndpoint status (S tries) in (endpoint tries :: fst r, snd r) } }.
Proof. all: lia. Qed.

End Endpoint.

(** ** transports/ipc.js and client.js: tests on parsed values *)
Module Transport.
Import JSON.

(** JavaScript truthiness of a parsed value. *)
Definition truthy (v : value) : bool :=
  match v with
  | JNull | JBool false | JNum 0 | JStr [] => false
  | _ => true
  end.

(** [data[key]] for a parsed value and a key that no prototype has: the last
    member of that name of an object, [undefined] ([None]) otherwise. *)
Definition property (key : text) (v : value) : option value :=
  match v with
  | JObj members =>
      match find (fun m => bool_decide (m.1 = key)) (rev members) with
      | Some (_, x) => Some x
      | None => None
      end
  | _ => None
  end.

(** [x === s] for a string literal [s]. *)
Definition is_string (s : text) (x : option value) : bool :=
  match x with
  | Some (JStr s') => bool_decide (s' = s)
  | _ => false
  end.

End Transport.

(** ** The references to promises and timers that a client holds *)
Module Track.
Import RpcClient Observe.

(** The callback of a timer settles no promise numbered [P], and deletes the
    entry of no request named [tok]. *)
Definition action_free (tok : option string) (P : nat) (a : action) : Prop :=
  match a with
  | ConnectTimeout q => q <> P
  | RequestTimeout n q => q <> P /\ Some n <> tok
  | ReconnectDelay _ => True
  end.

(** Nothing that the client holds refers to promise [P] or to timer [T],
    apart from the entry of the request named [tok] and from timer [T]
    itself. *)
Record avoids (P T : nat) (tok : option string) (c : Client) : Prop := {
  av_entries : forall n e, In (n, e) (_expecting c) -> Some n <> tok ->
                           promise e <> P /\ timeout e <> T;
  av_timers : forall t tm, timers c !! t = Some tm -> t <> T ->
                           action_free tok P (callback tm);
  av_connected : forall t q, In (t, q) (onConnected c) -> t <> T /\ q <> P;
  av_close : forall id q, In (id, q) (onClose c) -> q <> P;
  (* every timer has a number under [nextTimer] *)
  av_below : forall t tm, timers c !! t = Some tm -> (t < nextTimer c)%nat
}.

(** The numbers of promises and of timers that the client refers to are
    numbers that it has given out. *)
Definition wf (c : Client) : Prop :=
  forall P T, (length (promises c) <= P)%nat -> (nextTimer c <= T)%nat ->
              avoids P T None c.

(** From [c] to [c'] the promises and the timers are more, if anything. *)
Definition grows (c c' : Client) : Prop :=
  (length (promises c) <= length (promises c'))%nat /\
  (nextTimer c <= nextTimer c')%nat.

(** From [c] to [c'] the promises and the timers are more, if anything, and
    promise [P], timer [T] and the entry of [token] are as they were. *)
Record follows (P T : nat) (token : string) (c c' : Client) : Prop := {
  fo_length : (length (promises c) <= length (promises c'))%nat;
  fo_next : (nextTimer c <= nextTimer c')%nat;
  fo_promise : promises c' !! P = promises c !! P;
  fo_timer : timers c' !! T = timers c !! T;
  fo_entry : map_get token (_expecting c') = map_get token (_expecting c)
}.

(** No request of the client is named [token]. *)
Definition fresh (token : string) (c : Client) : Prop :=
  map_get token (_expecting c) = None /\
  forall t tm q, timers c !! t = Some tm -> callback tm <> RequestTimeout token q.

(** The request [token], with promise [p] and timer [t], is registered and
    nothing else refers to its promise, its timer or its name. *)
Definition tracked (c : Client) (token : string) (p t : nat) (deadline : Z) : Prop :=
  registered c token p t deadline /\
  (p < length (promises c))%nat /\ (t < nextTimer c)%nat /\
  avoids p t (Some token) c.

(** An event that is neither the answer to request [token], nor the firing of
    its timer [t], nor the loss of the connection; the transport does not
    reject its promise [p], which is not one of [connect], and no other
    request takes its name. *)
Definition quiet (k : Constants) (token : string) (p t : nat) (e : Z * event) : bool :=
  match e.2 with
  | Connect _ => true
  | Request _ _ _ token' => negb (String.eqb token' token)
  | Fire t' => negb (Nat.eqb t' t)
  | OnMessage m => is_ready k m || negb (bool_decide (nonce m = Some token))
  | OnClose _ => false
  | ConnectRejected q _ => negb (Nat.eqb q p)
  | TransportOpened => true
  end.

(** [fresh], as a test. *)
Definition freshb (token : string) (c : Client) : bool :=
  negb (map_has token (_expecting c)) &&
  forallb (fun x => match callback x.2 with
                    | RequestTimeout n _ => negb (String.eqb n token)
                    | _ => true
                    end) (map_to_list (timers c)).

End Track.

(** ** client.js: destroy *)
Module Lifecycle.
Import RpcClient.

(** [destroy()].  [removeAllListeners()] removes from the client the
    ['connected'] listeners of [connect]; the listeners registered on the
    transport stay.  [this._subscriptions] is assigned nowhere, so that
    [this._subscriptions.clear()] throws a [TypeError]: the promise of
    [destroy] is rejected there and [this.transport.close()] is not
    reached. *)
Definition destroy (c : Client) : Client :=
  let c := set_onConnected [] c in
  let c := set_expecting [] c in
  log Throw c.

End Lifecycle.

(** ** client.js: calls of batchRequest and firings of the batch timer *)
Module BatchRun.
Import Batch.

Section BatchRun.
Context {Req Res Err : Type}.
Variable request : Req -> outcome (Err := Err) Res.

Inductive event :=
| Call (now : Z) (requests : list Req)   (* [batchRequest(requests)] *)
| Timer (now : Z).                       (* the callback of [_batchTimer] *)

Definition step (e : event) (b : Batch.t Req Res) : Batch.t Req Res :=
  match e with
  | Call now requests => (batchRequest request now requests b).2
  | Timer now => timer_fires request now b
  end.

Definition run (es : list event) (b : Batch.t Req Res) : Batch.t Req Res :=
  fold_left (fun b e => step e b) es b.

(** Calls of [batchRequest], each with its time and its requests. *)
Definition batch_calls (l : list (Z * list Req)) : list event :=
  map (fun c => Call c.1 c.2) l.

(** What the first request of a call ends with, when it is fulfilled. *)
Definition first_result (requests : list Req) : option Res :=
  match requests with
  | r :: _ => match request r with Fulfil v => Some v | _ => None end
  | [] => None
  end.

(** How the state [b1] stands after the calls [calls] made from [b] with
    batching on. *)
Record queued (b : Batch.t Req Res) (calls : list (Z * list Req))
    (b1 : Batch.t Req Res) : Prop := {
  qd_enabled : enableBatching b1 = true;
  qd_delay : batchDelay b1 = batchDelay b;
  qd_callers : callers b1 = callers b ++ replicate (length calls) None;
  qd_requests : map item_request (_batchQueue b1)
                = map item_request (_batchQueue b) ++ concat (map snd calls);
  qd_timer : _batchTimer b1
             = match last calls with
               | Some c => Some (c.1 + batchDelay b)
               | None => _batchTimer b
               end;
  qd_items : forall it, In it (_batchQueue b1) ->
             In it (_batchQueue b) \/
             exists i c, calls !! i = Some c /\ In (item_request it) c.2 /\
                         item_resolve it = (length (callers b) + i)%nat;
  qd_first : (forall it, In it (_batchQueue b) ->
                (item_resolve it < length (callers b))%nat) ->
             forall i c, calls !! i = Some c ->
             find (fun it => Nat.eqb (item_resolve it) (length (callers b) + i))
                  (_batchQueue b1)
             = match c.2 with
               | r :: _ => Some {| item_request := r;
                                   item_resolve := (length (callers b) + i)%nat |}
               | [] => None
               end
}.

End BatchRun.
End BatchRun.

(** ** client.js: the ['close'] listeners that [connect] leaves on the transport *)
Module Leak.
Import RpcClient Observe.

(** The calls of [emit('disconnected')] in a trace. *)
Definition disconnects (tr : list effect) : nat :=
  length (List.filter (fun e => match e with EmitDisconnected => true | _ => false end) tr).

(** From [c] to [c'] no ['close'] listener was removed, and one was
    registered for each call of [transport.connect()]. *)
Definition accrued (c c' : Client) : Prop :=
  exists l, onClose c' = onClose c ++ l /\
            connects (trace c') = (connects (trace c) + length l)%nat.

(** The event is not the ['close'] of the transport. *)
Definition no_close (e : Z * event) : bool :=
  match e.2 with OnClose _ => false | _ => true end.

End Leak.

(** ** client.js: the options of the constructor

    The argument of [new RpcClient(options)] is taken as the list of its own
    members, as [JSON.parse] gives them; so its values are those of JSON. *)
Module Constructor.
Import JSON Transport.

(** [x || d] *)
Definition or (x : option value) (d : value) : value :=
  match x with
  | Some v => if truthy v then v else d
  | None => d
  end.

Definition defaults : list (text * value) :=
  [(lit "enableCache", JBool false);
   (lit "batchDelay", JNum 10);
   (lit "cacheTTL", JNum 5000);
   (lit "maxConcurrentRequests", JNum 5);
   (lit "requestTimeout", JNum 10000);
   (lit "autoReconnect", JBool false);
   (lit "maxReconnectAttempts", JNum 3)].

(** [this.options]: the seven members written with [||], then the members
    of [...options]; a member written twice has its last value. *)
Definition options (o : list (text * value)) : value :=
  JObj (map (fun kd => (kd.1, or (property kd.1 (JObj o)) kd.2)) defaults ++ o).

(** The argument of [this.setMaxListeners]. *)
Definition maxListeners (o : list (text * value)) : value :=
  or (property (lit "maxListeners") (JObj o)) (JNum 20).

(** [this.requestQueue], when [this.options.maxConcurrentRequests] is a
    number ([None] stands for the other cases, which are not described). *)
Definition requestQueue (o : list (text * value)) : option RequestQueue.t :=
  match property (lit "maxConcurrentRequests") (options o) with
  | Some (JNum n) => Some (RequestQueue.new n)
  | _ => None
  end.

End Constructor.

(** ** transports/ipc.js over the builtins of any runtime

    The codec once more, with the builtins that it calls left as parameters:
    [JSON.stringify] and [JSON.parse] over the values of JavaScript, and the
    UTF-8 coding between strings and buffers.  A string is the list of its
    UTF-16 code units, a buffer the list of its bytes.  What is proved here
    holds for every frame that a peer may send and for every payload, with
    the laws of the builtins that a statement needs written as its
    hypotheses; module [Fragment] gives the builtins of the JSON fragment
    above, on which the statements are evaluated. *)
Module Wire.
Import Buffer.
Import IPC.OPCodes.

Definition jsstring := list N.

(** The byte [0x00]. *)
Definition NUL : ascii := Ascii.zero.

(** The entry of [socketState] for one socket. *)
Record State := { full : jsstring; op : option Z }.

Definition initial : State := {| full := []; op := None |}.

(** The argument of one call of the callback of [decode]. *)
Record Message (value : Type) := { msg_op : option Z; msg_data : value }.
Arguments msg_op {value}.
Arguments msg_data {value}.

(** How a call of [decode] ends: it returns, or an exception leaves it; in
    both cases with the state of the socket and what the callback did. *)
Inductive outcome (E : Type) :=
| Returned (st : State) (effects : list E)
| Threw (st : State) (effects : list E).
Arguments Returned {E}.
Arguments Threw {E}.

Definition called {E} (l : list E) (o : outcome E) : outcome E :=
  match o with
  | Returned st effects => Returned st (l ++ effects)
  | Threw st effects => Threw st (l ++ effects)
  end.

Section Runtime.

Variable value : Type.

(** [JSON.stringify(data)]; [None] when it throws or gives [undefined], on
    which [Buffer.byteLength] throws. *)
Variable stringify : value -> option jsstring.

(** [JSON.parse(text)]; [None] when it throws. *)
Variable parse : jsstring -> option value.

(** The UTF-8 bytes of a string, which [Buffer.byteLength] counts and
    [buf.write] stores. *)
Variable utf8 : jsstring -> Buffer.t.

(** [buf.toString()], also applied when a buffer is appended to a string. *)
Variable toString : Buffer.t -> jsstring.

(** [encode(op, data)]; [None] when an exception leaves it. *)
Definition encode (op : Z) (data : value) : option Buffer.t :=
  match stringify data with
  | None => None
  | Some data =>
      let len := Z.of_nat (length (utf8 data)) in
      match writeInt32LE op, writeInt32LE len with
      | Some h1, Some h2 => Some (h1 ++ h2 ++ firstn (Z.to_nat len) (utf8 data))
      | _, _ => None
      end
  end.

Section Decoder.

Variable E : Type.

(** [callback({ op, data })]: what the call does, and whether an exception
    leaves it. *)
Variable callback : Message value -> list E * bool.

(** The [try]/[catch] of [decode] on [state.full + raw].  The call of the
    callback stands inside the [try]: an exception that leaves it is caught
    as one of [JSON.parse] is. *)
Definition parse_step (st : State) (o : option Z) (raw : jsstring) : State * list E :=
  match parse (full st ++ raw) with
  | Some data =>
      let r := callback {| msg_op := o; msg_data := data |} in
      if r.2 then ({| full := full st ++ raw; op := op st |}, r.1)
      else ({| full := []; op := None |}, r.1)
  | None => ({| full := full st ++ raw; op := op st |}, [])
  end.

(** The body of [decode] for one packet that [socket.read()] returned. *)
Definition decode_packet (st : State) (packet : Buffer.t) : State * list E + State :=
  match full st with
  | [] =>
      match readInt32LE packet 0 with
      | None => inr st
      | Some o =>
          let st := {| full := full st; op := Some o |} in
          match readInt32LE packet 4 with
          | None => inr st
          | Some len =>
              inl (parse_step st (Some o) (toString (slice packet 8 (len + 8))))
          end
      end
  | _ :: _ => inl (parse_step st (op st) (toString packet))
  end.

(** [decode(socket, callback)].  The socket is the list of the packets that
    the successive calls of [socket.read()] return before [null]. *)
Fixpoint decode (st : State) (socket : list Buffer.t) : outcome E :=
  match socket with
  | [] => Returned st []
  | packet :: socket =>
      match decode_packet st packet with
      | inr st => Threw st []
      | inl (st, effects) => called effects (decode st socket)
      end
  end.

(** The ['readable'] handler run once per chunk: each run calls [decode],
    whose first [read] returns the chunk and whose second returns [null].
    An exception that leaves [decode] leaves the handler. *)
Fixpoint readable (st : State) (chunks : list Buffer.t) : outcome E :=
  match chunks with
  | [] => Returned st []
  | chunk :: chunks =>
      match decode st [chunk] with
      | Returned st effects => called effects (readable st chunks)
      | Threw st effects => Threw st effects
      end
  end.

End Decoder.

(** *** The callback of [IPCTransport] *)

(** What the transport does to the outside. *)
Inductive effect :=
| Write (packet : Buffer.t)   (* [this.socket.write(packet)] *)
| Probe                       (* [findEndpoint()] is called *)
| EmitMessage (data : value)  (* [this.emit('message', data)] *)
| EmitClose (data : value).   (* [this.emit('close', data)] *)

(** [!data] *)
Variable falsy : value -> bool.

(** [data.cmd === 'AUTHORIZE' && data.evt !== 'ERROR'], for [data] that is
    not falsy. *)
Variable authorize : value -> bool.

(** An exception leaves the listeners that [this.emit] runs. *)
Variable listener_throws : effect -> bool.

(** The callback that the ['readable'] handler gives to [decode].  In the
    case of [PING] an exception of [encode] leaves [send], before
    anything is written. *)
Definition on_frame (m : Message value) : list effect * bool :=
  match msg_op m with
  | Some o =>
      if o =? PING then
        match encode PONG (msg_data m) with
        | Some packet => ([Write packet], false)
        | None => ([], true)
        end
      else if o =? FRAME then
        if falsy (msg_data m) then ([], false)
        else ((if authorize (msg_data m) then [Probe] else [])
              ++ [EmitMessage (msg_data m)],
              listener_throws (EmitMessage (msg_data m)))
      else if o =? CLOSE then
        ([EmitClose (msg_data m)], listener_throws (EmitClose (msg_data m)))
      else ([], false)
  | None => ([], false)
  end.

(** The ['readable'] handler of the transport on a run of chunks. *)
Definition receive (st : State) (chunks : list Buffer.t) : outcome effect :=
  readable effect on_frame st chunks.

End Runtime.

Arguments encode {value} stringify utf8 op data.
Arguments parse_step {value} parse {E} callback st o raw.
Arguments decode_packet {value} parse toString {E} callback st packet.
Arguments decode {value} parse toString {E} callback st socket.
Arguments readable {value} parse toString {E} callback st chunks.
Arguments Write {value}.
Arguments Probe {value}.
Arguments EmitMessage {value}.
Arguments EmitClose {value}.
Arguments on_frame {value} stringify utf8 falsy authorize listener_throws m.
Arguments receive {value} stringify parse utf8 toString falsy authorize listener_throws st chunks.

(** The header of a frame: two words of four bytes. *)
Definition header (h : Buffer.t) (o len : Z) : Prop :=
  length h = 8%nat /\ readInt32LE h 0 = Some o /\ readInt32LE h 4 = Some len.

End Wire.

(** ** The builtins of the JSON fragment

    Strings of 7-bit code units other than zero, which stand for themselves
    in UTF-8; [JSON.parse] and [JSON.stringify] as in module [JSON]. *)
Module Fragment.
Import JSON Wire.

Definition units (t : text) : jsstring := map N_of_ascii t.

Definition bytes (s : jsstring) : Buffer.t := map ascii_of_N s.

Definition stringify (v : value) : option jsstring := Some (units (JSON.stringify v)).

Definition parse (s : jsstring) : option value :=
  if forallb (fun u => (0 <? u) && (u <? 128))%N s then JSON.parse (bytes s) else None.

Definition utf8 (s : jsstring) : Buffer.t := bytes s.

Definition toString (b : Buffer.t) : jsstring := units b.

Definition falsy (v : value) : bool := negb (Transport.truthy v).

Definition authorize (v : value) : bool :=
  Transport.is_string (lit "AUTHORIZE") (Transport.property (lit "cmd") v)
  && negb (Transport.is_string (lit "ERROR") (Transport.property (lit "evt") v)).

(** Listeners that do not throw. *)
Definition quiet (e : effect value) : bool := false.

(** A ['message'] listener that throws, as [_onRpcMessage] does on a [READY]
    dispatch without [data]. *)
Definition loud (e : effect value) : bool :=
  match e with EmitMessage _ => true | _ => false end.

(** A callback that records its calls, and one that an exception leaves
    after that. *)
Definition record (m : Message value) : list (Message value) * bool := ([m], false).

Definition throwing (m : Message value) : list (Message value) * bool := ([m], true).

(** The header that [encode] writes: the opcode and the length, each as the
    four bytes of [writeInt32LE]. *)
Definition header_of (o len : Z) : Buffer.t :=
  [Buffer.byte_of o 0; Buffer.byte_of o 1; Buffer.byte_of o 2; Buffer.byte_of o 3;
   Buffer.byte_of len 0; Buffer.byte_of len 1; Buffer.byte_of len 2;
   Buffer.byte_of len 3].

End Fragment.
(** * Facts

    ** JSON: [parse] inverts [stringify] *)

(** Case analysis over the 256 characters. *)
Ltac each_char c := destruct c as [[] [] [] [] [] [] [] []].

Section JSONFacts.
Import JSON.

Lemma strip_prefix_app p r : strip_prefix p (p ++ r) = Some r.
Proof.
  induction p as [|a p IH]; simpl; [reflexivity|].
  now rewrite Ascii.eqb_refl.
Qed.

Lemma parse_chars_escape c s :
  parse_chars (escape_char c ++ s) =
  match parse_chars s with Some (str, r1) => Some (c :: str, r1) | None => None end.
Proof.
  each_char c; reflexivity.
Qed.

Lemma parse_chars_quote s r :
  parse_chars (flat_map escape_char s ++ dquote :: r) = Some (s, r).
Proof.
  induction s as [|c s IH]; [reflexivity|].
  cbn [flat_map]. rewrite <- app_assoc, parse_chars_escape, IH. reflexivity.
Qed.


Lemma scan_digits_digits u r :
  no_digit_head r -> scan_digits (digits u ++ r) = (u, r).
Proof.
  intros Hr. induction u; cbn [digits app]; 
    try (cbn [scan_digits digit_of]; change (scan_digits (digits u ++ r)) with (scan_digits (digits u ++ r)); 
         simpl; rewrite IHu; reflexivity).
  destruct r as [|c r]; [reflexivity|].
  cbn in Hr. unfold is_digit in Hr. cbn [scan_digits]. destruct (digit_of c); [discriminate|reflexivity].
Qed.


Lemma to_uint_head p :
  Pos.to_uint p <> Decimal.Nil /\ forall d, Pos.to_uint p <> Decimal.D0 d.
Proof.
  split; [apply DecimalPos.Unsigned.to_uint_nonnil|].
  intros d Hd.
  pose proof (DecimalPos.Unsigned.to_of (Pos.to_uint p)) as H.
  rewrite DecimalPos.Unsigned.of_to in H. cbn [N.to_uint] in H.
  unfold Decimal.unorm in H.
  destruct (Decimal.nzhead (Pos.to_uint p)) eqn:E;
    try (rewrite H in Hd; discriminate Hd).
  - now apply (DecimalPos.Unsigned.to_uint_nonzero p).
  - exact (nzhead_nonzero _ _ E).
Qed.

Lemma digits_head u :
  u <> Decimal.Nil ->
  exists c t, digits u = c :: t /\ is_digit c = true.
Proof.
  destruct u; [congruence| ..]; intros _; eexists _, _; (split; [reflexivity|reflexivity]).
Qed.

Lemma is_digit_not_minus c : is_digit c = true -> (c =? "-")%char = false.
Proof. each_char c; try reflexivity; discriminate. Qed.

Lemma parse_number_pos p r :
  no_digit_head r ->
  parse_number (digits (Pos.to_uint p) ++ r) = Some (Z.pos p, r).
Proof.
  intros Hr. destruct (to_uint_head p) as [Hnil Hz].
  destruct (digits_head _ Hnil) as (c & t & Hd & Hc).
  unfold parse_number. rewrite Hd. cbn [app].
  rewrite (is_digit_not_minus _ Hc).
  change (c :: t ++ r) with ((c :: t) ++ r). rewrite <- Hd.
  rewrite (scan_digits_digits _ _ Hr).
  assert (Hv : Z.of_int (Decimal.Pos (Pos.to_uint p)) = Z.pos p).
  { change (Decimal.Pos (Pos.to_uint p)) with (Z.to_int (Z.pos p)).
    apply DecimalZ.of_to. }
  destruct (Pos.to_uint p) eqn:E; try congruence; try (rewrite <- Hv; reflexivity).
Qed.

Lemma parse_number_neg p r :
  no_digit_head r ->
  parse_number ("-"%char :: digits (Pos.to_uint p) ++ r) = Some (Z.neg p, r).
Proof.
  intros Hr. destruct (to_uint_head p) as [Hnil Hz].
  unfold parse_number. cbv beta iota.
  change (("-" =? "-")%char) with true. cbv iota.
  rewrite (scan_digits_digits _ _ Hr).
  assert (Hv : Z.of_int (Decimal.Neg (Pos.to_uint p)) = Z.neg p).
  { change (Decimal.Neg (Pos.to_uint p)) with (Z.to_int (Z.neg p)).
    apply DecimalZ.of_to. }
  destruct (Pos.to_uint p) eqn:E; try congruence; try (rewrite <- Hv; reflexivity).
Qed.

Lemma parse_number_print z r :
  no_digit_head r -> parse_number (print_number z ++ r) = Some (z, r).
Proof.
  intros Hr. destruct z as [|p|p]; unfold print_number; cbn [Z.to_int].
  - cbn [digits app]. unfold parse_number.
    cbv beta iota. change (("0" =? "-")%char) with false. cbv iota.
    change ("0"%char :: r) with (digits (Decimal.D0 Decimal.Nil) ++ r).
    now rewrite (scan_digits_digits _ _ Hr).
  - now apply parse_number_pos.
  - now apply parse_number_neg.
Qed.


Lemma print_number_head z :
  exists c t, print_number z = c :: t /\ is_num_start c = true.
Proof.
  destruct z as [|p|p]; unfold print_number; cbn [Z.to_int].
  - eexists _, _. split; reflexivity.
  - destruct (to_uint_head p) as [Hnil _].
    destruct (digits_head _ Hnil) as (c & t & Hd & Hc).
    exists c, t. split; [exact Hd|]. unfold is_num_start. rewrite Hc. apply orb_true_r.
  - eexists _, _. split; reflexivity.
Qed.


Lemma num_start_dispatch c :
  is_num_start c = true ->
  is_ws c = false /\ (c =? "[")%char = false /\ (c =? "{")%char = false /\
  (c =? dquote)%char = false /\ (c =? "n")%char = false /\
  (c =? "t")%char = false /\ (c =? "f")%char = false.
Proof. each_char c; intros H; try discriminate H; repeat split. Qed.

Lemma stringify_arr x l :
  stringify (JArr (x :: l)) = "["%char :: stringify x ++ more_items l ++ ["]"%char].
Proof.
  reflexivity.
Qed.

Lemma stringify_obj k x l :
  stringify (JObj ((k, x) :: l)) =
  "{"%char :: quote k ++ ":"%char :: stringify x ++ more_members l ++ ["}"%char].
Proof.
  reflexivity.
Qed.


(** The first character of a printed value is not white space. *)
Lemma stringify_head v :
  exists c t, stringify v = c :: t /\ is_ws c = false /\
              (c =? "]")%char = false /\ (c =? "}")%char = false.
Proof.
  destruct v as [|[]|z|s|[|x l]|[|[k x] l]];
    try (eexists _, _; repeat split; reflexivity).
  destruct (print_number_head z) as (c & t & Hz & Hc).
  exists c, t. split; [exact Hz|]. revert Hc. clear.
  each_char c; intros H; try discriminate H; repeat split.
Qed.

Lemma skip_ws_stringify v r : skip_ws (stringify v ++ r) = stringify v ++ r.
Proof.
  destruct (stringify_head v) as (c & t & -> & Hc & _).
  cbn [app skip_ws]. now rewrite Hc.
Qed.

Lemma size_arr x l : size (JArr (x :: l)) = S (S (size x + items_size l)).
Proof. reflexivity. Qed.

Lemma size_obj k x l : size (JObj ((k, x) :: l)) = S (S (S (size x) + members_size l)).
Proof. reflexivity. Qed.

Lemma items_size_cons x l : items_size (x :: l) = S (size x + items_size l).
Proof. reflexivity. Qed.

Lemma members_size_cons k x l :
  members_size ((k, x) :: l) = S (S (size x) + members_size l).
Proof. reflexivity. Qed.

Lemma quote_cons k r : quote k ++ r = dquote :: flat_map escape_char k ++ dquote :: r.
Proof. unfold quote. cbn [app]. now rewrite <- app_assoc. Qed.

Lemma obj_text_assoc (q sx mm r : text) :
  (q ++ ":"%char :: sx ++ mm ++ ["}"%char]) ++ r = q ++ ":"%char :: sx ++ mm ++ "}"%char :: r.
Proof. rewrite <- app_assoc. cbn [app]. now rewrite <- !app_assoc. Qed.

Lemma parse_value_fuel f :
  (forall v r, (size v <= f)%nat -> no_digit_head r ->
     parse_value f (stringify v ++ r) = Some (v, r)) /\
  (forall l r, (S (items_size l) <= f)%nat ->
     parse_items f (more_items l ++ "]"%char :: r) = Some (l, r)) /\
  (forall k v r, (S (size v) <= f)%nat -> no_digit_head r ->
     parse_member f (quote k ++ ":"%char :: stringify v ++ r) = Some ((k, v), r)) /\
  (forall l r, (S (members_size l) <= f)%nat ->
     parse_members f (more_members l ++ "}"%char :: r) = Some (l, r)).
Proof.
  induction f as [|f (IHv & IHi & IHm & IHms)].
  { repeat split; intros; try lia. destruct v; cbn in *; lia. }
  repeat split.
  - (* parse_value *)
    intros v r Hsz Hr. cbn [parse_value]. rewrite skip_ws_stringify.
    destruct v as [|[]|z|s|[|x l]|[|[k x] l]].
    + reflexivity.
    + reflexivity.
    + reflexivity.
    + cbn [stringify].
      destruct (print_number_head z) as (c & t & Hz & Hc).
      destruct (num_start_dispatch _ Hc) as (_ & H1 & H2 & H3 & H4 & H5 & H6).
      rewrite Hz. cbn [app]. rewrite H1, H2, H3, H4, H5, H6.
      change (c :: t ++ r) with ((c :: t) ++ r). rewrite <- Hz.
      now rewrite parse_number_print.
    + cbn [stringify]. unfold quote. cbn [app].
      change ((dquote =? "[")%char) with false. change ((dquote =? "{")%char) with false.
      rewrite Ascii.eqb_refl. cbv iota.
      rewrite <- app_assoc. cbn [app]. now rewrite parse_chars_quote.
    + reflexivity.
    + rewrite stringify_arr. cbn [app]. change (("[" =? "[")%char) with true. cbv iota.
      rewrite <- !app_assoc. rewrite skip_ws_stringify.
      destruct (stringify_head x) as (c & t & Hx & _ & Hc & _).
      rewrite Hx at 1. cbn [app]. rewrite Hc.
      rewrite size_arr in Hsz.
      assert (Hnd : no_digit_head (more_items l ++ "]"%char :: r)).
      { destruct l; cbn; reflexivity. }
      rewrite (IHv x _ ltac:(lia) Hnd).
      rewrite (IHi l r ltac:(lia)). reflexivity.
    + reflexivity.
    + rewrite stringify_obj. cbn [app].
      change (("{" =? "[")%char) with false. change (("{" =? "{")%char) with true. cbv iota.
      rewrite obj_text_assoc. rewrite (quote_cons k) at 1.
      cbn [skip_ws]. change (is_ws dquote) with false.
      change ((dquote =? "}")%char) with false. cbv iota.
      rewrite size_obj in Hsz.
      assert (Hnd : no_digit_head (more_members l ++ "}"%char :: r)).
      { destruct l as [|[] ?]; cbn; reflexivity. }
      rewrite (IHm k x _ ltac:(lia) Hnd).
      rewrite (IHms l r ltac:(lia)). reflexivity.
  - (* parse_items *)
    intros l r Hsz. cbn [parse_items]. destruct l as [|y l]; [reflexivity|].
    cbn [more_items app skip_ws]. change (is_ws ",") with false.
    change (("," =? "]")%char) with false. change (("," =? ",")%char) with true. cbv iota.
    rewrite items_size_cons in Hsz. rewrite <- app_assoc.
    assert (Hnd : no_digit_head (more_items l ++ "]"%char :: r)).
    { destruct l; cbn; reflexivity. }
    rewrite (IHv y _ ltac:(lia) Hnd).
    rewrite (IHi l r ltac:(lia)). reflexivity.
  - (* parse_member *)
    intros k v r Hsz Hr. cbn [parse_member]. rewrite quote_cons. cbn [skip_ws].
    change (is_ws dquote) with false. cbv iota.
    rewrite Ascii.eqb_refl.
    rewrite parse_chars_quote. cbn [skip_ws]. change (is_ws ":") with false.
    change ((":" =? ":")%char) with true. cbv iota.
    now rewrite (IHv v r ltac:(lia) Hr).
  - (* parse_members *)
    intros l r Hsz. cbn [parse_members]. destruct l as [|[k y] l]; [reflexivity|].
    cbn [more_members app skip_ws]. change (is_ws ",") with false.
    change (("," =? "}")%char) with false. change (("," =? ",")%char) with true. cbv iota.
    rewrite members_size_cons in Hsz. rewrite <- !app_assoc. cbn [app]. rewrite <- !app_assoc.
    assert (Hnd : no_digit_head (more_members l ++ "}"%char :: r)).
    { destruct l as [|[] ?]; cbn; reflexivity. }
    rewrite (IHm k y _ ltac:(lia) Hnd).
    rewrite (IHms l r ltac:(lia)). reflexivity.
Qed.


Lemma length_quote k : (2 <= length (quote k))%nat.
Proof. unfold quote. cbn [length]. rewrite length_app. cbn. lia. Qed.

Lemma size_le_length : forall v, (size v <= length (stringify v))%nat.
Proof.
  fix IH 1. intros [|b|z|s|l|l].
  - cbn. lia.
  - destruct b; cbn; lia.
  - destruct (print_number_head z) as (c & t & Hz & _). cbn [size stringify].
    rewrite Hz. cbn. lia.
  - cbn [size stringify]. pose proof (length_quote s). lia.
  - destruct l as [|x l]; [cbn; lia|]. rewrite size_arr, stringify_arr.
    assert (H : (items_size l <= length (more_items l))%nat).
    { induction l as [|y l IHl]; [cbn; lia|].
      rewrite items_size_cons. cbn [more_items length]. rewrite length_app.
      specialize (IH y). lia. }
    specialize (IH x). cbn [length]. rewrite !length_app. cbn [length]. lia.
  - destruct l as [|[k x] l]; [cbn; lia|]. rewrite size_obj, stringify_obj.
    assert (H : (members_size l <= length (more_members l))%nat).
    { induction l as [|[k' y] l IHl]; [cbn; lia|].
      rewrite members_size_cons. cbn [more_members length]. rewrite length_app.
      cbn [length]. rewrite length_app.
      specialize (IH y). pose proof (length_quote k'). lia. }
    specialize (IH x). pose proof (length_quote k).
    cbn [length]. rewrite !length_app. cbn [length]. rewrite !length_app. cbn [length]. lia.
Qed.

(** [JSON.parse] inverts [JSON.stringify]. *)
Lemma parse_stringify v : parse (stringify v) = Some v.
Proof.
  unfold parse.
  destruct (parse_value_fuel (S (length (stringify v)))) as (Hv & _).
  specialize (Hv v [] ltac:(pose proof (size_le_length v); lia) I).
  rewrite app_nil_r in Hv. rewrite Hv. reflexivity.
Qed.

End JSONFacts.
(** ** Buffer and the frame codec *)
Section BufferFacts.
Import Buffer.

Lemma byte_val_byte_of z k : 0 <= k -> byte_val (byte_of z k) = (z / 2 ^ (8 * k)) mod 256.
Proof.
  intros Hk. unfold byte_val, byte_of.
  change 255 with (Z.ones 8). rewrite Z.land_ones by lia.
  rewrite Z.shiftr_div_pow2 by lia.
  rewrite N_ascii_embedding.
  - rewrite Z2N.id; [reflexivity|]. apply Z.mod_pos_bound. lia.
  - assert (0 <= (z / 2 ^ (8 * k)) mod 2 ^ 8 < 256) by (apply Z.mod_pos_bound; lia).
    lia.
Qed.

Lemma int32_bytes z :
  - 2 ^ 31 <= z < 2 ^ 31 ->
  let u := z mod 256 + (z / 2 ^ 8) mod 256 * 2 ^ 8 + (z / 2 ^ 16) mod 256 * 2 ^ 16
           + (z / 2 ^ 24) mod 256 * 2 ^ 24 in
  (if u <? 2 ^ 31 then u else u - 2 ^ 32) = z.
Proof.
  intros Hz u. subst u.
  change (2 ^ 16) with (2 ^ 8 * 2 ^ 8). change (2 ^ 24) with (2 ^ 8 * 2 ^ 8 * 2 ^ 8).
  rewrite <- !Z.div_div by lia.
  change (2 ^ 8) with 256 in *. change (2 ^ 31) with 2147483648 in *.
  change (2 ^ 32) with 4294967296.
  destruct (Z.ltb_spec (z mod 256 + z / 256 mod 256 * 256 + z / 256 / 256 mod 256 * (256 * 256) +
   z / 256 / 256 / 256 mod 256 * (256 * 256 * 256)) 2147483648) as [H|H];
  revert H; Z.div_mod_to_equations; lia.
Qed.

Lemma read_write_Int32LE z rest :
  - 2 ^ 31 <= z < 2 ^ 31 ->
  exists h, writeInt32LE z = Some h /\ length h = 4%nat /\
            readInt32LE (h ++ rest) 0 = Some z.
Proof.
  intros Hz. unfold writeInt32LE.
  destruct (Z.leb_spec (- 2 ^ 31) z); [|lia].
  destruct (Z.ltb_spec z (2 ^ 31)); [|lia].
  cbn [andb]. eexists. split; [reflexivity|]. split; [reflexivity|].
  unfold readInt32LE. cbn [skipn app].
  rewrite !byte_val_byte_of by lia.
  change (8 * 0) with 0. change (8 * 1) with 8. change (8 * 2) with 16. change (8 * 3) with 24.
  rewrite Z.pow_0_r, Z.div_1_r. f_equal. now apply int32_bytes.
Qed.


Lemma readInt32LE_skip h b :
  length h = 4%nat -> readInt32LE (h ++ b) 4 = readInt32LE b 0.
Proof.
  intros Hh. unfold readInt32LE.
  now rewrite (drop_app_length' h b 4), drop_0.
Qed.

Lemma slice_body hdr body len :
  length hdr = 8%nat -> 0 <= len ->
  slice (hdr ++ body) 8 (len + 8) = firstn (Z.to_nat len) body.
Proof.
  intros Hh Hlen. unfold slice, adjustOffset.
  rewrite length_app, Hh.
  destruct (Z.ltb_spec 8 0); [lia|].
  destruct (Z.ltb_spec (len + 8) 0); [lia|].
  rewrite Z.min_l by lia.
  destruct (Z.ltb_spec 8 (Z.min (len + 8) (Z.of_nat (8 + length body)))) as [H1|H1].
  - rewrite (drop_app_length' hdr body) by (rewrite Hh; reflexivity).
    destruct (Z.le_ge_cases (len + 8) (Z.of_nat (8 + length body))).
    + rewrite Z.min_l by lia. f_equal. lia.
    + rewrite Z.min_r by lia. rewrite !take_ge by lia. reflexivity.
  - destruct (Z.le_ge_cases (len + 8) (Z.of_nat (8 + length body))).
    + rewrite Z.min_l in H1 by lia. replace len with 0 by lia. reflexivity.
    + rewrite Z.min_r in H1 by lia. destruct body; [|cbn [length] in H1; lia].
      now rewrite take_nil.
Qed.

End BufferFacts.

Section IPCFacts.
Import Buffer IPC.

Lemma stringify_nonempty v : JSON.stringify v <> [].
Proof.
  destruct (stringify_head v) as (c & t & H & _). rewrite H. discriminate.
Qed.

(** The shape of an encoded frame: two four-byte words, then the text. *)
Lemma encode_shape o P :
  - 2 ^ 31 <= o < 2 ^ 31 ->
  byteLength (JSON.stringify P) < 2 ^ 31 ->
  exists h1 h2,
    encode o P = Some (h1 ++ h2 ++ JSON.stringify P) /\
    length h1 = 4%nat /\ length h2 = 4%nat /\
    (forall rest, readInt32LE (h1 ++ h2 ++ rest) 0 = Some o) /\
    (forall rest, readInt32LE (h1 ++ h2 ++ rest) 4
                  = Some (byteLength (JSON.stringify P))).
Proof.
  intros Ho Hlen.
  assert (Hl : - 2 ^ 31 <= byteLength (JSON.stringify P) < 2 ^ 31).
  { unfold byteLength in *. lia. }
  destruct (read_write_Int32LE o [] Ho) as (h1 & Hw1 & Hl1 & _).
  destruct (read_write_Int32LE _ [] Hl) as (h2 & Hw2 & Hl2 & _).
  exists h1, h2. unfold encode. rewrite Hw1, Hw2.
  split; [|split; [exact Hl1|split; [exact Hl2|split]]].
  - do 3 f_equal. apply take_ge. unfold byteLength. lia.
  - intros rest. destruct (read_write_Int32LE o (h2 ++ rest) Ho) as (h & Hw & _ & Hr).
    congruence.
  - intros rest. rewrite readInt32LE_skip by exact Hl1.
    destruct (read_write_Int32LE _ rest Hl) as (h & Hw & _ & Hr). congruence.
Qed.

(** The first packet of a frame, in a state with nothing pending: the header
    is read and the part of the body that the length covers is parsed. *)
Lemma decode_packet_header h1 h2 body o len st :
  full st = [] -> length h1 = 4%nat -> length h2 = 4%nat -> 0 <= len ->
  readInt32LE (h1 ++ h2 ++ body) 0 = Some o ->
  readInt32LE (h1 ++ h2 ++ body) 4 = Some len ->
  decode_packet st (h1 ++ h2 ++ body) =
  inl (parse_step {| full := []; op := Some o |} (Some o) (take (Z.to_nat len) body)).
Proof.
  intros Hf Hl1 Hl2 Hlen Hr0 Hr4. unfold decode_packet.
  rewrite Hf, Hr0, Hr4. unfold toString.
  rewrite (app_assoc h1 h2 body), slice_body; [reflexivity| |exact Hlen].
  rewrite length_app. lia.
Qed.

Lemma readable_decode st chunks : readable st chunks = decode st chunks.
Proof.
  revert st. induction chunks as [|c cs IH]; intros st; [reflexivity|].
  cbn [readable decode]. destruct (decode_packet st c) as [[st' calls]|st']; [|reflexivity].
  cbn [called]. rewrite app_nil_r. now rewrite IH.
Qed.

End IPCFacts.
Section IPCTheorems.
Import Buffer IPC Samples.

(** Claim C1 at its failing input.  The frame of [encode(1, 12)], ten bytes,
    reaches the decoder in two chunks.  Split after the fourth byte, inside
    the header, the read of the second word throws; split after the eighth
    byte, the chunk of the payload is read as a header and throws; split
    after the ninth byte, inside the payload, the callback gets [(1, 1)]
    and the last byte is read as a header and throws.  In no case does the
    callback get [(1, 12)]; given whole, the frame is decoded as [(1, 12)]. *)
Lemma decode_split_counterexample :
  exists packet,
    encode 1 (JSON.JNum 12) = Some packet /\
    concat [take 4 packet; drop 4 packet] = packet /\
    readable initial [take 4 packet; drop 4 packet]
    = Threw {| full := []; op := Some 1 |} [] /\
    readable initial [take 8 packet; drop 8 packet]
    = Threw {| full := []; op := Some 1 |} [] /\
    readable initial [take 9 packet; drop 9 packet]
    = Threw initial [{| msg_op := Some 1; msg_data := JSON.JNum 1 |}] /\
    readable initial [packet]
    = Returned initial [{| msg_op := Some 1; msg_data := JSON.JNum 12 |}].
Proof.
  eexists. split; [vm_compute; reflexivity|]. repeat split; vm_compute; reflexivity.
Qed.

(** Claim C2 at its failing input.  The frames of [encode(1, 1)] and
    [encode(3, 2)] delivered by one [read]: the callback is called once, for
    the first frame; the bytes of the second frame are dropped. *)
Theorem decode_two_frames_one_read :
  exists p1 p2,
    encode OPCodes.FRAME (JSON.JNum 1) = Some p1 /\
    encode OPCodes.PING (JSON.JNum 2) = Some p2 /\
    decode initial [p1 ++ p2]
    = Returned initial [{| msg_op := Some OPCodes.FRAME; msg_data := JSON.JNum 1 |}].
Proof.
  eexists _, _. split; [vm_compute; reflexivity|].
  split; [vm_compute; reflexivity|]. vm_compute. reflexivity.
Qed.

(** Claim C8 at its failing input.  When the instances 0 to 9 all refuse and
    instance 10 listens, [connect] tries eleven instances, 0 to 10, and ends
    connected to instance 10, on which it writes the handshake frame. *)
Theorem connect_reaches_instance_10 :
  exists frame,
    connect only_instance_10 (JSON.lit "1234")
    = ([0; 1; 2; 3; 4; 5; 6; 7; 8; 9; 10]%nat, inl (10%nat, Some frame)) /\
    decode initial [frame]
    = Returned initial [{| msg_op := Some OPCodes.HANDSHAKE;
                           msg_data := handshake (JSON.lit "1234") |}].
Proof.
  eexists. split; [vm_compute; reflexivity|]. vm_compute. reflexivity.
Qed.

End IPCTheorems.
Set Warnings "-clear-no-such-hyp".

(** ** ResponseCache *)
Section CacheFacts.
Import ResponseCache.
Context {V : Type}.

(** Claim C6, as amended.  After [set(K, V)] at time [t0] the entry of [K] holds
    [V] with the fresh expiry [t0 + ttl], whatever was stored before; a
    [get(K)] at a time [t <= t0 + ttl] returns [V] and leaves the cache as it
    is; a [get(K)] at a time [t > t0 + ttl] returns the miss [null] and
    removes the entry.  The entry is still served at the very time of its
    expiry, since the test is [Date.now() > item.expires]. *)
Theorem cache_get_after_set (c : t V) (k : string) (v : V) (t0 t : Z) :
  let c' := set t0 k v c in
  cache c' !! k = Some {| value := v; expires := t0 + ttl c |} /\
  (t <= t0 + ttl c -> get t k c' = (Some v, c')) /\
  (t0 + ttl c < t ->
   get t k c' = (None, {| cache := delete k (cache c'); ttl := ttl c |})) /\
  get (t0 + ttl c) k c' = (Some v, c').
Proof.
  cbn zeta. unfold get, set. cbn [cache ttl].
  rewrite lookup_insert_eq. split; [reflexivity|]. cbn [expires value].
  split; [|split]; try intros Ht.
  - destruct (Z.gtb_spec t (t0 + ttl c)); [lia|reflexivity].
  - destruct (Z.gtb_spec t (t0 + ttl c)); [reflexivity|lia].
  - destruct (Z.gtb_spec (t0 + ttl c) (t0 + ttl c)); [lia|reflexivity].
Qed.

(** X11. What [get] does on any cache.  It returns a value exactly
    when the key has an entry that has not expired, and then that entry's
    value, leaving the cache as it is; after a miss the key has no entry; and
    in every case the entries of the other keys and the time to live are as
    before. *)
Theorem cache_get_sound (c : t V) (k : string) (t : Z) :
  let r := (get t k c).1 in
  let c' := (get t k c).2 in
  (forall v, r = Some v <->
             exists e, cache c !! k = Some {| value := v; expires := e |} /\ t <= e) /\
  (is_Some r -> c' = c) /\
  (r = None -> cache c' !! k = None) /\
  (forall k', k' <> k -> cache c' !! k' = cache c !! k') /\
  ttl c' = ttl c.
Proof.
  cbn zeta. unfold get.
  destruct (cache c !! k) as [[v0 e0]|] eqn:Hk; cbn [expires value].
  - destruct (Z.gtb_spec t e0) as [Hgt|Hle]; cbn [fst snd cache ttl].
    + split; [|split; [|split; [|split]]]; try reflexivity.
      * intros v. split; [discriminate|]. intros (e & He & Hte).
        injection He as _ <-. lia.
      * intros [? ?]. discriminate.
      * intros _. apply lookup_delete_eq.
      * intros k' Hne. now apply lookup_delete_ne.
    + split; [|split; [|split; [|split]]]; try reflexivity; try discriminate.
      intros v. split.
      * intros [= <-]. eauto.
      * intros (e & [= <- <-] & _). reflexivity.
  - cbn [fst snd]. split; [|split; [|split; [|split]]]; try reflexivity.
    + intros v. split; [discriminate|]. intros (e & He & _). discriminate.
    + intros _. exact Hk.
Qed.

(** X12. A second [set] of a key replaces the entry, value
    and expiry: the cache is the one that the second [set] alone would have
    given; and a [set] changes nothing for the other keys. *)
Theorem cache_set_overwrites (c : t V) (k : string) (v0 v1 : V) (t0 t1 : Z) :
  set t1 k v1 (set t0 k v0 c) = set t1 k v1 c /\
  (forall k', k' <> k -> cache (set t1 k v1 c) !! k' = cache c !! k') /\
  (forall k' t, k' <> k -> (get t k' (set t1 k v1 c)).1 = (get t k' c).1).
Proof.
  unfold set, get. cbn [cache ttl]. split; [|split].
  - now rewrite insert_insert_eq.
  - intros k' Hne. now apply lookup_insert_ne.
  - intros k' t Hne. rewrite lookup_insert_ne by auto.
    destruct (cache c !! k') as [it|]; [|reflexivity].
    now destruct (t >? expires it).
Qed.

(** X10. After [clear()] every key misses, at any time, and the
    cache stays empty; a key that was never set misses without any change. *)
Theorem cache_clear_misses (c : t V) (k : string) (t : Z) :
  get t k (clear c) = (None, clear c) /\
  (cache c !! k = None -> get t k c = (None, c)).
Proof.
  unfold get, clear. cbn [cache]. rewrite lookup_empty. split; [reflexivity|].
  now intros ->.
Qed.

End CacheFacts.

(** A read before, at and after the expiry of an entry written at time 100
    with a time to live of 5000. *)
Lemma cache_get_after_set_witness :
  let c := ResponseCache.set 100 "k" 7 (ResponseCache.new 5000) in
  ResponseCache.get 5099 "k" c = (Some 7, c) /\
  ResponseCache.get 5100 "k" c = (Some 7, c) /\
  fst (ResponseCache.get 5101 "k" c) = None.
Proof.
  cbn zeta.
  destruct (cache_get_after_set (ResponseCache.new 5000) "k" 7 100 5099) as (_ & Hhit & _ & Hat).
  destruct (cache_get_after_set (ResponseCache.new 5000) "k" 7 100 5101) as (_ & _ & Hmiss & _).
  split; [|split].
  - apply Hhit. cbn. lia.
  - exact Hat.
  - rewrite Hmiss; [reflexivity|cbn; lia].
Defined.

(** Claim C6 fails as stated: an entry written at time 100 with a time to
    live of 5000 is still served at time 5100, the time of its expiry, and
    stays in the cache; it is dropped at the first read after that time. *)
Lemma cache_served_at_expiry :
  let c := ResponseCache.set 100 "k" 7 (ResponseCache.new 5000) in
  ResponseCache.expires <$> (ResponseCache.cache c !! "k") = Some 5100 /\
  ResponseCache.get 5100 "k" c = (Some 7, c) /\
  (ResponseCache.get 5101 "k" c).1 = None.
Proof. vm_compute. repeat split. Qed.

(** ** RequestQueue *)
Section QueueFacts.
Import RequestQueue.

Lemma known_false i q :
  known i q = false ->
  (i ∉ queue q) /\ (i ∉ woken q) /\ (i ∉ inflight q) /\ (i ∉ started q).
Proof.
  unfold known. rewrite !orb_false_iff, !bool_decide_eq_false. tauto.
Qed.

Lemma step_apart e q : apart q -> apart (step e q).
Proof.
  intros (Hnd & Hq & Hw). destruct e as [i|i|i]; cbn [step].
  - destruct (known i q) eqn:Hk; [done|]. apply known_false in Hk as (H1 & H2 & H3 & _).
    destruct (running q >=? maxConcurrent q); unfold apart; cbn [queue woken inflight enter].
    + split; [|split].
      * apply NoDup_app. repeat split; [done| |apply NoDup_singleton].
        intros x Hx Hx'. apply list_elem_of_singleton in Hx'. now subst.
      * intros j Hj. apply elem_of_app in Hj as [Hj|Hj]; [now apply Hq|].
        apply list_elem_of_singleton in Hj. now subst.
      * exact Hw.
    + split; [done|split].
      * intros j Hj. destruct (Hq j Hj). split; [done|]. set_solver.
      * intros j Hj. specialize (Hw j Hj). set_solver.
  - case_bool_decide as Hi; [|done]. unfold apart; cbn [queue woken inflight enter].
    split; [done|split].
    + intros j Hj. destruct (Hq j Hj). split; [set_solver|]. 
      intros Hin. apply elem_of_union in Hin as [Hin|Hin]; [|done].
      apply elem_of_singleton in Hin. subst. done.
    + intros j Hj. apply elem_of_difference in Hj as [Hj Hne].
      specialize (Hw j Hj). set_solver.
  - case_bool_decide as Hi; [|done].
    destruct (queue q) as [|next rest] eqn:Hqq; unfold apart; cbn [queue woken inflight].
    + split; [apply NoDup_nil_2|split]; [intros j Hj; inversion Hj|].
      intros j Hj. specialize (Hw j Hj). set_solver.
    + apply NoDup_cons in Hnd as [Hn Hnd]. split; [done|split].
      * intros j Hj. destruct (Hq j ltac:(right; done)) as [H1 H2].
        split; [|set_solver]. intros Hin. apply elem_of_union in Hin as [Hin|Hin]; [|done].
        apply elem_of_singleton in Hin. subst. done.
      * intros j Hj. apply elem_of_union in Hj as [Hj|Hj].
        -- apply elem_of_singleton in Hj. subst.
           destruct (Hq next ltac:(left)) as [_ H2]. set_solver.
        -- specialize (Hw j Hj). set_solver.
Qed.

Lemma step_running e q :
  apart q -> running q = Z.of_nat (size (inflight q)) ->
  running (step e q) = Z.of_nat (size (inflight (step e q))).
Proof.
  intros (Hnd & Hq & Hw) Hr. destruct e as [i|i|i]; cbn [step].
  - destruct (known i q) eqn:Hk; [done|]. apply known_false in Hk as (H1 & H2 & H3 & _).
    destruct (running q >=? maxConcurrent q); cbn [running inflight enter]; [done|].
    rewrite size_union by set_solver. rewrite size_singleton. lia.
  - case_bool_decide as Hi; [|done]. cbn [running inflight enter].
    specialize (Hw i Hi). rewrite size_union by set_solver. rewrite size_singleton. lia.
  - case_bool_decide as Hi; [|done].
    assert (Hs : size (inflight q ∖ {[i]}) = (size (inflight q) - 1)%nat).
    { rewrite size_difference by set_solver. now rewrite size_singleton. }
    assert (size (inflight q) <> 0)%nat.
    { apply size_non_empty_iff. set_solver. }
    destruct (queue q); cbn [running inflight]; rewrite Hs; lia.
Qed.

Lemma run_app es es' q : run (es ++ es') q = run es' (run es q).
Proof. unfold run. apply fold_left_app. Qed.

Lemma maxConcurrent_step e q : maxConcurrent (step e q) = maxConcurrent q.
Proof.
  destruct e as [i|i|i]; cbn [step].
  - destruct (known i q); [reflexivity|]. now destruct (_ >=? _).
  - now case_bool_decide.
  - case_bool_decide; [|reflexivity]. now destruct (queue q).
Qed.

Lemma maxConcurrent_run es : forall q, maxConcurrent (run es q) = maxConcurrent q.
Proof.
  induction es as [|e es IH]; intros q; [reflexivity|].
  unfold run in *. cbn [fold_left]. now rewrite IH, maxConcurrent_step.
Qed.

Lemma counted_enter i q done :
  counted q done -> i ∉ started q -> i ∉ queue q ->
  counted (enter i {| queue := queue q; running := running q;
                      maxConcurrent := maxConcurrent q; woken := woken q ∖ {[i]};
                      inflight := inflight q; started := started q |}) done.
Proof.
  intros (Hs & Hd & Hin & Hsub & Hout & Hr) Hi Hq.
  unfold counted. cbn [enter queue running woken inflight started].
  split; [|split; [exact Hd|split; [|split; [|split]]]].
  - apply NoDup_app. repeat split; [exact Hs| |apply NoDup_singleton].
    intros x Hx Hx'. apply list_elem_of_singleton in Hx'. now subst.
  - intros j. rewrite elem_of_union, elem_of_singleton, elem_of_app, list_elem_of_singleton.
    rewrite Hin. split.
    + intros [->|[H1 H2]]; [|tauto]. split; [now right|]. intros Hj. now apply Hi, Hsub.
    + intros [[H1| ->] H2]; [right; tauto|now left].
  - intros j Hj. apply elem_of_app. left. now apply Hsub.
  - intros j Hj Hj'. apply elem_of_app in Hj' as [Hj'|Hj'].
    + apply (Hout j); [|exact Hj']. destruct Hj as [Hj|Hj]; [now left|].
      right. now apply elem_of_difference in Hj as [Hj _].
    + apply list_elem_of_singleton in Hj'. subst j. destruct Hj as [Hj|Hj]; [done|].
      apply elem_of_difference in Hj as [_ Hj]. apply Hj. now apply elem_of_singleton.
  - rewrite length_app. cbn [length]. lia.
Qed.

Lemma counted_step e q done :
  apart q -> counted q done ->
  counted (step e q)
    match e with
    | Finish i =>
        if bool_decide (i ∈ started q) && negb (bool_decide (i ∈ done))
        then done ++ [i] else done
    | _ => done
    end.
Proof.
  intros (Hnd & Hq & Hw) Hc. destruct e as [i|i|i]; cbn [step].
  - destruct (known i q) eqn:Hk; [exact Hc|].
    apply known_false in Hk as (H1 & H2 & H3 & H4).
    destruct (running q >=? maxConcurrent q).
    + destruct Hc as (Hs & Hd & Hin & Hsub & Hout & Hr).
      unfold counted. cbn [queue running woken inflight started].
      split; [exact Hs|]. split; [exact Hd|]. split; [exact Hin|].
      split; [exact Hsub|]. split; [|exact Hr].
      intros j [Hj|Hj]; [|apply Hout; now right].
      apply elem_of_app in Hj as [Hj|Hj]; [apply Hout; now left|].
      apply list_elem_of_singleton in Hj. now subst.
    + assert (E : enter i q
                  = enter i {| queue := queue q; running := running q;
                               maxConcurrent := maxConcurrent q;
                               woken := woken q ∖ {[i]};
                               inflight := inflight q; started := started q |}).
      { unfold enter. cbn [queue running maxConcurrent woken inflight started].
        f_equal. apply leibniz_equiv. set_solver. }
      rewrite E. now apply counted_enter.
  - case_bool_decide as Hi; [|exact Hc]. apply counted_enter; [exact Hc| |].
    + destruct Hc as (_ & _ & _ & _ & Hout & _). apply Hout. now right.
    + intros Hj. now destruct (Hq i Hj).
  - destruct Hc as (Hs & Hd & Hin & Hsub & Hout & Hr).
    case_bool_decide as Hi.
    + apply Hin in Hi as Hi'. destruct Hi' as [Hi1 Hi2].
      rewrite (bool_decide_eq_true_2 _ Hi1), (bool_decide_eq_false_2 _ Hi2). cbn [andb negb].
      assert (G : forall q', started q' = started q -> inflight q' = inflight q ∖ {[i]} ->
                  running q' = running q - 1 ->
                  (forall j, j ∈ queue q' \/ j ∈ woken q' -> j ∈ queue q \/ j ∈ woken q) ->
                  counted q' (done ++ [i])).
      { intros q' E1 E2 E3 E4. unfold counted. rewrite E1, E2, E3.
        split; [exact Hs|]. split; [|split; [|split; [|split]]].
        - apply NoDup_app. repeat split; [exact Hd| |apply NoDup_singleton].
          intros x Hx Hx'. apply list_elem_of_singleton in Hx'. now subst.
        - intros j. rewrite elem_of_difference, elem_of_singleton, elem_of_app,
            list_elem_of_singleton, Hin. tauto.
        - intros j Hj. apply elem_of_app in Hj as [Hj|Hj]; [now apply Hsub|].
          apply list_elem_of_singleton in Hj. now subst.
        - intros j Hj. apply Hout. now apply E4.
        - rewrite length_app. cbn [length]. lia. }
      destruct (queue q) as [|next rest] eqn:Hqq; apply G; try reflexivity.
      * intros j [Hj|Hj]; [inversion Hj|now right].
      * cbn [queue woken]. intros j [Hj|Hj]; [left; now right|].
        apply elem_of_union in Hj as [Hj|Hj]; [|now right].
        apply elem_of_singleton in Hj. subst. left. now left.
    + assert (E : bool_decide (i ∈ started q) && negb (bool_decide (i ∈ done)) = false).
      { destruct (bool_decide (i ∈ started q)) eqn:B1; [|reflexivity].
        destruct (bool_decide (i ∈ done)) eqn:B2; [reflexivity|].
        apply bool_decide_eq_true in B1. apply bool_decide_eq_false in B2.
        exfalso. apply Hi, Hin. now split. }
      rewrite E. unfold counted. auto 10.
Qed.

Lemma counted_run es : forall q done,
  apart q -> counted q done -> counted (run es q) (settled es q done).
Proof.
  induction es as [|e es IH]; intros q done Ha Hc; [exact Hc|].
  unfold run. cbn [fold_left settled]. apply IH; [now apply step_apart|].
  now apply counted_step.
Qed.

Lemma queue_invariant (es : list event) (m : Z) :
  let q := run es (new m) in
  running q = Z.of_nat (size (inflight q)) /\ 0 <= running q /\ apart q /\
  maxConcurrent q = m.
Proof.
  cbn zeta.
  assert (H : apart (run es (new m)) /\
              running (run es (new m)) = Z.of_nat (size (inflight (run es (new m))))).
  { unfold run. rewrite <- fold_left_rev_right.
    induction (rev es) as [|e l [IH1 IH2]]; cbn [fold_right].
    - split; [|reflexivity]. unfold apart, new; cbn.
      split; [apply NoDup_nil_2|]. split; intros i Hi; [inversion Hi|set_solver].
    - split; [now apply step_apart|now apply step_running]. }
  destruct H as [H1 H2]. rewrite H2, maxConcurrent_run.
  split; [reflexivity|]. split; [lia|]. split; [exact H1|reflexivity].
Qed.

(** X13. Whatever calls are added, resumed and finished, in
    whatever order, the counter [running] is the number of the calls whose
    [fn] was invoked less the number of those whose [fn] has settled, by
    fulfilment or by rejection: a call raises the counter once, when it
    enters, and lowers it once, when its [fn] settles.  The calls that
    settled are read off the events, the calls that entered off the
    invocations of [fn]; no call enters twice, and the counter is never
    negative. *)
Theorem queue_counter_exact (es : list event) (m : Z) :
  let q := run es (new m) in
  let done := settled es (new m) [] in
  running q = Z.of_nat (length (started q)) - Z.of_nat (length done) /\
  0 <= running q /\
  NoDup (started q) /\ NoDup done /\
  (forall i, i ∈ done -> i ∈ started q) /\
  (forall i, i ∈ inflight q <-> i ∈ started q /\ i ∉ done) /\
  apart q /\
  maxConcurrent q = m.
Proof.
  cbn zeta.
  destruct (queue_invariant es m) as (H2 & H0 & H1 & Hm). cbn zeta in H2, H0, H1, Hm.
  destruct (counted_run es (new m) []) as (Hs & Hd & Hin & Hsub & _ & Hr).
  { exact (proj1 (proj2 (proj2 (queue_invariant [] m)))). }
  { unfold counted, new; cbn.
    split; [apply NoDup_nil_2|]. split; [apply NoDup_nil_2|].
    split; [intros i; split; [set_solver|intros [Hi _]; inversion Hi]|].
    split; [intros i Hi; inversion Hi|]. split; [|reflexivity].
    intros i _ Hi. inversion Hi. }
  split; [exact Hr|]. split; [exact H0|].
  split; [exact Hs|]. split; [exact Hd|]. split; [exact Hsub|]. split; [exact Hin|].
  split; [exact H1|exact Hm].
Qed.

Lemma queue_step_fifo e q : queue q ++ waits e q = wakes e q ++ queue (step e q).
Proof.
  destruct e as [i|i|i]; cbn [step waits wakes].
  - destruct (known i q); [now rewrite app_nil_r|].
    destruct (_ >=? _); cbn [queue enter app]; [reflexivity|now rewrite app_nil_r].
  - rewrite app_nil_r. now case_bool_decide.
  - rewrite app_nil_r. case_bool_decide; [|reflexivity]. now destruct (queue q).
Qed.

Lemma queue_run_fifo es : forall q,
  queue q ++ waited es q = woke es q ++ queue (run es q).
Proof.
  induction es as [|e es IH]; intros q; cbn [waited woke].
  - now rewrite app_nil_r.
  - unfold run. cbn [fold_left]. fold (run es (step e q)).
    rewrite app_assoc, queue_step_fifo, <- !app_assoc. f_equal. apply IH.
Qed.


Lemma prompt_bound es : forall q,
  running q + Z.of_nat (size (woken q)) <= maxConcurrent q ->
  apart q -> prompt es q ->
  running (run es q) + Z.of_nat (size (woken (run es q))) <= maxConcurrent q.
Proof.
  induction es as [|e es IH]; intros q Hb Ha Hp; [exact Hb|].
  destruct Hp as [He Hp]. unfold run. cbn [fold_left]. fold (run es (step e q)).
  rewrite <- (maxConcurrent_step e q). apply IH; [|now apply step_apart|exact Hp].
  rewrite maxConcurrent_step. clear IH Hp.
  destruct Ha as (Hnd & Hq & Hw).
  destruct e as [i|i|i]; cbn [step].
  - destruct (known i q); [exact Hb|].
    destruct (Z.geb_spec (running q) (maxConcurrent q)); cbn [running woken enter]; [exact Hb|].
    rewrite He in *. rewrite size_empty in *. lia.
  - case_bool_decide as Hi; [|exact Hb]. cbn [running woken enter].
    assert (size (woken q ∖ {[i]}) = (size (woken q) - 1)%nat).
    { rewrite size_difference by set_solver. now rewrite size_singleton. }
    assert (size (woken q) <> 0)%nat by (apply size_non_empty_iff; set_solver).
    lia.
  - case_bool_decide as Hi; [|exact Hb].
    destruct (queue q) as [|next rest] eqn:Hqq; cbn [running woken]; [lia|].
    destruct (Hq next) as [Hn _]; [rewrite ?Hqq; left|].
    rewrite size_union by set_solver. rewrite size_singleton. lia.
Qed.

(** X15. The bound holds on the runs in which the continuation
    of a woken call runs before any other [add]: then, for a capacity that is
    not negative, the calls in flight together with the calls woken are never
    more than [maxConcurrent]. *)
Theorem queue_bounded_when_prompt (es : list event) (m : Z) :
  0 <= m -> prompt es (new m) ->
  let q := run es (new m) in
  running q <= m /\ Z.of_nat (size (inflight q)) <= m.
Proof.
  intros Hm Hp. cbn zeta.
  pose proof (prompt_bound es (new m)) as H. cbn [new running woken maxConcurrent] in H.
  rewrite size_empty in H. specialize (H ltac:(lia)).
  destruct (queue_invariant [] m) as (_ & _ & Ha & _).
  specialize (H Ha Hp).
  destruct (queue_invariant es m) as (Hr & _).
  rewrite <- Hr. lia.
Qed.

Lemma starved_step e q :
  maxConcurrent q <= 0 -> running q = 0 -> woken q = ∅ -> inflight q = ∅ ->
  started q = [] ->
  let q' := step e q in
  maxConcurrent q' <= 0 /\ running q' = 0 /\ woken q' = ∅ /\ inflight q' = ∅ /\
  started q' = [].
Proof.
  intros Hm Hr Hw Hi Hs. cbn zeta. destruct e as [i|i|i]; cbn [step].
  - destruct (known i q); [auto|].
    destruct (Z.geb_spec (running q) (maxConcurrent q)); [|lia].
    cbn [maxConcurrent running woken inflight started]. auto.
  - case_bool_decide as Hx; [rewrite Hw in Hx; set_solver|auto].
  - case_bool_decide as Hx; [rewrite Hi in Hx; set_solver|auto].
Qed.

(** X17. A queue whose capacity is zero or negative never starts
    a call: every [add] waits, and since no call is in flight no call ever
    ends and wakes another.  ([new RequestQueue(0)] does not fall back to the
    default of 5, which replaces [undefined] only.) *)
Theorem queue_zero_capacity_starves (es : list event) (m : Z) :
  m <= 0 ->
  let q := run es (new m) in
  started q = [] /\ running q = 0 /\ inflight q = ∅ /\
  queue q = waited es (new m).
Proof.
  intros Hm. cbn zeta.
  assert (H : forall es q,
            maxConcurrent q <= 0 -> running q = 0 -> woken q = ∅ -> inflight q = ∅ ->
            started q = [] ->
            started (run es q) = [] /\ running (run es q) = 0 /\
            inflight (run es q) = ∅ /\ woke es q = []).
  { clear. induction es as [|e es IH]; intros q Hm Hr Hw Hi Hs; [auto|].
    unfold run. cbn [fold_left woke]. fold (run es (step e q)).
    destruct (starved_step e q Hm Hr Hw Hi Hs) as (H1 & H2 & H3 & H4 & H5).
    destruct (IH _ H1 H2 H3 H4 H5) as (G1 & G2 & G3 & G4).
    repeat split; auto. rewrite G4, app_nil_r.
    destruct e as [i|i|i]; cbn [wakes]; try reflexivity.
    case_bool_decide as Hx; [rewrite Hi in Hx; set_solver|reflexivity]. }
  destruct (H es (new m) Hm eq_refl eq_refl eq_refl eq_refl) as (G1 & G2 & G3 & G4).
  repeat split; auto.
  pose proof (queue_run_fifo es (new m)) as F. cbn [new queue app] in F.
  now rewrite F, G4.
Qed.

(** The first [n] calls of a queue of capacity [k >= n] all enter. *)
Lemma fill_below n (k : nat) :
  (n <= k)%nat ->
  let q := run (map Add (seq 0 n)) (new (Z.of_nat k)) in
  queue q = [] /\ running q = Z.of_nat n /\ woken q = ∅ /\
  started q = seq 0 n /\ (forall i, i ∈ inflight q <-> (i < n)%nat).
Proof.
  cbn zeta. induction n as [|n IH]; intros Hn.
  - cbn. repeat split; auto; [set_solver|lia].
  - destruct (IH ltac:(lia)) as (Hq & Hr & Hw & Hs & Hi). clear IH.
    rewrite seq_S, map_app, run_app. cbn [map Nat.add].
    pose proof (maxConcurrent_run (map Add (seq 0 n)) (new (Z.of_nat k))) as Hm.
    cbn [new maxConcurrent] in Hm.
    revert Hq Hr Hw Hs Hi Hm. generalize (run (map Add (seq 0 n)) (new (Z.of_nat k))).
    intros q Hq Hr Hw Hs Hi Hm. unfold run. cbn [fold_left step].
    assert (Hk : known n q = false).
    { unfold known. rewrite Hq, Hw, Hs.
      rewrite !bool_decide_eq_false_2; [reflexivity|..].
      - rewrite list_elem_of_In, in_seq. lia.
      - rewrite Hi. lia.
      - set_solver.
      - apply not_elem_of_nil. }
    rewrite Hk. destruct (Z.geb_spec (running q) (maxConcurrent q)); [lia|].
    cbn [enter queue running woken started inflight]. rewrite Hq, Hr, Hw, Hs.
    repeat split; auto; [lia| |].
    + intros Hin. apply elem_of_union in Hin as [Hin|Hin].
      * apply elem_of_singleton in Hin. lia.
      * apply Hi in Hin. lia.
    + intros Hlt. destruct (decide (i = n)) as [->|Hne]; [set_solver|].
      apply elem_of_union_r, Hi. lia.
Qed.

Lemma step_Add_wait i q :
  known i q = false -> maxConcurrent q <= running q ->
  let q' := step (Add i) q in
  queue q' = queue q ++ [i] /\ running q' = running q /\
  maxConcurrent q' = maxConcurrent q /\ woken q' = woken q /\
  inflight q' = inflight q /\ started q' = started q.
Proof.
  intros Hk Hr. cbn [step]. rewrite Hk.
  destruct (Z.geb_spec (running q) (maxConcurrent q)); [|lia]. cbn. auto 10.
Qed.

Lemma step_Add_enter i q :
  known i q = false -> running q < maxConcurrent q ->
  let q' := step (Add i) q in
  queue q' = queue q /\ running q' = running q + 1 /\
  maxConcurrent q' = maxConcurrent q /\ woken q' = woken q /\
  inflight q' = {[i]} ∪ inflight q /\ started q' = started q ++ [i].
Proof.
  intros Hk Hr. cbn [step]. rewrite Hk.
  destruct (Z.geb_spec (running q) (maxConcurrent q)); [lia|]. cbn. auto 10.
Qed.

Lemma step_Finish_wake i q next rest :
  i ∈ inflight q -> queue q = next :: rest ->
  let q' := step (Finish i) q in
  queue q' = rest /\ running q' = running q - 1 /\
  maxConcurrent q' = maxConcurrent q /\ woken q' = {[next]} ∪ woken q /\
  inflight q' = inflight q ∖ {[i]} /\ started q' = started q.
Proof.
  intros Hi Hq. cbn [step]. rewrite bool_decide_eq_true_2 by exact Hi. rewrite Hq.
  cbn. auto 10.
Qed.

Lemma step_Resume i q :
  i ∈ woken q ->
  let q' := step (Resume i) q in
  queue q' = queue q /\ running q' = running q + 1 /\
  maxConcurrent q' = maxConcurrent q /\ woken q' = woken q ∖ {[i]} /\
  inflight q' = {[i]} ∪ inflight q /\ started q' = started q ++ [i].
Proof.
  intros Hi. cbn [step]. rewrite bool_decide_eq_true_2 by exact Hi. cbn. auto 10.
Qed.

(** X16. The bound is not kept on every run.  For every
    capacity [k >= 1]: calls [0 .. k-1] enter and call [k] waits; call [0]
    ends, which lowers the counter and wakes call [k]; call [k+1] is added
    before call [k] resumes, finds the counter under the bound and enters;
    then call [k] resumes and enters without testing the bound again.  Now
    [k + 1] calls are in flight. *)
Theorem queue_overfill (k : nat) :
  (1 <= k)%nat ->
  let q := run (overfill k) (new (Z.of_nat k)) in
  maxConcurrent q = Z.of_nat k /\ running q = Z.of_nat k + 1 /\
  size (inflight q) = S k /\ k ∈ inflight q /\ S k ∈ inflight q.
Proof.
  intros Hk. cbn zeta.
  destruct (queue_invariant (overfill k) (Z.of_nat k)) as (Hcount & _ & _ & Hmax).
  assert (G : running (run (overfill k) (new (Z.of_nat k))) = Z.of_nat k + 1 /\
              k ∈ inflight (run (overfill k) (new (Z.of_nat k))) /\
              S k ∈ inflight (run (overfill k) (new (Z.of_nat k)))).
  { clear Hcount Hmax. unfold overfill.
    rewrite seq_S, map_app, !run_app. cbn [map Nat.add].
    destruct (fill_below k k (le_n k)) as (Hq & Hr & Hw & Hs & Hi).
    pose proof (maxConcurrent_run (map Add (seq 0 k)) (new (Z.of_nat k))) as Hm.
    cbn [new maxConcurrent] in Hm.
    revert Hq Hr Hw Hs Hi Hm. generalize (run (map Add (seq 0 k)) (new (Z.of_nat k))).
    intros q Hq Hr Hw Hs Hi Hm.
    change (run [Add k] q) with (step (Add k) q).
    change (run [Finish 0; Add (S k); Resume k]%nat (step (Add k) q))
      with (step (Resume k) (step (Add (S k)) (step (Finish 0%nat) (step (Add k) q)))).
    (* call [k] waits *)
    destruct (step_Add_wait k q) as (Hq1 & Hr1 & Hm1 & Hw1 & Hi1 & Hs1); [|lia|].
    { unfold known. rewrite Hq, Hw, Hs.
      rewrite !bool_decide_eq_false_2; [reflexivity|..].
      - rewrite list_elem_of_In, in_seq. lia.
      - rewrite Hi. lia.
      - set_solver.
      - apply not_elem_of_nil. }
    revert Hq1 Hr1 Hm1 Hw1 Hi1 Hs1. generalize (step (Add k) q).
    intros q1 Hq1 Hr1 Hm1 Hw1 Hi1 Hs1. rewrite Hq in Hq1. cbn [app] in Hq1.
    (* call 0 ends *)
    destruct (step_Finish_wake 0%nat q1 k [])
      as (Hq2 & Hr2 & Hm2 & Hw2 & Hi2 & Hs2); [rewrite Hi1; apply Hi; lia|exact Hq1|].
    revert Hq2 Hr2 Hm2 Hw2 Hi2 Hs2. generalize (step (Finish 0%nat) q1).
    intros q2 Hq2 Hr2 Hm2 Hw2 Hi2 Hs2.
    (* call [k+1] is added *)
    destruct (step_Add_enter (S k) q2) as (Hq3 & Hr3 & Hm3 & Hw3 & Hi3 & Hs3); [|lia|].
    { unfold known. rewrite Hq2, Hw2, Hi2, Hs2, Hw1, Hi1, Hs1, Hw, Hs.
      rewrite !bool_decide_eq_false_2; [reflexivity|..].
      - rewrite list_elem_of_In, in_seq. lia.
      - intros Hin. apply elem_of_difference in Hin as [Hin _]. apply Hi in Hin. lia.
      - intros Hin. apply elem_of_union in Hin as [Hin|Hin];
          [apply elem_of_singleton in Hin; lia|set_solver].
      - apply not_elem_of_nil. }
    revert Hq3 Hr3 Hm3 Hw3 Hi3 Hs3. generalize (step (Add (S k)) q2).
    intros q3 Hq3 Hr3 Hm3 Hw3 Hi3 Hs3.
    (* call [k] resumes *)
    destruct (step_Resume k q3) as (Hq4 & Hr4 & Hm4 & Hw4 & Hi4 & Hs4).
    { rewrite Hw3, Hw2. set_solver. }
    rewrite Hr4, Hi4, Hi3. split; [lia|]. split; set_solver. }
  destruct G as (Gr & Gk & Gs). rewrite Gr in Hcount.
  split; [exact Hmax|]. split; [exact Gr|]. split; [lia|]. split; [exact Gk|exact Gs].
Qed.

End QueueFacts.

Section QueueWitnesses.
Import RequestQueue.

(** Capacity 1: two calls are in flight. *)
Lemma queue_overfill_witness :
  let q := run [Add 0; Add 1; Finish 0; Add 2; Resume 1]%nat (new 1) in
  running q = 2 /\ started q = [0; 2; 1]%nat.
Proof.
  cbn zeta. split; [|vm_compute; reflexivity].
  exact (proj1 (proj2 (queue_overfill 1 (le_n 1)))).
Defined.

(** Capacity 2, three calls, the third resumed as soon as it is woken. *)
Lemma queue_bounded_when_prompt_witness :
  let q := run [Add 0; Add 1; Add 2; Finish 0; Resume 2; Add 3]%nat (new 2) in
  running q <= 2 /\ queue q = [3%nat].
Proof.
  cbn zeta. split; [|vm_compute; reflexivity].
  refine (proj1 (queue_bounded_when_prompt
                   [Add 0; Add 1; Add 2; Finish 0; Resume 2; Add 3]%nat 2 _ _)).
  - lia.
  - cbn [prompt]. repeat split; vm_compute; reflexivity.
Defined.

(** [new RequestQueue(0)]: three calls are added and none starts. *)
Lemma queue_zero_capacity_starves_witness :
  let q := run [Add 0; Add 1; Finish 0; Add 2]%nat (new 0) in
  started q = [] /\ queue q = [0; 1; 2]%nat.
Proof.
  cbn zeta.
  destruct (queue_zero_capacity_starves [Add 0; Add 1; Finish 0; Add 2]%nat 0 (Z.le_refl 0))
    as (Hs & _ & _ & Hq).
  split; [exact Hs|]. rewrite Hq. vm_compute. reflexivity.
Defined.

(** Claim C4 at its failing input.  A queue of capacity 2: calls 0 and 1
    enter, calls 2 and 3 wait.  Calls 0 and 1 end in the same turn, as when
    the loss of the connection rejects every pending request: each lowers
    the counter and wakes one of the waiting calls.  Call 2 resumes; then
    call 4 is added, by what the caller of call 0 does when its promise is
    settled, before call 3 resumes: the counter is 1, under the bound, and
    call 4 enters.  Then call 3 resumes and enters without testing the bound.
    Three calls are in flight at once, and call 4 started before call 3,
    which waited. *)
Theorem queue_exceeds_capacity :
  let es := [Add 0; Add 1; Add 2; Add 3; Finish 0; Finish 1;
             Resume 2; Add 4; Resume 3]%nat in
  let q := run es (new 2) in
  maxConcurrent q = 2 /\ running q = 3 /\
  started q = [0; 1; 2; 4; 3]%nat /\ settled es (new 2) [] = [0; 1]%nat /\
  waited es (new 2) = [2; 3]%nat /\ woke es (new 2) = [2; 3]%nat /\
  bool_decide (2%nat ∈ inflight q) && bool_decide (3%nat ∈ inflight q)
  && bool_decide (4%nat ∈ inflight q) = true.
Proof. vm_compute. repeat split. Qed.

End QueueWitnesses.
(** ** RpcClient: the memoized promise of [connect] *)

(** Projections of the field updates and of the runtime primitives. *)
Ltac prj :=
  cbn [RpcClient.options RpcClient.clientId RpcClient.user RpcClient.socket
       RpcClient.set_socket
       RpcClient.reconnectAttempts RpcClient.isReconnecting
       RpcClient._expecting RpcClient._connectPromise RpcClient.promises
       RpcClient.timers RpcClient.nextTimer RpcClient.onConnected
       RpcClient.onClose RpcClient.awaiting RpcClient.jobs RpcClient.trace
       RpcClient.set_clientId RpcClient.set_user
       RpcClient.set_reconnectAttempts RpcClient.set_isReconnecting
       RpcClient.set_expecting RpcClient.set_connectPromise
       RpcClient.set_promises RpcClient.set_timers RpcClient.set_onConnected
       RpcClient.set_onClose RpcClient.set_awaiting RpcClient.set_jobs
       RpcClient.set_trace RpcClient.log RpcClient.new_promise
       RpcClient.clearTimeout RpcClient.setTimeout RpcClient.wake fst snd] in *.

Section MemoFacts.
Import RpcClient Observe.
Variable k : Constants.

Lemma connects_app tr tr' : connects (tr ++ tr') = (connects tr + connects tr')%nat.
Proof. unfold connects. now rewrite List.filter_app, length_app. Qed.

Lemma keeps_refl c : keeps c c.
Proof. repeat split; auto. Qed.

Lemma keeps_trans c1 c2 c3 : keeps c1 c2 -> keeps c2 c3 -> keeps c1 c3.
Proof.
  intros (H1 & H2 & H3) (H1' & H2' & H3'). repeat split; try congruence.
  intros p s Hp Hs. apply H3'; [|exact Hs]. now apply H3.
Qed.

Lemma keeps_fold {A} (f : Client -> A -> Client) l :
  (forall c x, keeps c (f c x)) -> forall c, keeps c (fold_left f l c).
Proof.
  intros Hf. induction l as [|x l IH]; intros c; [apply keeps_refl|].
  cbn [fold_left]. eapply keeps_trans; [apply Hf|apply IH].
Qed.

(** An update that leaves the three fields alone. *)
Lemma keeps_same c c' :
  _connectPromise c' = _connectPromise c -> trace c' = trace c ->
  promises c' = promises c -> keeps c c'.
Proof. intros H1 H2 H3. unfold keeps. rewrite H1, H2, H3. repeat split; auto. Qed.

Lemma keeps_log e c : e <> TransportConnect -> keeps c (log e c).
Proof.
  intros He. repeat split; prj; auto. rewrite connects_app.
  destruct e; try congruence; cbn; lia.
Qed.

Lemma keeps_settle p s c : keeps c (settle p s c).
Proof.
  unfold settle. destruct (promises c !! p) as [[| |]|] eqn:Hp; try apply keeps_refl.
  repeat split; prj; auto.
  - rewrite connects_app. cbn. lia.
  - intros q s' Hq Hs'. destruct (decide (q = p)) as [->|Hne]; [congruence|].
    now rewrite list_lookup_insert_ne.
Qed.

Lemma keeps_clearTimeout t c : keeps c (clearTimeout t c).
Proof. now apply keeps_same. Qed.

Lemma keeps_setTimeout now a d c : keeps c (setTimeout now a d c).2.
Proof.
  repeat split; prj; auto. rewrite connects_app. cbn. lia.
Qed.

Lemma keeps_entry_settle e s c : keeps c (entry_settle e s c).
Proof.
  unfold entry_settle. eapply keeps_trans; [apply keeps_clearTimeout|apply keeps_settle].
Qed.

Lemma keeps_new_promise c : keeps c (new_promise c).2.
Proof.
  repeat split; prj; auto. intros p s Hp _. now apply lookup_app_l_Some.
Qed.

(** [request] up to the call of [transport.send]. *)
Lemma request_unfold now cmd args evt token c :
  (request now cmd args evt token c).2
  = let p := length (promises c) in
    let c1 := set_expecting
                (map_set token {| promise := p; timeout := nextTimer c |} (_expecting c))
                (setTimeout now (RequestTimeout token p) (requestTimeout (options c))
                   (new_promise c).2).2 in
    match args with
    | Plain a =>
        if socket c then log (TransportSend cmd a evt token) c1
        else settle p (Rejected SendFailure) c1
    | Unserializable => settle p (Rejected SendFailure) c1
    end.
Proof. unfold request. prj. destruct args; [destruct (socket c)|]; reflexivity. Qed.

Lemma keeps_request now cmd args evt token c :
  keeps c (request now cmd args evt token c).2.
Proof.
  rewrite request_unfold. cbn zeta.
  match goal with |- context [settle _ _ ?x] => set (c1 := x) end.
  assert (H1 : keeps c c1).
  { unfold c1, keeps. prj. repeat split.
    - rewrite !connects_app. cbn. lia.
    - intros p s Hp _. now apply lookup_app_l_Some. }
  clearbody c1.
  destruct args as [a|]; [destruct (socket c)|].
  - eapply keeps_trans; [exact H1|apply keeps_log; discriminate].
  - eapply keeps_trans; [exact H1|apply keeps_settle].
  - eapply keeps_trans; [exact H1|apply keeps_settle].
Qed.

Lemma keeps_tryReconnect now id c : keeps c (_tryReconnect now id c).
Proof.
  unfold _tryReconnect. destruct (_ >=? _); [apply keeps_log; discriminate|].
  unfold keeps. prj. repeat split; auto.
  rewrite !connects_app. cbn. lia.
Qed.

Lemma keeps_run_job now j c : keeps c (run_job now j c).
Proof.
  unfold run_job. destruct (job_fulfilled j); [|apply keeps_tryReconnect].
  eapply keeps_trans; [|apply keeps_log; discriminate]. now apply keeps_same.
Qed.

Lemma keeps_drain now c : keeps c (drain now c).
Proof.
  unfold drain. eapply (keeps_trans _ (set_jobs [] c)); [now apply keeps_same|].
  apply keeps_fold. intros. apply keeps_run_job.
Qed.

Lemma keeps_connected_listener h c : keeps c (connected_listener h c).
Proof.
  unfold connected_listener.
  eapply keeps_trans; [|apply keeps_settle]. now apply keeps_same.
Qed.

Lemma keeps_close_listener now ev h c : keeps c (close_listener now ev h c).
Proof.
  unfold close_listener.
  eapply keeps_trans; [|apply keeps_settle].
  match goal with |- keeps _ (if ?b then _ else _) => destruct b end.
  - eapply keeps_trans; [|apply keeps_tryReconnect].
    eapply keeps_trans; [|apply keeps_log; discriminate].
    apply keeps_fold. intros. apply keeps_entry_settle.
  - eapply keeps_trans; [|apply keeps_log; discriminate].
    apply keeps_fold. intros. apply keeps_entry_settle.
Qed.

Lemma keeps_close_listener_null now h c : keeps c (close_listener_null now h c).
Proof.
  unfold close_listener_null. destruct (_expecting c); [|apply keeps_log; discriminate].
  eapply keeps_trans; [|apply keeps_log; discriminate].
  match goal with |- keeps _ (if ?b then _ else _) => destruct b end.
  - eapply keeps_trans; [|apply keeps_tryReconnect]. apply keeps_log; discriminate.
  - apply keeps_log; discriminate.
Qed.

Lemma keeps_emit_close now ev c : keeps c (emit_close now ev c).
Proof.
  unfold emit_close. destruct ev as [ev|].
  - eapply (keeps_trans _ (set_onClose [] c)); [now apply keeps_same|].
    apply keeps_fold. intros. apply keeps_close_listener.
  - destruct (onClose c) as [|h rest]; [apply keeps_refl|].
    eapply (keeps_trans _ (set_onClose rest c)); [now apply keeps_same|].
    apply keeps_close_listener_null.
Qed.

Lemma keeps_emit_connected c : keeps c (emit_connected c).
Proof.
  unfold emit_connected.
  eapply (keeps_trans _ (set_onConnected [] c)); [now apply keeps_same|].
  apply keeps_fold. intros. apply keeps_connected_listener.
Qed.

Lemma keeps_emit_event evt d c : keeps c (emit_event evt d c).
Proof.
  unfold emit_event. destruct (bool_decide _).
  - apply (keeps_trans _ (log (EmitEvent evt d) c));
      [apply keeps_log; discriminate|apply keeps_emit_connected].
  - destruct (bool_decide _); [|apply keeps_log; discriminate].
    apply (keeps_trans _ (log (EmitEvent evt d) c)); apply keeps_log; discriminate.
Qed.

Lemma keeps_onRpcMessage m c : keeps c (_onRpcMessage k m c).
Proof.
  unfold _onRpcMessage.
  destruct (_ && _).
  - destruct (data_user (data m)) as [u|]; [|apply keeps_log; discriminate].
    match goal with |- keeps _ (fold_left _ _ ?x) =>
      eapply (keeps_trans _ x); [|apply keeps_fold; intros; apply keeps_connected_listener] end.
    eapply (keeps_trans _ (log EmitConnected (match u with Some u0 => set_user (Some u0) c | None => c end))).
    + eapply keeps_trans; [|apply keeps_log; discriminate].
      destruct u; [now apply keeps_same|apply keeps_refl].
    + now apply keeps_same.
  - destruct (nonce m) as [n|]; [|apply keeps_emit_event].
    destruct (map_get n (_expecting c)) as [e|]; [|apply keeps_emit_event].
    destruct (bool_decide _).
    + destruct (data m) as [[]|]; try (apply keeps_log; discriminate);
        (eapply keeps_trans; [apply keeps_entry_settle|now apply keeps_same]).
    + eapply keeps_trans; [apply keeps_entry_settle|now apply keeps_same].
Qed.

Lemma keeps_fire now a c : is_reconnect a = false -> keeps c (fire now a c).
Proof.
  destruct a as [p|token p|id]; [| |discriminate]; intros _; cbn [fire].
  - apply keeps_settle.
  - eapply keeps_trans; [|apply keeps_settle]. now apply keeps_same.
Qed.

Lemma keeps_connect now id c p :
  _connectPromise c = Some p -> connect now id c = (p, c).
Proof. intros H. unfold connect. now rewrite H. Qed.

(** One macrotask that does not resume [_tryReconnect] keeps the memoized
    promise, makes no call of [transport.connect()], and leaves the settled
    promises as they were. *)
Lemma keeps_step e c :
  is_Some (_connectPromise c) -> resumes c e = false -> keeps c (step k e c).
Proof.
  intros [p Hp] Hres. unfold step.
  eapply keeps_trans; [|apply keeps_drain].
  destruct e as [now [id|cmd args evt token|t|m|ev|q err|]]; cbn [handle fst snd].
  - rewrite (keeps_connect _ _ _ _ Hp). apply keeps_refl.
  - apply keeps_request.
  - unfold resumes in Hres. cbn [fst snd] in Hres.
    destruct (timers c !! t) as [tm|]; [|apply keeps_refl].
    destruct (due tm <=? now); [|apply keeps_refl].
    rewrite andb_true_r in Hres.
    eapply keeps_trans; [apply keeps_clearTimeout|now apply keeps_fire].
  - apply keeps_onRpcMessage.
  - apply keeps_emit_close.
  - apply keeps_settle.
  - now apply keeps_same.
Qed.

Lemma keeps_run es : forall c,
  is_Some (_connectPromise c) -> no_resume k c es -> keeps c (run k es c).
Proof.
  induction es as [|e es IH]; intros c Hc Hno; [apply keeps_refl|].
  destruct Hno as [He Hno]. cbn [run fold_left].
  pose proof (keeps_step e c Hc He) as Hk.
  eapply keeps_trans; [exact Hk|]. apply IH; [|exact Hno].
  destruct Hk as [-> _]. exact Hc.
Qed.

End MemoFacts.
(** ** RpcClient: a client that does not reconnect *)
Section DormantFacts.
Import RpcClient Observe.
Variable k : Constants.

Lemma dormant_same c c' :
  awaiting c' = awaiting c -> jobs c' = jobs c -> timers c' = timers c ->
  options c' = options c -> isReconnecting c' = isReconnecting c ->
  dormant c -> dormant c'.
Proof. unfold dormant. intros -> -> -> -> ->. auto. Qed.

Lemma dormant_fold {A} (f : Client -> A -> Client) l :
  (forall c x, dormant c -> dormant (f c x)) ->
  forall c, dormant c -> dormant (fold_left f l c).
Proof.
  intros Hf. induction l as [|x l IH]; intros c Hc; [exact Hc|].
  cbn [fold_left]. apply IH. now apply Hf.
Qed.

Lemma dormant_log e c : dormant c -> dormant (log e c).
Proof. now apply dormant_same. Qed.

Lemma dormant_settle p s c : dormant c -> dormant (settle p s c).
Proof.
  intros Hc. unfold settle. destruct (promises c !! p) as [[| |]|]; try exact Hc.
  destruct Hc as (Ha & Hj & Ht & Hg). unfold dormant. prj.
  rewrite Ha, Hj. cbn. auto.
Qed.

Lemma dormant_clearTimeout t c : dormant c -> dormant (clearTimeout t c).
Proof.
  intros (Ha & Hj & Ht & Hg). unfold dormant. prj. repeat split; auto.
  intros t' tm Htm. apply lookup_delete_Some in Htm as [_ Htm]. eauto.
Qed.

Lemma dormant_setTimeout now a d c :
  is_reconnect a = false -> dormant c -> dormant (setTimeout now a d c).2.
Proof.
  intros Hr (Ha & Hj & Ht & Hg). unfold dormant. prj. repeat split; auto.
  intros t' tm Htm. apply lookup_insert_Some in Htm as [[_ <-]|[_ Htm]]; eauto.
Qed.

Lemma dormant_entry_settle e s c : dormant c -> dormant (entry_settle e s c).
Proof. intros Hc. now apply dormant_settle, dormant_clearTimeout. Qed.

Lemma dormant_connect now id c : dormant c -> dormant (connect now id c).2.
Proof.
  intros Hc. unfold connect. destruct (_connectPromise c); [exact Hc|].
  destruct Hc as (Ha & Hj & Ht & Hg). unfold dormant. prj. repeat split; auto.
  intros t' tm Htm. apply lookup_insert_Some in Htm as [[_ <-]|[_ Htm]]; eauto.
Qed.

Lemma dormant_request now cmd args evt token c :
  dormant c -> dormant (request now cmd args evt token c).2.
Proof.
  intros Hc. rewrite request_unfold. cbn zeta.
  match goal with |- context [settle _ _ ?x] => set (c1 := x) end.
  assert (H1 : dormant c1).
  { destruct Hc as (Ha & Hj & Ht & Hg). unfold c1, dormant. prj. repeat split; auto.
    intros t' tm Htm. apply lookup_insert_Some in Htm as [[_ <-]|[_ Htm]]; eauto. }
  clearbody c1.
  destruct args as [a|]; [destruct (socket c)|];
    [now apply dormant_log|now apply dormant_settle..].
Qed.

Lemma dormant_drain now c : dormant c -> drain now c = c.
Proof.
  intros (_ & Hj & _). unfold drain. rewrite Hj. cbn [fold_left].
  destruct c; cbn in *. now subst.
Qed.

Lemma dormant_connected_listener h c : dormant c -> dormant (connected_listener h c).
Proof.
  intros Hc. unfold connected_listener. apply dormant_settle.
  apply (dormant_same (clearTimeout h.1 c)); [reflexivity..|now apply dormant_clearTimeout].
Qed.

Lemma dormant_close_listener now ev h c : dormant c -> dormant (close_listener now ev h c).
Proof.
  intros Hc. unfold close_listener. apply dormant_settle.
  set (c1 := fold_left _ _ c).
  assert (H1 : dormant c1).
  { apply dormant_fold; [|exact Hc]. intros. now apply dormant_entry_settle. }
  assert (H2 : dormant (log EmitDisconnected c1)) by now apply dormant_log.
  destruct H2 as (Ha & Hj & Ht & Hg). prj. rewrite Hg.
  repeat split; auto.
Qed.

Lemma dormant_close_listener_null now h c :
  dormant c -> dormant (close_listener_null now h c).
Proof.
  intros Hc. unfold close_listener_null.
  destruct (_expecting c); [|now apply dormant_log].
  apply dormant_log.
  assert (H2 : dormant (log EmitDisconnected c)) by now apply dormant_log.
  destruct H2 as (Ha & Hj & Ht & Hg). prj. rewrite Hg.
  repeat split; auto.
Qed.

Lemma dormant_emit_close now ev c : dormant c -> dormant (emit_close now ev c).
Proof.
  intros Hc. unfold emit_close. destruct ev as [ev|].
  - apply dormant_fold; [intros; now apply dormant_close_listener|].
    now apply (dormant_same c).
  - destruct (onClose c) as [|h rest]; [exact Hc|].
    apply dormant_close_listener_null. now apply (dormant_same c).
Qed.

Lemma dormant_emit_connected c : dormant c -> dormant (emit_connected c).
Proof.
  intros Hc. unfold emit_connected.
  apply dormant_fold; [intros; now apply dormant_connected_listener|].
  now apply (dormant_same c).
Qed.

Lemma dormant_emit_event evt d c : dormant c -> dormant (emit_event evt d c).
Proof.
  intros Hc. unfold emit_event. destruct (bool_decide _).
  - apply dormant_emit_connected. now apply dormant_log.
  - destruct (bool_decide _); [|now apply dormant_log].
    now apply dormant_log, dormant_log.
Qed.

Lemma dormant_onRpcMessage m c : dormant c -> dormant (_onRpcMessage k m c).
Proof.
  intros Hc. unfold _onRpcMessage. destruct (_ && _).
  - destruct (data_user (data m)) as [u|]; [|now apply dormant_log].
    apply dormant_fold; [intros; now apply dormant_connected_listener|].
    apply (dormant_same (log EmitConnected (match u with Some u0 => set_user (Some u0) c | None => c end)));
      [reflexivity..|].
    apply dormant_log. destruct u; [|exact Hc]. now apply (dormant_same c).
  - destruct (nonce m) as [n|]; [|now apply dormant_emit_event].
    destruct (map_get n (_expecting c)) as [e|]; [|now apply dormant_emit_event].
    destruct (bool_decide _).
    + destruct (data m) as [[]|]; try (now apply dormant_log);
        match goal with |- dormant (set_expecting _ ?x) =>
          apply (dormant_same x); [reflexivity..|now apply dormant_entry_settle] end.
    + match goal with |- dormant (set_expecting _ ?x) =>
        apply (dormant_same x); [reflexivity..|now apply dormant_entry_settle] end.
Qed.

Lemma dormant_resumes e c : dormant c -> resumes c e = false.
Proof.
  intros (_ & _ & Ht & _). unfold resumes. destruct e.2; try reflexivity.
  destruct (timers c !! timer) as [tm|] eqn:Htm; [|reflexivity].
  now rewrite (Ht _ _ Htm).
Qed.

Lemma dormant_step e c : dormant c -> dormant (step k e c).
Proof.
  intros Hc. unfold step.
  assert (H : dormant (handle k e.1 e.2 c)).
  { destruct e as [now [id|cmd args evt token|t|m|ev|q err|]]; cbn [handle fst snd].
    - now apply dormant_connect.
    - now apply dormant_request.
    - destruct (timers c !! t) as [tm|] eqn:Htm; [|exact Hc].
      destruct (due tm <=? now); [|exact Hc].
      pose proof Hc as (_ & _ & Ht & _). specialize (Ht _ _ Htm).
      pose proof (dormant_clearTimeout t c Hc) as Hc'.
      destruct (callback tm) as [p|token p|id]; [| |discriminate]; cbn [fire].
      + now apply dormant_settle.
      + apply dormant_settle. now apply (dormant_same (clearTimeout t c)).
    - now apply dormant_onRpcMessage.
    - now apply dormant_emit_close.
    - now apply dormant_settle.
    - now apply (dormant_same c). }
  now rewrite dormant_drain.
Qed.

Lemma dormant_run es : forall c, dormant c -> dormant (run k es c).
Proof.
  induction es as [|e es IH]; intros c Hc; [exact Hc|].
  cbn [run fold_left]. apply IH. now apply dormant_step.
Qed.

Lemma dormant_no_resume es : forall c, dormant c -> no_resume k c es.
Proof.
  induction es as [|e es IH]; intros c Hc; [exact I|].
  split; [now apply dormant_resumes|]. apply IH. now apply dormant_step.
Qed.

Lemma dormant_new o : autoReconnect o = false -> dormant (new o).
Proof.
  intros Ho. unfold dormant, new. cbn. rewrite Ho. repeat split; auto.
  intros t tm H. now rewrite lookup_empty in H.
Qed.

End DormantFacts.
(** ** RpcClient: settled promises, and what a handler leaves alone *)
Section FrameFacts.
Import RpcClient Observe.
Variable k : Constants.

Lemma stable_refl c : stable c c.
Proof. intros p s H _. exact H. Qed.

Lemma stable_trans c1 c2 c3 : stable c1 c2 -> stable c2 c3 -> stable c1 c3.
Proof. intros H1 H2 p s Hp Hs. apply H2; [|exact Hs]. now apply H1. Qed.

Lemma keeps_stable c c' : keeps c c' -> stable c c'.
Proof. now intros (_ & _ & H). Qed.

Lemma stable_connect now id c : stable c (connect now id c).2.
Proof.
  unfold connect. destruct (_connectPromise c); [apply stable_refl|].
  intros p s Hp _. prj. now apply lookup_app_l_Some.
Qed.

Lemma stable_step e c : stable c (step k e c).
Proof.
  unfold step. eapply stable_trans; [|apply keeps_stable, keeps_drain].
  destruct e as [now [id|cmd args evt token|t|m|ev|q err|]]; cbn [handle fst snd].
  - apply stable_connect.
  - apply keeps_stable, keeps_request.
  - destruct (timers c !! t) as [tm|]; [|apply stable_refl].
    destruct (due tm <=? now); [|apply stable_refl].
    destruct (callback tm) as [p|token p|id] eqn:Hcb.
    + apply keeps_stable. eapply keeps_trans; [apply keeps_clearTimeout|now apply keeps_fire].
    + apply keeps_stable. eapply keeps_trans; [apply keeps_clearTimeout|now apply keeps_fire].
    + cbn [fire]. unfold reconnect_resume.
      intros p s Hp Hs.
      pose proof (stable_connect now id (set_connectPromise None (clearTimeout t c))) as H.
      specialize (H p s Hp Hs). revert H.
      destruct (connect now id _) as [p' c']. prj. auto.
  - apply keeps_stable, keeps_onRpcMessage.
  - apply keeps_stable, keeps_emit_close.
  - apply keeps_stable, keeps_settle.
  - apply keeps_stable. now apply keeps_same.
Qed.

(** A promise that is settled stays as it is, whatever happens next. *)
Lemma stable_run es : forall c, stable c (run k es c).
Proof.
  induction es as [|e es IH]; intros c; [apply stable_refl|].
  cbn [run fold_left]. eapply stable_trans; [apply stable_step|apply IH].
Qed.

(** *** The table of pending requests *)

Lemma expecting_settle p s c : _expecting (settle p s c) = _expecting c.
Proof. unfold settle. now destruct (promises c !! p) as [[| |]|]. Qed.

Lemma expecting_entry_settle e s c : _expecting (entry_settle e s c) = _expecting c.
Proof. unfold entry_settle. now rewrite expecting_settle. Qed.

Lemma expecting_tryReconnect now id c : _expecting (_tryReconnect now id c) = _expecting c.
Proof. unfold _tryReconnect. now destruct (_ >=? _). Qed.

Lemma expecting_fold {A} (f : Client -> A -> Client) l :
  (forall c x, _expecting (f c x) = _expecting c) ->
  forall c, _expecting (fold_left f l c) = _expecting c.
Proof.
  intros Hf. induction l as [|x l IH]; intros c; [reflexivity|].
  cbn [fold_left]. now rewrite IH, Hf.
Qed.

Lemma expecting_drain now c : _expecting (drain now c) = _expecting c.
Proof.
  unfold drain. rewrite expecting_fold; [reflexivity|].
  intros c' j. unfold run_job. destruct (job_fulfilled j); [reflexivity|].
  apply expecting_tryReconnect.
Qed.

Lemma expecting_close_listener now ev h c :
  _expecting (close_listener now ev h c) = _expecting c.
Proof.
  unfold close_listener. rewrite expecting_settle.
  match goal with |- _expecting (if ?b then _ else _) = _ => destruct b end;
    rewrite ?expecting_tryReconnect; prj;
    (rewrite expecting_fold; [reflexivity|]); intros; apply expecting_entry_settle.
Qed.

(** The close handler does not remove any entry of [_expecting]. *)
Lemma close_keeps_expecting now ev c :
  _expecting (step k (now, OnClose (Some ev)) c) = _expecting c.
Proof.
  unfold step. rewrite expecting_drain. cbn [handle fst snd emit_close].
  rewrite expecting_fold; [reflexivity|]. intros. apply expecting_close_listener.
Qed.

Lemma promises_tryReconnect now id c : promises (_tryReconnect now id c) = promises c.
Proof. unfold _tryReconnect. now destruct (_ >=? _). Qed.

Lemma promises_drain now c : promises (drain now c) = promises c.
Proof.
  unfold drain.
  assert (H : forall l c', promises (fold_left (fun c j => run_job now j c) l c') = promises c').
  { induction l as [|j l IH]; intros c'; [reflexivity|]. cbn [fold_left]. rewrite IH.
    unfold run_job. destruct (job_fulfilled j); [reflexivity|apply promises_tryReconnect]. }
  now rewrite H.
Qed.

Lemma jobs_tryReconnect now id c : jobs (_tryReconnect now id c) = jobs c.
Proof. unfold _tryReconnect. now destruct (_ >=? _). Qed.

(** No microtask is left after a macrotask. *)
Lemma jobs_step e c : jobs (step k e c) = [].
Proof.
  unfold step, drain.
  assert (H : forall l c', jobs c' = [] ->
            jobs (fold_left (fun c j => run_job e.1 j c) l c') = []).
  { induction l as [|j l IH]; intros c' Hc'; [exact Hc'|]. cbn [fold_left]. apply IH.
    unfold run_job. destruct (job_fulfilled j); [exact Hc'|].
    now rewrite jobs_tryReconnect. }
  now apply H.
Qed.

End FrameFacts.

Section MemoTheorem.
Import RpcClient Observe Samples.

(** Claim C10.  On a client without a memoized promise, [connect] makes a
    new pending promise, stores it and calls [transport.connect()] once.
    From then on, over every run in which no timer of [_tryReconnect] fires,
    every call of [connect], with any argument, returns that promise and
    leaves the client as it is, so that no other call of
    [transport.connect()] is made; such a timer never exists when no
    reconnection is under way and [autoReconnect] is off; and once the promise
    is rejected it stays rejected, so later calls return the rejected promise.
    The firing of a timer of [_tryReconnect] is what replaces it, by a new
    promise. *)
Theorem connect_memoized (k : Constants) (c : Client) (now : Z) (id : string)
    (es : list (Z * event)) :
  _connectPromise c = None ->
  let p := (connect now id c).1 in
  let c1 := (connect now id c).2 in
  promises c1 !! p = Some Pending /\
  _connectPromise c1 = Some p /\
  connects (trace c1) = S (connects (trace c)) /\
  (no_resume k c1 es ->
   let c' := run k es c1 in
   (forall now' id', connect now' id' c' = (p, c')) /\
   connects (trace c') = connects (trace c1)) /\
  (dormant c -> no_resume k c1 es) /\
  (forall e es', promises (run k es c1) !! p = Some (Rejected e) ->
                 promises (run k es' (run k es c1)) !! p = Some (Rejected e)) /\
  (forall c' t d id' now',
     timers c' !! t = Some {| due := d; callback := ReconnectDelay id' |} ->
     d <= now' ->
     _connectPromise (step k (now', Fire t) c') = Some (length (promises c'))).
Proof.
  intros Hnone. cbn zeta.
  assert (Hc1 : _connectPromise (connect now id c).2 = Some (connect now id c).1).
  { unfold connect. rewrite Hnone. reflexivity. }
  split; [|split; [exact Hc1|split; [|split; [|split; [|split]]]]].
  - unfold connect. rewrite Hnone. prj. 
    rewrite lookup_app_r by lia. now rewrite Nat.sub_diag.
  - unfold connect. rewrite Hnone. prj. rewrite !connects_app. cbn. lia.
  - intros Hno.
    pose proof (keeps_run k es _ (ex_intro _ _ Hc1) Hno) as (H1 & H2 & _).
    split; [|exact H2]. intros now' id'. apply keeps_connect. now rewrite H1.
  - intros Hd. apply dormant_no_resume. now apply dormant_connect.
  - intros e es' He. apply (stable_run k es' _ _ _ He). discriminate.
  - intros c' t d id' now' Ht Hd.
    unfold step. cbn [fst snd].
    destruct (keeps_drain now' (handle k now' (Fire t) c')) as (-> & _).
    cbn [handle]. rewrite Ht. cbn [due callback].
    destruct (Z.leb_spec d now'); [|lia]. cbn [fire]. unfold reconnect_resume, connect. prj.
    reflexivity.
Qed.

(** A client with the default options: the first attempt is rejected by the
    transport, the connection closes, a message arrives; [connect] still
    returns promise 0, rejected, and [transport.connect()] was called once. *)
Lemma connect_memoized_witness :
  let es := [(3, ConnectRejected 0%nat IPC.ConnectionFailed);
             (4, OnClose (Some lost)); (9, OnMessage ready_message)] in
  let c' := run constants es (connect 0 "app" (new manual)).2 in
  connect 50 "other" c' = (0%nat, c') /\
  connects (trace c') = 1%nat /\
  promises c' !! 0%nat = Some (Rejected (TransportFailure IPC.ConnectionFailed)).
Proof.
  cbn zeta.
  destruct (connect_memoized constants (new manual) 0 "app"
              [(3, ConnectRejected 0%nat IPC.ConnectionFailed);
               (4, OnClose (Some lost)); (9, OnMessage ready_message)] eq_refl)
    as (_ & _ & Hone & Hmemo & Hdorm & Hrej & _).
  destruct (Hmemo (Hdorm (dormant_new manual eq_refl))) as [Hconn Hcount].
  split; [apply Hconn|]. split; [rewrite Hcount; exact Hone|].
  vm_compute. reflexivity.
Defined.

End MemoTheorem.
(** ** RpcClient: reconnection with backoff *)
Section ReconnectFacts.
Import RpcClient Observe.
Variable k : Constants.

Lemma schedule_app tr tr' : schedule (tr ++ tr') = schedule tr ++ schedule tr'.
Proof.
  induction tr as [|e tr IH]; [reflexivity|].
  destruct e as [| | | | | | | | t d [] | |]; cbn [app schedule]; rewrite IH; reflexivity.
Qed.

Lemma reported_app tr tr' : reported (tr ++ tr') = reported tr ++ reported tr'.
Proof.
  induction tr as [|e tr IH]; [reflexivity|].
  destruct e; cbn [app reported]; rewrite IH; reflexivity.
Qed.

Lemma announced_app tr tr' : announced (tr ++ tr') = announced tr ++ announced tr'.
Proof.
  induction tr as [|e tr IH]; [reflexivity|].
  destruct e; cbn [app announced]; rewrite IH; reflexivity.
Qed.

(** *** [_tryReconnect], by cases *)

Lemma tryReconnect_exhausted now id c :
  maxReconnectAttempts (options c) <= reconnectAttempts c ->
  _tryReconnect now id c = log (EmitError (ReconnectFailed (reconnectAttempts c))) c.
Proof.
  intros H. unfold _tryReconnect.
  destruct (Z.geb_spec (reconnectAttempts c) (maxReconnectAttempts (options c))); [reflexivity|lia].
Qed.

(** Below the maximum, [_tryReconnect] announces the attempt counted from one
    and waits [backoff] of that number. *)
Lemma tryReconnect_attempt now id c :
  reconnectAttempts c < maxReconnectAttempts (options c) ->
  let n := reconnectAttempts c + 1 in
  let c' := _tryReconnect now id c in
  reconnectAttempts c' = n /\ isReconnecting c' = true /\
  trace c' = trace c ++ [EmitReconnecting n; SetTimeout (nextTimer c) (backoff n) (ReconnectDelay id)] /\
  timers c' = <[nextTimer c := {| due := now + backoff n; callback := ReconnectDelay id |}]> (timers c) /\
  nextTimer c' = S (nextTimer c) /\
  awaiting c' = awaiting c /\ jobs c' = jobs c /\ options c' = options c /\
  _connectPromise c' = _connectPromise c /\ promises c' = promises c.
Proof.
  intros H. cbn zeta. unfold _tryReconnect.
  destruct (Z.geb_spec (reconnectAttempts c) (maxReconnectAttempts (options c))); [lia|].
  prj. rewrite <- app_assoc. repeat split; reflexivity.
Qed.

(** *** The continuation after the delay *)

Lemma resume_fields now id c :
  let p := length (promises c) in
  let c' := reconnect_resume now id c in
  trace c' = trace c ++ [SetTimeout (nextTimer c) (requestTimeout (options c)) (ConnectTimeout p);
                         TransportConnect] /\
  promises c' = promises c ++ [Pending] /\
  awaiting c' = awaiting c ++ [(p, id)] /\
  jobs c' = jobs c /\
  timers c' = <[nextTimer c := {| due := now + requestTimeout (options c);
                                  callback := ConnectTimeout p |}]> (timers c) /\
  nextTimer c' = S (nextTimer c) /\
  _connectPromise c' = Some p /\
  reconnectAttempts c' = reconnectAttempts c /\
  isReconnecting c' = isReconnecting c /\
  options c' = options c.
Proof.
  cbn zeta. unfold reconnect_resume, connect. prj. rewrite <- app_assoc.
  repeat split; reflexivity.
Qed.

Lemma settle_pending_fields p s c :
  promises c !! p = Some Pending ->
  let c' := settle p s c in
  trace c' = trace c ++ [Settle p s] /\
  promises c' = <[p := s]> (promises c) /\
  awaiting c' = List.filter (fun a => negb (bool_decide (a.1 = p))) (awaiting c) /\
  jobs c' = jobs c ++ map (fun a => {| job_clientId := a.2;
                                       job_fulfilled := match s with Fulfilled _ => true | _ => false end |})
                          (List.filter (fun a => bool_decide (a.1 = p)) (awaiting c)) /\
  timers c' = timers c /\ nextTimer c' = nextTimer c /\
  _connectPromise c' = _connectPromise c /\
  reconnectAttempts c' = reconnectAttempts c /\
  isReconnecting c' = isReconnecting c /\
  options c' = options c.
Proof.
  intros Hp. cbn zeta. unfold settle. rewrite Hp. prj. repeat split; reflexivity.
Qed.

Lemma drain_nil now c : jobs c = [] -> drain now c = set_jobs [] c.
Proof. intros H. unfold drain. now rewrite H. Qed.

Lemma drain_one now j c : jobs c = [j] -> drain now c = run_job now j (set_jobs [] c).
Proof. intros H. unfold drain. now rewrite H. Qed.

(** The delay of [_tryReconnect] ends: [connect] makes a new promise and
    calls the transport, and [_tryReconnect] waits for that promise. *)
Lemma step_fire_reconnect c t d id :
  timers c !! t = Some {| due := d; callback := ReconnectDelay id |} ->
  jobs c = [] ->
  let p := length (promises c) in
  let c' := step k (d, Fire t) c in
  trace c' = trace c ++ [SetTimeout (nextTimer c) (requestTimeout (options c)) (ConnectTimeout p);
                         TransportConnect] /\
  promises c' = promises c ++ [Pending] /\
  awaiting c' = awaiting c ++ [(p, id)] /\
  jobs c' = [] /\
  timers c' = <[nextTimer c := {| due := d + requestTimeout (options c);
                                  callback := ConnectTimeout p |}]> (delete t (timers c)) /\
  nextTimer c' = S (nextTimer c) /\
  _connectPromise c' = Some p /\
  reconnectAttempts c' = reconnectAttempts c /\
  isReconnecting c' = isReconnecting c /\
  options c' = options c.
Proof.
  intros Hd Hj. cbn zeta. unfold step. cbn [fst snd handle]. rewrite Hd. cbn [due callback].
  rewrite Z.leb_refl. cbn [fire].
  pose proof (resume_fields d id (clearTimeout t c)) as F. cbn zeta in F.
  destruct F as (Htr & Hpr & Haw & Hjb & Htm & Hnt & Hcp & Hat & Hre & Hop).
  rewrite drain_nil by (rewrite Hjb; exact Hj).
  revert Htr Hpr Haw Hjb Htm Hnt Hcp Hat Hre Hop.
  generalize (reconnect_resume d id (clearTimeout t c)). intros x.
  prj. intros -> -> -> _ -> -> -> -> -> ->. repeat split; reflexivity.
Qed.

(** The promise that a suspended [_tryReconnect] waits for is rejected: the
    call goes on in its [catch], from a client [c3] whose fields are given. *)
Lemma step_connect_rejected c p e d id :
  promises c !! p = Some Pending ->
  awaiting c = [(p, id)] ->
  jobs c = [] ->
  exists c3,
    step k (d, ConnectRejected p e) c = _tryReconnect d id c3 /\
    trace c3 = trace c ++ [Settle p (Rejected (TransportFailure e))] /\
    awaiting c3 = [] /\ jobs c3 = [] /\
    timers c3 = timers c /\ nextTimer c3 = nextTimer c /\
    _connectPromise c3 = _connectPromise c /\
    reconnectAttempts c3 = reconnectAttempts c /\
    isReconnecting c3 = isReconnecting c /\
    options c3 = options c.
Proof.
  intros Hp Ha Hj.
  pose proof (settle_pending_fields p (Rejected (TransportFailure e)) c Hp) as F.
  cbn zeta in F.
  destruct F as (Htr & Hpr & Haw & Hjb & Htm & Hnt & Hcp & Hat & Hre & Hop).
  rewrite Ha in Haw, Hjb. rewrite Hj in Hjb.
  cbn [app List.filter fst snd] in Haw, Hjb.
  rewrite bool_decide_eq_true_2 in Haw, Hjb by reflexivity.
  cbn [negb map app fst snd] in Haw, Hjb.
  exists (set_jobs [] (settle p (Rejected (TransportFailure e)) c)).
  split.
  { unfold step. cbn [fst snd handle]. rewrite (drain_one _ _ _ Hjb). reflexivity. }
  revert Htr Hpr Haw Hjb Htm Hnt Hcp Hat Hre Hop.
  generalize (settle p (Rejected (TransportFailure e)) c). intros x.
  prj. intros -> _ -> _ -> -> -> -> -> ->. repeat split; reflexivity.
Qed.

Lemma failed_attempt_unfold e c d a :
  timers c !! pred (nextTimer c) = Some {| due := d; callback := a |} ->
  failed_attempt k e c =
  step k (d, ConnectRejected (pred (length (promises (step k (d, Fire (pred (nextTimer c))) c)))) e)
    (step k (d, Fire (pred (nextTimer c))) c).
Proof. intros H. unfold failed_attempt. rewrite H. reflexivity. Qed.

(** One failed attempt, from a client that waits for the end of a delay. *)
Lemma failed_attempt_spec e c id a :
  retrying c id a ->
  let c' := failed_attempt k e c in
  connects (trace c') = S (connects (trace c)) /\
  options c' = options c /\
  is_Some (_connectPromise c') /\
  (a < maxReconnectAttempts (options c) ->
   retrying c' id (a + 1) /\
   schedule (trace c') = schedule (trace c) ++ [backoff (a + 1)] /\
   reported (trace c') = reported (trace c) /\
   announced (trace c') = announced (trace c) ++ [a + 1]) /\
  (maxReconnectAttempts (options c) <= a ->
   dormant c' /\ isReconnecting c' = true /\
   schedule (trace c') = schedule (trace c) /\
   reported (trace c') = reported (trace c) ++ [ReconnectFailed a] /\
   announced (trace c') = announced (trace c)).
Proof.
  intros (Ha & Hj & Hatt & Hrec & Hnz & [d Hd] & Honly). cbn zeta.
  rewrite (failed_attempt_unfold e c d _ Hd).
  pose proof (step_fire_reconnect c _ d id Hd Hj) as F1. cbn zeta in F1.
  revert F1. generalize (step k (d, Fire (pred (nextTimer c))) c). intros c1.
  intros (Htr1 & Hpr1 & Haw1 & Hjb1 & Htm1 & Hnt1 & Hcp1 & Hat1 & Hre1 & Hop1).
  set (p := length (promises c)) in *.
  assert (Hpred : pred (length (promises c1)) = p).
  { rewrite Hpr1, length_app. cbn [length]. unfold p. lia. }
  rewrite Hpred.
  destruct (step_connect_rejected c1 p e d id) as
    (c3 & -> & Htr3 & Haw3 & Hjb3 & Htm3 & Hnt3 & Hcp3 & Hat3 & Hre3 & Hop3).
  { rewrite Hpr1. rewrite lookup_app_r by (unfold p; lia). unfold p.
    now rewrite Nat.sub_diag. }
  { rewrite Haw1, Ha. reflexivity. }
  { exact Hjb1. }
  rewrite Htr1, <- app_assoc in Htr3. cbn [app] in Htr3.
  rewrite Htm1 in Htm3. rewrite Hnt1 in Hnt3. rewrite Hcp1 in Hcp3.
  rewrite Hat1, Hatt in Hat3. rewrite Hre1, Hrec in Hre3. rewrite Hop1 in Hop3.
  clear Htr1 Hpr1 Haw1 Hjb1 Htm1 Hnt1 Hcp1 Hat1 Hre1 Hop1 Hpred. clear c1.
  assert (Hold : forall t' tm, timers c3 !! t' = Some tm ->
                   is_reconnect (callback tm) = false).
  { intros t' tm Htm. rewrite Htm3 in Htm.
    apply lookup_insert_Some in Htm as [[_ <-]|[_ Htm]]; [reflexivity|].
    apply lookup_delete_Some in Htm as [Hne Htm].
    destruct (is_reconnect (callback tm)) eqn:Hr; [|reflexivity].
    specialize (Honly _ _ Htm Hr). congruence. }
  destruct (Z.lt_ge_cases a (maxReconnectAttempts (options c))) as [Hlt|Hge].
  - destruct (tryReconnect_attempt d id c3) as
      (Hat4 & Hre4 & Htr4 & Htm4 & Hnt4 & Haw4 & Hjb4 & Hop4 & Hcp4 & _).
    { rewrite Hat3, Hop3. exact Hlt. }
    revert Hat4 Hre4 Htr4 Htm4 Hnt4 Haw4 Hjb4 Hop4 Hcp4.
    generalize (_tryReconnect d id c3). intros c4.
    rewrite Hat3. intros Hat4 Hre4 Htr4 Htm4 Hnt4 Haw4 Hjb4 Hop4 Hcp4.
    rewrite Htr4, Htr3, Hop4, Hop3, Hcp4, Hcp3.
    rewrite !connects_app, !schedule_app, !reported_app, !announced_app.
    cbn [connects schedule reported announced List.filter length app Nat.add].
    split; [lia|]. split; [reflexivity|]. split; [eauto|]. split; [|lia]. intros _.
    rewrite !app_nil_r. split; [|split; [|split]; reflexivity].
    unfold retrying. rewrite Haw4, Hjb4, Hat4, Hre4, Hnt4, Htm4, Haw3, Hjb3. cbn [pred].
    rewrite lookup_insert_eq.
    split; [reflexivity|]. split; [reflexivity|]. split; [reflexivity|].
    split; [reflexivity|]. split; [discriminate|]. split; [eexists; reflexivity|].
    intros t' tm Htm Hr. apply lookup_insert_Some in Htm as [[<- _]|[_ Htm]]; [reflexivity|].
    rewrite (Hold _ _ Htm) in Hr. discriminate.
  - rewrite tryReconnect_exhausted by (rewrite Hat3, Hop3; exact Hge).
    rewrite Hat3.
    assert (F : forall x, trace (log x c3) = trace c3 ++ [x] /\ options (log x c3) = options c3 /\
              _connectPromise (log x c3) = _connectPromise c3 /\ awaiting (log x c3) = awaiting c3 /\
              jobs (log x c3) = jobs c3 /\ timers (log x c3) = timers c3 /\
              isReconnecting (log x c3) = isReconnecting c3).
    { intros x. repeat split; reflexivity. }
    destruct (F (EmitError (ReconnectFailed a))) as (Htr4 & Hop4 & Hcp4 & Haw4 & Hjb4 & Htm4 & Hre4).
    revert Htr4 Hop4 Hcp4 Haw4 Hjb4 Htm4 Hre4.
    generalize (log (EmitError (ReconnectFailed a)) c3). intros c4.
    intros Htr4 Hop4 Hcp4 Haw4 Hjb4 Htm4 Hre4. clear F.
    unfold dormant. rewrite Htr4, Hop4, Hcp4, Haw4, Hjb4, Htm4, Hre4.
    rewrite Htr3, Hop3, Hcp3, Haw3, Hjb3, Hre3.
    rewrite !connects_app, !schedule_app, !reported_app, !announced_app.
    cbn [connects schedule reported announced List.filter length app Nat.add].
    rewrite !app_nil_r, andb_false_r.
    split; [lia|]. split; [reflexivity|]. split; [eauto|]. split; [lia|]. intros _.
    repeat split; auto.
Qed.

(** The attempts that follow one another while the maximum is not reached. *)
Lemma failed_attempts_iter e id j : forall c a,
  retrying c id a ->
  a + Z.of_nat j <= maxReconnectAttempts (options c) ->
  let c' := Nat.iter j (failed_attempt k e) c in
  retrying c' id (a + Z.of_nat j) /\
  options c' = options c /\
  schedule (trace c') = schedule (trace c)
                        ++ map (fun i => backoff (a + Z.of_nat i)) (seq 1 j) /\
  connects (trace c') = (connects (trace c) + j)%nat /\
  reported (trace c') = reported (trace c) /\
  announced (trace c') = announced (trace c)
                         ++ map (fun i => a + Z.of_nat i) (seq 1 j).
Proof.
  induction j as [|j IH]; intros c a Hc Hmax; cbn zeta.
  - unfold Nat.iter. cbn [nat_rect seq map].
    rewrite Z.add_0_r, !app_nil_r, Nat.add_0_r. split; [exact Hc|]. repeat split.
  - destruct (IH c a Hc ltac:(lia)) as (Hr & Ho & Hs & Hn & Hp & Han).
    rewrite Nat.iter_succ.
    destruct (failed_attempt_spec e _ id _ Hr) as (Hn' & Ho' & _ & Hlt & _).
    destruct Hlt as (Hr' & Hs' & Hp' & Han'); [rewrite Ho; lia|].
    replace (a + Z.of_nat (S j)) with (a + Z.of_nat j + 1) by lia.
    split; [exact Hr'|]. split; [congruence|].
    rewrite Hs', Hs, Hn', Hn, Hp', Hp, Han', Han.
    rewrite seq_S, !map_app, <- !app_assoc. cbn [map app].
    replace (a + Z.of_nat (1 + j)) with (a + Z.of_nat j + 1) by lia.
    repeat split; auto; lia.
Qed.

(** The first call of [_tryReconnect], on a client that is not reconnecting. *)
Lemma tryReconnect_first now id c :
  awaiting c = [] -> jobs c = [] ->
  (forall t tm, timers c !! t = Some tm -> is_reconnect (callback tm) = false) ->
  reconnectAttempts c < maxReconnectAttempts (options c) ->
  let c' := _tryReconnect now id c in
  retrying c' id (reconnectAttempts c + 1) /\
  options c' = options c /\
  schedule (trace c') = schedule (trace c) ++ [backoff (reconnectAttempts c + 1)] /\
  connects (trace c') = connects (trace c) /\
  reported (trace c') = reported (trace c) /\
  announced (trace c') = announced (trace c) ++ [reconnectAttempts c + 1].
Proof.
  intros Ha Hj Hold Hlt. cbn zeta.
  destruct (tryReconnect_attempt now id c Hlt) as
    (Hat & Hre & Htr & Htm & Hnt & Haw & Hjb & Hop & Hcp & _).
  revert Hat Hre Htr Htm Hnt Haw Hjb Hop Hcp.
  generalize (_tryReconnect now id c). intros c' Hat Hre Htr Htm Hnt Haw Hjb Hop Hcp.
  unfold retrying. rewrite Haw, Hjb, Hat, Hre, Hnt, Htm, Htr, Hop, Ha, Hj. cbn [pred].
  rewrite lookup_insert_eq, !connects_app, !schedule_app, !reported_app, !announced_app.
  cbn [connects schedule reported announced List.filter length app Nat.add].
  rewrite !app_nil_r, Nat.add_0_r.
  repeat split; auto; [eexists; reflexivity|].
  intros t' tm Ht Hr. apply lookup_insert_Some in Ht as [[<- _]|[_ Ht]]; [reflexivity|].
  rewrite (Hold _ _ Ht) in Hr. discriminate.
Qed.

End ReconnectFacts.
(** ** RpcClient: the ['connected'] listener *)
Section ReadyFacts.
Import RpcClient Observe.
Variable k : Constants.

Lemma drain_fulfilled now c :
  fulfilled_jobs c -> reconnectAttempts (drain now c) = reconnectAttempts c.
Proof.
  unfold fulfilled_jobs, drain. intros H.
  assert (G : forall l c', Forall (fun j => job_fulfilled j = true) l ->
            reconnectAttempts (fold_left (fun c j => run_job now j c) l c')
            = reconnectAttempts c').
  { induction l as [|j l IH]; intros c' Hl; [reflexivity|].
    inversion Hl as [|? ? Hj Hl']; subst. cbn [fold_left]. rewrite IH by exact Hl'.
    unfold run_job. rewrite Hj. reflexivity. }
  now rewrite G.
Qed.

Lemma connected_listener_fields h c :
  fulfilled_jobs c ->
  reconnectAttempts (connected_listener h c) = 0 /\
  fulfilled_jobs (connected_listener h c).
Proof.
  unfold fulfilled_jobs, connected_listener, settle. intros H. prj.
  destruct (promises c !! h.2) as [[| |]|]; prj; split; try reflexivity; try exact H.
  apply Forall_app. split; [exact H|]. apply Forall_forall. intros j Hj.
  apply list_elem_of_In, in_map_iff in Hj as (a & <- & _). reflexivity.
Qed.

Lemma connected_listeners_fields l : forall c,
  l <> [] -> fulfilled_jobs c ->
  reconnectAttempts (fold_left (fun c h => connected_listener h c) l c) = 0 /\
  fulfilled_jobs (fold_left (fun c h => connected_listener h c) l c).
Proof.
  induction l as [|h l IH]; intros c Hl Hc; [done|]. cbn [fold_left].
  destruct (connected_listener_fields h c Hc) as [H0 Hf].
  destruct l as [|h' l]; [cbn [fold_left]; auto|].
  apply IH; [discriminate|exact Hf].
Qed.

Lemma settle_pending_lookup p s c :
  promises c !! p = Some Pending -> promises (settle p s c) !! p = Some s.
Proof.
  intros Hp. destruct (settle_pending_fields p s c Hp) as (_ & -> & _).
  apply list_lookup_insert_eq. now apply lookup_lt_Some in Hp.
Qed.

Lemma settle_other p s c q :
  p <> q -> promises (settle p s c) !! q = promises c !! q.
Proof.
  intros Hne. unfold settle. destruct (promises c !! p) as [[| |]|]; try reflexivity.
  prj. now apply list_lookup_insert_ne.
Qed.

Lemma settle_settled p s c q s' :
  promises c !! q = Some s' -> s' <> Pending -> promises (settle p s c) !! q = Some s'.
Proof. intros Hq Hs. now apply (keeps_stable _ _ (keeps_settle p s c)). Qed.

Lemma listeners_keep_fulfilled l : forall c p v,
  promises c !! p = Some (Fulfilled v) ->
  promises (fold_left (fun c h => connected_listener h c) l c) !! p = Some (Fulfilled v).
Proof.
  intros c p v Hp.
  refine (keeps_stable _ _ (keeps_fold _ l _ c) p _ Hp _); [|discriminate].
  intros. apply keeps_connected_listener.
Qed.

Lemma listeners_fulfil l : forall c t p,
  In (t, p) l -> promises c !! p = Some Pending ->
  promises (fold_left (fun c h => connected_listener h c) l c) !! p
  = Some (Fulfilled This).
Proof.
  induction l as [|h l IH]; intros c t p Hin Hp; [destruct Hin|]. cbn [fold_left].
  destruct (decide (h.2 = p)) as [Heq|Hne].
  - subst p. apply listeners_keep_fulfilled.
    unfold connected_listener. now apply settle_pending_lookup.
  - destruct Hin as [->|Hin]; [done|]. apply (IH _ t); [exact Hin|].
    unfold connected_listener. rewrite settle_other by exact Hne. exact Hp.
Qed.

Lemma onConnected_settle p s c : onConnected (settle p s c) = onConnected c.
Proof. unfold settle. now destruct (promises c !! p) as [[| |]|]. Qed.

Lemma onConnected_drain now c : onConnected (drain now c) = onConnected c.
Proof.
  unfold drain.
  assert (G : forall l c', onConnected (fold_left (fun c j => run_job now j c) l c')
                           = onConnected c').
  { induction l as [|j l IH]; intros c'; [reflexivity|]. cbn [fold_left]. rewrite IH.
    unfold run_job, _tryReconnect. destruct (job_fulfilled j); [reflexivity|].
    now destruct (_ >=? _). }
  now rewrite G.
Qed.

Lemma onConnected_listeners l : forall c,
  onConnected (fold_left (fun c h => connected_listener h c) l c) = onConnected c.
Proof.
  induction l as [|h l IH]; intros c; [reflexivity|]. cbn [fold_left]. rewrite IH.
  unfold connected_listener. now rewrite onConnected_settle.
Qed.

Lemma ready_resets (m : Message) (c : Client) (now : Z) :
  is_ready k m = true ->
  data_user (data m) <> None ->
  onConnected c <> [] ->
  jobs c = [] ->
  let c' := step k (now, OnMessage m) c in
  reconnectAttempts c' = 0 /\
  onConnected c' = [] /\
  (forall t p, In (t, p) (onConnected c) -> promises c !! p = Some Pending ->
               promises c' !! p = Some (Fulfilled This)).
Proof.
  intros Hr Hd Hl Hj. cbn zeta. unfold step. cbn [fst snd handle].
  unfold is_ready in Hr. unfold _onRpcMessage. rewrite Hr.
  destruct (data_user (data m)) as [u|]; [clear Hd|done].
  set (c1 := match u with Some u0 => set_user (Some u0) c | None => c end).
  assert (F1 : onConnected c1 = onConnected c /\ jobs c1 = jobs c /\
               promises c1 = promises c /\ trace c1 = trace c).
  { unfold c1. destruct u; repeat split; reflexivity. }
  clearbody c1. destruct F1 as (Ho1 & Hj1 & Hp1 & Ht1).
  assert (E : onConnected (log EmitConnected c1) = onConnected c) by exact Ho1.
  rewrite E.
  set (c2 := set_onConnected [] (log EmitConnected c1)).
  assert (F2 : onConnected c2 = [] /\ jobs c2 = [] /\ promises c2 = promises c /\
               trace c2 = trace c ++ [EmitConnected]).
  { unfold c2. prj. rewrite Hj1, Hp1, Ht1. auto. }
  clearbody c2. destruct F2 as (Ho2 & Hj2 & Hp2 & Ht2).
  destruct (connected_listeners_fields (onConnected c) c2 Hl) as [H0 Hf].
  { unfold fulfilled_jobs. rewrite Hj2. constructor. }
  rewrite (drain_fulfilled _ _ Hf), onConnected_drain, onConnected_listeners, promises_drain.
  split; [exact H0|]. split; [exact Ho2|].
  intros t p Hin Hp. apply (listeners_fulfil _ _ t); [exact Hin|]. now rewrite Hp2.
Qed.

(** X21. The dispatch of [READY] runs the listeners that [connect]
    registered with [once('connected')]: when there is one at least, the
    counter of reconnection attempts is zero afterwards, each promise of
    [connect] that was pending is fulfilled with the client, and no listener
    is left.  ([message.data] must be there: reading [data.user] throws
    otherwise.) *)
Theorem ready_resets_attempts (m : Message) (c : Client) (now : Z) :
  is_ready k m = true ->
  data_user (data m) <> None ->
  onConnected c <> [] ->
  jobs c = [] ->
  let c' := step k (now, OnMessage m) c in
  reconnectAttempts c' = 0 /\
  onConnected c' = [] /\
  (forall t p, In (t, p) (onConnected c) -> promises c !! p = Some Pending ->
               promises c' !! p = Some (Fulfilled This)).
Proof. exact (ready_resets m c now). Qed.

End ReadyFacts.

(** ** RpcClient: the schedule of reconnection *)
Section ReconnectTheorem.
Import RpcClient Observe Samples.

(** Claim C5.  Reconnection from a client that is not reconnecting, whose
    counter stands at [a] with [S m] attempts left, when every attempt fails
    because [transport.connect()] rejects.  The attempts are announced, with
    ['reconnecting'], as [a + 1], ..., [a + S m]: they are counted from one,
    [a] being zero after [READY].  Before the attempt of number [n] the client
    waits [min(1000 * 2^n, 30000)] ms and then calls [connect] again, which
    calls the transport once.  After the last failure the error
    [ConnectionFailed] is emitted, once, with the number of attempts, and the
    client stays as it is for ever: whatever happens next, no reconnection
    timer is started and the transport is not asked to connect again.  And
    whenever [READY] is dispatched to a client on which a listener of
    [connect] waits for it, the counter is zero afterwards. *)
Theorem reconnect_policy (k : Constants) (e : IPC.errorCode) (now : Z)
    (id : string) (c0 : Client) (m : nat) (es : list (Z * event)) :
  awaiting c0 = [] ->
  jobs c0 = [] ->
  (forall t tm, timers c0 !! t = Some tm -> is_reconnect (callback tm) = false) ->
  maxReconnectAttempts (options c0) = reconnectAttempts c0 + Z.of_nat (S m) ->
  let a := reconnectAttempts c0 in
  let c := Nat.iter (S m) (failed_attempt k e) (_tryReconnect now id c0) in
  announced (trace c)
  = announced (trace c0) ++ map (fun i => a + Z.of_nat i) (seq 1 (S m)) /\
  schedule (trace c)
  = schedule (trace c0)
    ++ map (fun i => Z.min (1000 * 2 ^ (a + Z.of_nat i)) 30000) (seq 1 (S m)) /\
  connects (trace c) = (connects (trace c0) + S m)%nat /\
  reported (trace c) = reported (trace c0) ++ [ReconnectFailed (a + Z.of_nat (S m))] /\
  gave_up c /\
  dormant (run k es c) /\
  connects (trace (run k es c)) = connects (trace c) /\
  (forall msg c1 now1,
     is_ready k msg = true -> data_user (data msg) <> None ->
     onConnected c1 <> [] -> jobs c1 = [] ->
     reconnectAttempts (step k (now1, OnMessage msg) c1) = 0).
Proof.
  intros Ha Hj Hold Hmax. cbn zeta.
  destruct (tryReconnect_first now id c0 Ha Hj Hold ltac:(lia))
    as (Hr & Ho & Hs & Hn & Hp & Han).
  revert Hr Ho Hs Hn Hp Han. generalize (_tryReconnect now id c0).
  intros c1 Hr Ho Hs Hn Hp Han.
  rewrite Nat.iter_succ.
  destruct (failed_attempts_iter k e id m c1 _ Hr ltac:(rewrite Ho; lia))
    as (Hr' & Ho' & Hs' & Hn' & Hp' & Han').
  revert Hr' Ho' Hs' Hn' Hp' Han'. generalize (Nat.iter m (failed_attempt k e) c1).
  intros c2 Hr' Ho' Hs' Hn' Hp' Han'.
  destruct (failed_attempt_spec k e c2 id _ Hr') as (Hn2 & Ho2 & Hc2 & _ & Hge).
  destruct Hge as (Hd & Hre & Hs2 & Hp2 & Han2); [rewrite Ho', Ho; lia|].
  revert Hn2 Ho2 Hc2 Hd Hre Hs2 Hp2 Han2. generalize (failed_attempt k e c2).
  intros c3 Hn2 Ho2 Hc2 Hd Hre Hs2 Hp2 Han2.
  rewrite Hs2, Hs', Hs, Hn2, Hn', Hn, Hp2, Hp', Hp, Han2, Han', Han.
  split; [|split; [|split; [lia|split; [|split; [|split; [|split]]]]]].
  7:{ intros msg c1' now1 H1 H2 H3 H4.
      exact (proj1 (ready_resets k msg c1' now1 H1 H2 H3 H4)). }
  - rewrite <- app_assoc. f_equal. cbn [seq map app].
    rewrite <- (seq_shift m 1), !map_map. f_equal.
    apply map_ext. intros i. lia.
  - assert (B : forall x y, x = y -> backoff x = Z.min (1000 * 2 ^ y) 30000)
      by (intros ? ? ->; reflexivity).
    rewrite <- app_assoc. f_equal. cbn [seq map app].
    rewrite <- (seq_shift m 1), !map_map.
    rewrite (B (reconnectAttempts c0 + 1) (reconnectAttempts c0 + Z.of_nat 1)) by lia.
    f_equal. apply map_ext. intros i. apply B. lia.
  - do 3 f_equal. lia.
  - repeat split; auto; apply Hd.
  - now apply dormant_run.
  - destruct (keeps_run k es c3 Hc2 (dormant_no_resume k es c3 Hd)) as (_ & -> & _).
    rewrite Hn2, Hn', Hn. lia.
Qed.

(** The default maximum of three attempts: the waits are 2, 4 and 8 seconds,
    the transport is asked three times, and one error is emitted. *)
Lemma reconnect_policy_witness :
  let c := Nat.iter 3 (failed_attempt constants IPC.ConnectionFailed)
             (_tryReconnect 0 "app" (new automatic)) in
  announced (trace c) = [1; 2; 3] /\
  schedule (trace c) = [2000; 4000; 8000] /\
  connects (trace c) = 3%nat /\
  reported (trace c) = [ReconnectFailed 3].
Proof.
  cbn zeta.
  destruct (reconnect_policy constants IPC.ConnectionFailed 0 "app"
              (new automatic) 2 [])
    as (Ha & Hs & Hn & Hp & _); try reflexivity.
  { intros t tm H. unfold new in H. cbn [timers] in H.
    rewrite lookup_empty in H. discriminate. }
  cbn zeta in Ha, Hs, Hn, Hp.
  split; [exact Ha|]. split; [exact Hs|]. split; [exact Hn|exact Hp].
Defined.

End ReconnectTheorem.

Section ReadyWitness.
Import RpcClient Observe Samples.

(** A client that was connected, lost the connection and is at its first
    attempt to reconnect: the counter stands at 1 until [READY] comes. *)
Lemma ready_resets_attempts_witness :
  let c := run constants
             [(0, Connect "app"); (5, OnMessage ready_message);
              (20, OnClose (Some lost)); (2020, Fire 1%nat)] (new automatic) in
  reconnectAttempts c = 1 /\
  reconnectAttempts (step constants (2030, OnMessage ready_message) c) = 0 /\
  onConnected (step constants (2030, OnMessage ready_message) c) = [].
Proof.
  cbn zeta. split; [vm_compute; reflexivity|].
  refine (let H := ready_resets_attempts constants ready_message _ 2030 _ _ _ _ in
          conj (proj1 H) (proj1 (proj2 H))).
  - vm_compute; reflexivity.
  - vm_compute; discriminate.
  - vm_compute; discriminate.
  - vm_compute; reflexivity.
Defined.

End ReadyWitness.
(** ** RpcClient: the ['close'] listener *)
Section CloseFacts.
Import RpcClient Observe.
Variable k : Constants.

Lemma cleared_same t c c' :
  timers c' = timers c -> nextTimer c' = nextTimer c -> cleared t c -> cleared t c'.
Proof. unfold cleared. now intros -> ->. Qed.

Lemma cleared_settle t p s c : cleared t c -> cleared t (settle p s c).
Proof.
  intros H. unfold settle. destruct (promises c !! p) as [[| |]|]; exact H.
Qed.

Lemma cleared_clearTimeout t t' c : cleared t c -> cleared t (clearTimeout t' c).
Proof.
  intros [H1 H2]. split; prj; [exact H1|].
  apply lookup_delete_None. now right.
Qed.

Lemma cleared_entry_settle t e s c : cleared t c -> cleared t (entry_settle e s c).
Proof. intros H. now apply cleared_settle, cleared_clearTimeout. Qed.

Lemma cleared_fold {A} t (f : Client -> A -> Client) l :
  (forall c x, cleared t c -> cleared t (f c x)) ->
  forall c, cleared t c -> cleared t (fold_left f l c).
Proof.
  intros Hf. induction l as [|x l IH]; intros c Hc; [exact Hc|].
  cbn [fold_left]. apply IH. now apply Hf.
Qed.

Lemma cleared_tryReconnect t now id c :
  cleared t c -> cleared t (_tryReconnect now id c).
Proof.
  intros [H1 H2]. unfold _tryReconnect. destruct (_ >=? _); [now split|].
  split; prj; [lia|]. rewrite lookup_insert_ne by lia. exact H2.
Qed.

Lemma cleared_drain t now c : cleared t c -> cleared t (drain now c).
Proof.
  intros H. unfold drain. apply cleared_fold.
  - intros c' j Hc'. unfold run_job. destruct (job_fulfilled j).
    + now apply (cleared_same t c').
    + now apply cleared_tryReconnect.
  - now apply (cleared_same t c).
Qed.

Lemma cleared_close_listener t now ev h c :
  cleared t c -> cleared t (close_listener now ev h c).
Proof.
  intros H. unfold close_listener. apply cleared_settle.
  assert (H1 : cleared t (log EmitDisconnected
                 (fold_left (fun c e => entry_settle e.2
                    (Rejected (ConnectionError (code ev +:+ ": " +:+ reason ev))) c)
                    (_expecting c) c))).
  { apply (cleared_same t (fold_left (fun c e => entry_settle e.2
                    (Rejected (ConnectionError (code ev +:+ ": " +:+ reason ev))) c)
                    (_expecting c) c)); [reflexivity..|].
    apply cleared_fold; [|exact H]. intros. now apply cleared_entry_settle. }
  match goal with |- cleared t (if ?b then _ else _) => destruct b end;
    [now apply cleared_tryReconnect|exact H1].
Qed.

(** The entries are settled one after the other. *)
Lemma entries_cleared s (l : list (string * Expecting)) : forall c n e,
  In (n, e) l -> (timeout e < nextTimer c)%nat ->
  cleared (timeout e) (fold_left (fun c x => entry_settle x.2 s c) l c).
Proof.
  induction l as [|x l IH]; intros c n e Hin Ht; [destruct Hin|]. cbn [fold_left].
  destruct Hin as [->|Hin].
  - apply cleared_fold; [intros; now apply cleared_entry_settle|].
    cbn [snd]. unfold entry_settle. apply cleared_settle. split; prj; [exact Ht|].
    apply lookup_delete_eq.
  - apply (IH _ n); [exact Hin|].
    unfold entry_settle, settle. destruct (promises _ !! _) as [[| |]|]; prj; exact Ht.
Qed.

Lemma entries_keep_settled s (l : list (string * Expecting)) : forall c p s',
  promises c !! p = Some s' -> s' <> Pending ->
  promises (fold_left (fun c x => entry_settle x.2 s c) l c) !! p = Some s'.
Proof.
  intros c p s' Hp Hs.
  refine (keeps_stable _ _ (keeps_fold _ l _ c) p _ Hp Hs).
  intros. apply keeps_entry_settle.
Qed.

Lemma entries_settled s (l : list (string * Expecting)) : s <> Pending -> forall c n e,
  In (n, e) l -> promises c !! promise e = Some Pending ->
  promises (fold_left (fun c x => entry_settle x.2 s c) l c) !! promise e = Some s.
Proof.
  intros Hs. induction l as [|x l IH]; intros c n e Hin Hp; [destruct Hin|].
  cbn [fold_left].
  destruct (decide (promise x.2 = promise e)) as [Heq|Hne].
  - apply entries_keep_settled; [|exact Hs].
    unfold entry_settle. rewrite Heq. now apply settle_pending_lookup.
  - destruct Hin as [->|Hin]; [done|]. apply (IH _ n); [exact Hin|].
    unfold entry_settle. rewrite settle_other by exact Hne. exact Hp.
Qed.

Lemma entries_pending_or s (l : list (string * Expecting)) : s <> Pending -> forall c p,
  promises c !! p = Some Pending ->
  promises (fold_left (fun c x => entry_settle x.2 s c) l c) !! p = Some Pending \/
  promises (fold_left (fun c x => entry_settle x.2 s c) l c) !! p = Some s.
Proof.
  intros Hs. induction l as [|x l IH]; intros c p Hp; [now left|]. cbn [fold_left].
  destruct (decide (promise x.2 = p)) as [<-|Hne].
  - right. apply entries_keep_settled; [|exact Hs].
    unfold entry_settle. now apply settle_pending_lookup.
  - apply IH. unfold entry_settle. now rewrite settle_other.
Qed.

Lemma onClose_settle p s c : onClose (settle p s c) = onClose c.
Proof. unfold settle. now destruct (promises c !! p) as [[| |]|]. Qed.

Lemma onClose_tryReconnect now id c : onClose (_tryReconnect now id c) = onClose c.
Proof. unfold _tryReconnect. now destruct (_ >=? _). Qed.

Lemma onClose_fold {A} (f : Client -> A -> Client) l :
  (forall c x, onClose (f c x) = onClose c) ->
  forall c, onClose (fold_left f l c) = onClose c.
Proof.
  intros Hf. induction l as [|x l IH]; intros c; [reflexivity|].
  cbn [fold_left]. now rewrite IH, Hf.
Qed.

Lemma onClose_close_listener now ev h c :
  onClose (close_listener now ev h c) = onClose c.
Proof.
  unfold close_listener. rewrite onClose_settle.
  match goal with |- onClose (if ?b then _ else _) = _ => destruct b end;
    rewrite ?onClose_tryReconnect; prj;
    (rewrite onClose_fold; [reflexivity|]); intros; unfold entry_settle;
    now rewrite onClose_settle.
Qed.

Lemma onClose_drain now c : onClose (drain now c) = onClose c.
Proof.
  unfold drain. rewrite onClose_fold; [reflexivity|].
  intros c' j. unfold run_job. destruct (job_fulfilled j); [reflexivity|].
  apply onClose_tryReconnect.
Qed.

Lemma nextTimer_settle p s c : nextTimer (settle p s c) = nextTimer c.
Proof. unfold settle. now destruct (promises c !! p) as [[| |]|]. Qed.

(** What one listener does to the promises of the entries and to its own. *)
Lemma close_listener_rejects now ev h c :
  let err := ConnectionError (code ev +:+ ": " +:+ reason ev) in
  let c' := close_listener now ev h c in
  (forall n e, In (n, e) (_expecting c) -> promises c !! promise e = Some Pending ->
               promises c' !! promise e = Some (Rejected err)) /\
  (promises c !! h.2 = Some Pending -> promises c' !! h.2 = Some (Rejected err)) /\
  (forall n e, In (n, e) (_expecting c) -> (timeout e < nextTimer c)%nat ->
               cleared (timeout e) c') /\
  (forall p, promises c !! p = Some Pending ->
             promises c' !! p = Some Pending \/ promises c' !! p = Some (Rejected err)).
Proof.
  cbn zeta. unfold close_listener.
  set (err := ConnectionError (code ev +:+ ": " +:+ reason ev)).
  set (c1 := fold_left (fun c e => entry_settle e.2 (Rejected err) c) (_expecting c) c).
  assert (E1 : forall n e, In (n, e) (_expecting c) ->
               promises c !! promise e = Some Pending ->
               promises c1 !! promise e = Some (Rejected err)).
  { intros n e Hin Hp. now apply (entries_settled (Rejected err) _ ltac:(discriminate) _ n). }
  assert (E2 : stable c c1).
  { apply keeps_stable, keeps_fold. intros. apply keeps_entry_settle. }
  assert (E3 : forall n e, In (n, e) (_expecting c) -> (timeout e < nextTimer c)%nat ->
               cleared (timeout e) c1).
  { intros n e Hin Ht. now apply (entries_cleared _ _ _ n). }
  assert (E4 : forall p, promises c !! p = Some Pending ->
               promises c1 !! p = Some Pending \/ promises c1 !! p = Some (Rejected err)).
  { intros p Hp. now apply entries_pending_or. }
  clearbody c1.
  set (c3 := if autoReconnect (options (log EmitDisconnected c1))
                && negb (isReconnecting (log EmitDisconnected c1))
             then _tryReconnect now h.1 (log EmitDisconnected c1)
             else log EmitDisconnected c1).
  assert (F1 : promises c3 = promises c1).
  { unfold c3. destruct (_ && _); [rewrite promises_tryReconnect|]; reflexivity. }
  assert (F2 : forall t, cleared t c1 -> cleared t c3).
  { intros t Ht. unfold c3. destruct (_ && _); [apply cleared_tryReconnect|];
      now apply (cleared_same t c1). }
  clearbody c3. split; [|split; [|split]].
  - intros n e Hin Hp. apply settle_settled; [|discriminate]. rewrite F1. eauto.
  - intros Hp. destruct (E4 _ Hp) as [H|H].
    + apply settle_pending_lookup. now rewrite F1.
    + apply settle_settled; [|discriminate]. now rewrite F1.
  - intros n e Hin Ht. apply cleared_settle, F2. eauto.
  - intros p Hp. destruct (E4 _ Hp) as [H|H].
    + destruct (decide (h.2 = p)) as [->|Hne].
      * right. apply settle_pending_lookup. now rewrite F1.
      * left. rewrite settle_other by exact Hne. now rewrite F1.
    + right. apply settle_settled; [|discriminate]. now rewrite F1.
Qed.

Lemma close_listeners_reject now ev l : forall c id p,
  let err := ConnectionError (code ev +:+ ": " +:+ reason ev) in
  In (id, p) l ->
  promises c !! p = Some Pending \/ promises c !! p = Some (Rejected err) ->
  promises (fold_left (fun c h => close_listener now ev h c) l c) !! p
  = Some (Rejected err).
Proof.
  cbn zeta. induction l as [|h l IH]; intros c id p Hin Hp; [destruct Hin|].
  cbn [fold_left].
  assert (Hkeep : forall c0, promises c0 !! p
                    = Some (Rejected (ConnectionError (code ev +:+ ": " +:+ reason ev))) ->
            promises (fold_left (fun c h => close_listener now ev h c) l c0) !! p
            = Some (Rejected (ConnectionError (code ev +:+ ": " +:+ reason ev)))).
  { intros c0 H0.
    refine (keeps_stable _ _ (keeps_fold _ l _ c0) p _ H0 _); [|discriminate].
    intros. apply keeps_close_listener. }
  destruct (close_listener_rejects now ev h c) as (_ & Hown & _ & Hor).
  destruct Hin as [->|Hin].
  - apply Hkeep. destruct Hp as [Hp|Hp]; [now apply Hown|].
    apply (keeps_stable _ _ (keeps_close_listener now ev (id, p) c)); [exact Hp|discriminate].
  - apply (IH _ id); [exact Hin|]. destruct Hp as [Hp|Hp]; [now apply Hor|].
    right. apply (keeps_stable _ _ (keeps_close_listener now ev h c)); [exact Hp|discriminate].
Qed.

(** X19. When the transport emits ['close'] with an event that is
    not [null] and a listener of [connect] is registered, every request
    whose promise is pending is rejected with [ConnectionError], whose
    message is the code and the reason of the event, and its timer is
    cleared; the pending promise of [connect] is rejected with the same
    error; the listeners are used up.  But no entry leaves [_expecting]: the
    table is what it was.  When the event is [null] (a [CLOSE] frame whose
    payload is [null]) and the table is not empty, the first listener throws
    on [event.code] before it rejects anything: it is used up and nothing
    else changes. *)
Theorem close_rejects_pending (c : Client) (now : Z) (ev : CloseEvent) :
  onClose c <> [] ->
  let err := ConnectionError (code ev +:+ ": " +:+ reason ev) in
  let c' := step k (now, OnClose (Some ev)) c in
  let c0 := step k (now, OnClose None) c in
  (forall n e, In (n, e) (_expecting c) -> promises c !! promise e = Some Pending ->
               promises c' !! promise e = Some (Rejected err)) /\
  (forall id p, In (id, p) (onClose c) -> promises c !! p = Some Pending ->
                promises c' !! p = Some (Rejected err)) /\
  (forall n e, In (n, e) (_expecting c) -> (timeout e < nextTimer c)%nat ->
               timers c' !! timeout e = None) /\
  _expecting c' = _expecting c /\
  onClose c' = [] /\
  (_expecting c <> [] -> jobs c = [] ->
   promises c0 = promises c /\ timers c0 = timers c /\
   _expecting c0 = _expecting c /\ onClose c0 = tl (onClose c) /\
   trace c0 = trace c ++ [Throw]).
Proof.
  intros Hl. cbn zeta. split; [|split; [|split; [|split; [|split]]]].
  6:{ intros He Hj. unfold step. cbn [fst snd handle emit_close].
      destruct (onClose c) as [|h l] eqn:Hc; [done|].
      unfold close_listener_null. prj.
      destruct (_expecting c) as [|x xs] eqn:Hx; [done|].
      rewrite drain_nil by exact Hj. prj. rewrite Hx. auto. }
  - intros n e Hin Hp. unfold step. rewrite promises_drain. cbn [fst snd handle emit_close].
    destruct (onClose c) as [|h l] eqn:Hc; [done|]. cbn [fold_left].
    destruct (close_listener_rejects now ev h (set_onClose [] c)) as (Hent & _).
    refine (keeps_stable _ _ (keeps_fold _ l _ _) _ _ (Hent n e Hin Hp) _); [|discriminate].
    intros. apply keeps_close_listener.
  - intros id p Hin Hp. unfold step. rewrite promises_drain. cbn [fst snd handle emit_close].
    apply (close_listeners_reject now ev _ _ id); [exact Hin|now left].
  - intros n e Hin Ht. unfold step. cbn [fst snd handle emit_close].
    destruct (onClose c) as [|h l] eqn:Hc; [done|]. cbn [fold_left].
    destruct (close_listener_rejects now ev h (set_onClose [] c)) as (_ & _ & Hcl & _).
    apply cleared_drain, cleared_fold; [intros; now apply cleared_close_listener|].
    now apply (Hcl n).
  - apply close_keeps_expecting.
  - unfold step. rewrite onClose_drain. cbn [fst snd handle emit_close].
    rewrite onClose_fold; [reflexivity|]. intros. apply onClose_close_listener.
Qed.

End CloseFacts.

Section CloseWitness.
Import RpcClient Observe Samples.

(** Three requests are pending when the transport emits ['close']: their
    promises are rejected with [ConnectionError], in the order of their
    registration, and the three entries are still in [_expecting]. *)
Lemma close_rejects_pending_witness :
  let c := three_pending manual in
  let c' := step constants (20, OnClose (Some lost)) c in
  promises c' !! 2%nat = Some (Rejected (ConnectionError "1006: gone")) /\
  map fst (_expecting c') = ["n1"; "n2"; "n3"]%string /\
  settled (drop (length (trace c)) (trace c'))
  = [(1%nat, Rejected (ConnectionError "1006: gone"));
     (2%nat, Rejected (ConnectionError "1006: gone"));
     (3%nat, Rejected (ConnectionError "1006: gone"))].
Proof.
  cbn zeta.
  destruct (close_rejects_pending constants (three_pending manual) 20 lost)
    as (Hent & _ & _ & Hexp & _).
  { vm_compute. discriminate. }
  split; [|split].
  - apply (Hent "n2"%string {| promise := 2; timeout := 2 |}).
    + vm_compute. auto.
    + vm_compute. reflexivity.
  - rewrite Hexp. vm_compute. reflexivity.
  - vm_compute. reflexivity.
Defined.

(** Claim C3 at its failing input.  Three requests are pending when the
    transport emits ['close'].  Their promises are rejected with
    [ConnectionError], in the order of their registration; but their three
    entries are still in [_expecting] afterwards.  The other ways out of the
    table do remove entries: the timeout of a request removes its entry, and
    [destroy()] clears the table. *)
Theorem close_leaves_table_full :
  let c := three_pending manual in
  let c' := step constants (20, OnClose (Some lost)) c in
  map fst (_expecting c) = ["n1"; "n2"; "n3"]%string /\
  settled (drop (length (trace c)) (trace c'))
  = [(1%nat, Rejected (ConnectionError "1006: gone"));
     (2%nat, Rejected (ConnectionError "1006: gone"));
     (3%nat, Rejected (ConnectionError "1006: gone"))] /\
  map fst (_expecting c') = ["n1"; "n2"; "n3"]%string /\
  map fst (_expecting (step constants (10010, Fire 1%nat) c)) = ["n2"; "n3"]%string /\
  _expecting (Lifecycle.destroy c) = [].
Proof. vm_compute. repeat split. Qed.

End CloseWitness.
(** ** ipc.js: the walk over the instances *)
Section WalkFacts.
Import IPC.

Lemma getIPC_accepts accepts id :
  accepts id = true -> getIPC accepts id = ([id], inl id).
Proof. intros H. rewrite getIPC_equation_1, H. reflexivity. Qed.

Lemma getIPC_next accepts id :
  accepts id = false -> (id < 10)%nat ->
  getIPC accepts id = (id :: (getIPC accepts (S id)).1, (getIPC accepts (S id)).2).
Proof.
  intros H Hlt. rewrite getIPC_equation_1, H. cbn.
  destruct (lt_dec id 10); [reflexivity|lia].
Qed.

Lemma getIPC_last accepts id :
  accepts id = false -> (10 <= id)%nat ->
  getIPC accepts id = ([id], inr ConnectionFailed).
Proof.
  intros H Hge. rewrite getIPC_equation_1, H. cbn.
  destruct (lt_dec id 10); [lia|reflexivity].
Qed.

Lemma getIPC_found accepts n : forall d id,
  (id + d = n)%nat -> (n <= 10)%nat -> accepts n = true ->
  (forall i, (id <= i < n)%nat -> accepts i = false) ->
  getIPC accepts id = (seq id (S d), inl n).
Proof.
  induction d as [|d IH]; intros id Hd Hn Hacc Hno.
  - assert (E : n = id) by lia. rewrite E in *. now apply getIPC_accepts.
  - rewrite getIPC_next; [|apply Hno; lia|lia].
    rewrite (IH (S id)); [reflexivity|lia|exact Hn|exact Hacc|].
    intros i Hi. apply Hno. lia.
Qed.

Lemma getIPC_none accepts : forall d id,
  (id + d = 10)%nat ->
  (forall i, (id <= i <= 10)%nat -> accepts i = false) ->
  getIPC accepts id = (seq id (S d), inr ConnectionFailed).
Proof.
  induction d as [|d IH]; intros id Hd Hno.
  - rewrite getIPC_last; [reflexivity|apply Hno; lia|lia].
  - rewrite getIPC_next; [|apply Hno; lia|lia].
    rewrite (IH (S id)); [reflexivity|lia|]. intros i Hi. apply Hno. lia.
Qed.

(** X1. [getIPC()] tries the instances from 0 upwards, one after
    the other, and stops at the first that accepts the connection, to whose
    socket it resolves; it goes as far as instance 10, so that eleven
    instances are tried before it rejects with [ConnectionFailed].  Called
    with an instance above 10 it tries that one only. *)
Theorem getIPC_walk (accepts : nat -> bool) :
  (forall n, (n <= 10)%nat -> accepts n = true ->
             (forall i, (i < n)%nat -> accepts i = false) ->
             getIPC accepts 0 = (seq 0 (S n), inl n)) /\
  ((forall i, (i <= 10)%nat -> accepts i = false) ->
   getIPC accepts 0 = (seq 0 11, inr ConnectionFailed)) /\
  (forall id, (10 < id)%nat ->
              getIPC accepts id
              = ([id], if accepts id then inl id else inr ConnectionFailed)).
Proof.
  split; [|split].
  - intros n Hn Hacc Hno. apply (getIPC_found accepts n n 0%nat); auto.
    intros i Hi. apply Hno. lia.
  - intros Hno. apply (getIPC_none accepts 10 0%nat); [reflexivity|].
    intros i Hi. apply Hno. lia.
  - intros id Hid. destruct (accepts id) eqn:H.
    + now apply getIPC_accepts.
    + apply getIPC_last; [exact H|lia].
Qed.

End WalkFacts.

(** ** ipc.js: the probe of the endpoint *)
Section ProbeFacts.
Import IPC Endpoint.

Lemma findEndpoint_over status tries :
  (30 < tries)%nat -> findEndpoint status tries = ([], inr MissingEndpoint).
Proof.
  intros H. rewrite findEndpoint_equation_1.
  destruct (gt_dec tries 30); [reflexivity|lia].
Qed.

Lemma findEndpoint_hit status tries :
  (tries <= 30)%nat -> status tries = Some 404 ->
  findEndpoint status tries = ([endpoint tries], inl (endpoint tries)).
Proof.
  intros H Hs. rewrite findEndpoint_equation_1.
  destruct (gt_dec tries 30); [lia|]. cbn. rewrite Hs. cbn. reflexivity.
Qed.

Lemma findEndpoint_miss status tries :
  (tries <= 30)%nat -> status tries <> Some 404 ->
  findEndpoint status tries
  = (endpoint tries :: (findEndpoint status (S tries)).1,
     (findEndpoint status (S tries)).2).
Proof.
  intros H Hs. rewrite findEndpoint_equation_1.
  destruct (gt_dec tries 30); [lia|]. cbn.
  destruct (status tries) as [s|]; cbn; [|reflexivity].
  destruct (Z.eq_dec s 404); [congruence|reflexivity].
Qed.

Lemma findEndpoint_found status t : forall d tries,
  (tries + d = t)%nat -> (t <= 30)%nat -> status t = Some 404 ->
  (forall i, (tries <= i < t)%nat -> status i <> Some 404) ->
  findEndpoint status tries = (map endpoint (seq tries (S d)), inl (endpoint t)).
Proof.
  induction d as [|d IH]; intros tries Hd Ht Hs Hno.
  - assert (E : t = tries) by lia. rewrite E in *. now apply findEndpoint_hit.
  - rewrite findEndpoint_miss; [|lia|apply Hno; lia].
    rewrite (IH (S tries)); [reflexivity|lia|exact Ht|exact Hs|].
    intros i Hi. apply Hno. lia.
Qed.

Lemma findEndpoint_none status : forall d tries,
  (tries + d = 31)%nat ->
  (forall i, (tries <= i <= 30)%nat -> status i <> Some 404) ->
  findEndpoint status tries = (map endpoint (seq tries d), inr MissingEndpoint).
Proof.
  induction d as [|d IH]; intros tries Hd Hno.
  - apply findEndpoint_over. lia.
  - rewrite findEndpoint_miss; [|lia|apply Hno; lia].
    rewrite (IH (S tries)); [reflexivity|lia|]. intros i Hi. apply Hno. lia.
Qed.

(** X2. [findEndpoint()] fetches the ports 6463 to 6472 of
    the local host in turn, starting again at 6463 after 6472, and returns
    the first endpoint that answers with status 404; any other status and a
    failed fetch alike make it go on.  After 31 fetches without a 404 it
    throws [MissingEndpoint]. *)
Theorem findEndpoint_probe (status : nat -> option Z) :
  (forall t, (t <= 30)%nat -> status t = Some 404 ->
             (forall i, (i < t)%nat -> status i <> Some 404) ->
             findEndpoint status 0 = (map endpoint (seq 0 (S t)), inl (endpoint t))) /\
  ((forall i, (i <= 30)%nat -> status i <> Some 404) ->
   findEndpoint status 0 = (map endpoint (seq 0 31), inr MissingEndpoint)) /\
  (forall t, 6463 <= port t <= 6472 /\ port (t + 10) = port t) /\
  (forall t, (t < 10)%nat -> port t = 6463 + Z.of_nat t).
Proof.
  split; [|split; [|split]].
  - intros t Ht Hs Hno. apply (findEndpoint_found status t t 0%nat); auto.
    intros i Hi. apply Hno. lia.
  - intros Hno. apply (findEndpoint_none status 31 0%nat); [reflexivity|].
    intros i Hi. apply Hno. lia.
  - intros t. unfold port. split.
    + pose proof (Nat.mod_upper_bound t 10 ltac:(lia)). lia.
    + f_equal. f_equal.
      replace (t + 10)%nat with (t + 1 * 10)%nat by lia. apply Nat.Div0.mod_add.
  - intros t Ht. unfold port. now rewrite Nat.mod_small.
Qed.

End ProbeFacts.

(** ** ipc.js: the path of a socket *)
Section PathFacts.
Import JSON Paths.

Lemma print_number_inj z z' : print_number z = print_number z' -> z = z'.
Proof.
  intros H.
  pose proof (parse_number_print z [] I) as H1.
  pose proof (parse_number_print z' [] I) as H2.
  rewrite H in H1. rewrite H1 in H2. now injection H2.
Qed.

Lemma strip_slash_slash d : strip_slash (d ++ lit "/") = d.
Proof.
  unfold strip_slash, lit. cbn [list_ascii_of_string]. rewrite rev_app_distr. cbn [rev app].
  now rewrite rev_involutive.
Qed.

Lemma strip_slash_other d c : c <> "/"%char -> strip_slash (d ++ [c]) = d ++ [c].
Proof.
  intros Hc. unfold strip_slash. rewrite rev_app_distr. cbn [rev app].
  destruct (Ascii.eqb_spec c "/"); [done|reflexivity].
Qed.

Lemma or_unset a b : unset a -> or a b = b.
Proof. now intros [->| ->]. Qed.

Lemma or_set d b : d <> [] -> or (Some d) b = Some d.
Proof. now destruct d. Qed.

(** X3. The path of instance [id].  Two instances never share a
    path.  Off Windows the directory is the first of [XDG_RUNTIME_DIR],
    [TMPDIR], [TMP] and [TEMP], in this order, that is set and not empty, and
    [/tmp] when there is none; one slash at its end is dropped, so that a
    directory given with or without it leads to the same path.  On Windows
    the path is that of the named pipe, whatever the environment. *)
Theorem getIPCPath_spec (p : Process) (i j : nat) :
  (i <> j -> getIPCPath p i <> getIPCPath p j) /\
  (platform p <> "win32"%string ->
   (forall d, prefix p = d ++ lit "/" ->
              getIPCPath p i = d ++ lit "/discord-ipc-" ++ print_number (Z.of_nat i)) /\
   (forall d c, prefix p = d ++ [c] -> c <> "/"%char ->
                getIPCPath p i
                = d ++ [c] ++ lit "/discord-ipc-" ++ print_number (Z.of_nat i))) /\
  (forall d, d <> [] -> XDG_RUNTIME_DIR p = Some d -> prefix p = d) /\
  (forall d, d <> [] -> unset (XDG_RUNTIME_DIR p) -> TMPDIR p = Some d -> prefix p = d) /\
  (forall d, d <> [] -> unset (XDG_RUNTIME_DIR p) -> unset (TMPDIR p) ->
             TMP p = Some d -> prefix p = d) /\
  (forall d, d <> [] -> unset (XDG_RUNTIME_DIR p) -> unset (TMPDIR p) -> unset (TMP p) ->
             TEMP p = Some d -> prefix p = d) /\
  (unset (XDG_RUNTIME_DIR p) -> unset (TMPDIR p) -> unset (TMP p) -> unset (TEMP p) ->
   prefix p = lit "/tmp") /\
  (platform p = "win32"%string ->
   getIPCPath p i = lit "\\?\pipe\discord-ipc-" ++ print_number (Z.of_nat i)).
Proof.
  split; [|split; [|split; [|split; [|split; [|split; [|split]]]]]].
  - intros Hij Heq. unfold getIPCPath in Heq.
    destruct (String.eqb (platform p) "win32").
    + apply app_inv_head, print_number_inj in Heq. lia.
    + apply app_inv_head, app_inv_head, print_number_inj in Heq. lia.
  - intros Hp. unfold getIPCPath.
    destruct (String.eqb_spec (platform p) "win32"); [done|]. split.
    + intros d ->. now rewrite strip_slash_slash.
    + intros d c -> Hc. rewrite strip_slash_other by exact Hc. now rewrite <- app_assoc.
  - intros d Hd Hx. unfold prefix. rewrite Hx.
    rewrite !(or_set d) by exact Hd. reflexivity.
  - intros d Hd Hx Ht. unfold prefix. rewrite (or_unset _ _ Hx), Ht.
    rewrite !(or_set d) by exact Hd. reflexivity.
  - intros d Hd Hx Ht Hm. unfold prefix.
    rewrite (or_unset _ _ Hx), (or_unset _ _ Ht), Hm.
    rewrite !(or_set d) by exact Hd. reflexivity.
  - intros d Hd Hx Ht Hm He. unfold prefix.
    rewrite (or_unset _ _ Hx), (or_unset _ _ Ht), (or_unset _ _ Hm), He.
    rewrite !(or_set d) by exact Hd. reflexivity.
  - intros H1 H2 H3 H4. unfold prefix.
    now rewrite (or_unset _ _ H1), (or_unset _ _ H2), (or_unset _ _ H3), (or_unset _ _ H4).
  - intros Hp. unfold getIPCPath. now rewrite Hp.
Qed.

End PathFacts.

(** ** ipc.js: frames *)
Section FrameLayout.
Import Buffer IPC.

Lemma writeInt32LE_range z : writeInt32LE z = None <-> (z < - 2 ^ 31 \/ 2 ^ 31 <= z).
Proof.
  unfold writeInt32LE.
  destruct (Z.leb_spec (- 2 ^ 31) z), (Z.ltb_spec z (2 ^ 31)); cbn [andb];
    split; try discriminate; try lia; reflexivity.
Qed.

(** X4. The layout of a frame.  For an opcode of 32 bits and a text
    shorter than [2^31] bytes, [encode] gives the eight bytes of the header
    followed by the text of [JSON.stringify]: the two words of the header
    read back as the opcode and as the length of the text.  Outside these
    ranges [writeInt32LE] throws and there is no frame. *)
Theorem encode_layout (o : Z) (P : JSON.value) :
  let text := JSON.stringify P in
  (- 2 ^ 31 <= o < 2 ^ 31 -> byteLength text < 2 ^ 31 ->
   exists packet,
     encode o P = Some packet /\
     length packet = (8 + length text)%nat /\
     readInt32LE packet 0 = Some o /\
     readInt32LE packet 4 = Some (byteLength text) /\
     drop 8 packet = text /\
     slice packet 8 (byteLength text + 8) = text) /\
  (o < - 2 ^ 31 \/ 2 ^ 31 <= o \/ 2 ^ 31 <= byteLength text -> encode o P = None).
Proof.
  cbn zeta. split.
  - intros Ho Hlen.
    destruct (encode_shape o P Ho Hlen) as (h1 & h2 & He & Hl1 & Hl2 & Hr0 & Hr4).
    eexists. split; [exact He|]. split; [|split; [apply Hr0|split; [apply Hr4|split]]].
    + rewrite !length_app. lia.
    + rewrite app_assoc. apply drop_app_length'. rewrite length_app. lia.
    + rewrite app_assoc, slice_body; [|rewrite length_app; lia|unfold byteLength; lia].
      apply take_ge. unfold byteLength. lia.
  - intros H. unfold encode.
    destruct (writeInt32LE o) as [h1|] eqn:H1; [|reflexivity].
    destruct (writeInt32LE (byteLength (JSON.stringify P))) as [h2|] eqn:H2; [|reflexivity].
    exfalso.
    assert (G1 : ~ (o < - 2 ^ 31 \/ 2 ^ 31 <= o)).
    { intros G. apply writeInt32LE_range in G. congruence. }
    assert (G2 : ~ (byteLength (JSON.stringify P) < - 2 ^ 31
                    \/ 2 ^ 31 <= byteLength (JSON.stringify P))).
    { intros G. apply writeInt32LE_range in G. congruence. }
    lia.
Qed.

(** X6. A read of fewer than eight bytes that comes while no
    message is pending makes [decode] throw, from [readInt32LE], before any
    call of the callback and whatever reads would follow: nothing is kept of
    the packet, except that with four bytes or more the first word is left
    in [state.op]. *)
Theorem decode_short_packet_throws (st : State) (packet : Buffer.t)
    (socket : list Buffer.t) :
  full st = [] -> (length packet < 8)%nat ->
  exists st',
    decode st (packet :: socket) = Threw st' [] /\
    full st' = [] /\
    ((length packet < 4)%nat -> st' = st) /\
    ((4 <= length packet)%nat -> op st' = readInt32LE packet 0 /\ is_Some (op st')).
Proof.
  intros Hf Hlen. cbn [decode]. unfold decode_packet. rewrite Hf.
  destruct packet as [|b0 [|b1 [|b2 [|b3 p4]]]];
    try (eexists; split; [reflexivity|]; split; [exact Hf|];
         split; [reflexivity|]; cbn [length]; lia).
  assert (Hr : readInt32LE (b0 :: b1 :: b2 :: b3 :: p4) 4 = None).
  { unfold readInt32LE. cbn [skipn].
    destruct p4 as [|b4 [|b5 [|b6 [|b7 p8]]]]; try reflexivity. cbn [length] in Hlen. lia. }
  destruct (readInt32LE (b0 :: b1 :: b2 :: b3 :: p4) 0) as [o|] eqn:Ho.
  - rewrite Hr. eexists. split; [reflexivity|]. cbn [full IPC.op].
    split; [reflexivity|]. split; [cbn [length]; lia|]. intros _. split; eauto.
  - discriminate Ho.
Qed.

End FrameLayout.

Section FrameWitnesses.
Import Buffer IPC.

(** A header cut after its fifth byte. *)
Lemma decode_short_packet_throws_witness :
  decode initial [[byte_of 1 0; byte_of 1 1; byte_of 1 2; byte_of 1 3; byte_of 2 0]]
  = Threw {| full := []; op := Some 1 |} [].
Proof.
  assert (H1 : full initial = []) by reflexivity.
  assert (H2 : (length [byte_of 1 0; byte_of 1 1; byte_of 1 2; byte_of 1 3; byte_of 2 0]
                < 8)%nat) by (cbn [length]; lia).
  destruct (decode_short_packet_throws initial _ [] H1 H2) as (st' & Hd & Hf & _ & Hop).
  refine (eq_trans Hd _). destruct st' as [f o]. cbn [full IPC.op] in *. subst f.
  destruct Hop as [Ho _]; [cbn [length]; lia|]. rewrite Ho.
  vm_compute. reflexivity.
Defined.

End FrameWitnesses.
(** ** ipc.js over any runtime: the decoder *)
Section WireDecoder.
Import Buffer Wire.
Variable value : Type.
Variable stringify : value -> option jsstring.
Variable parse : jsstring -> option value.
Variable utf8 : jsstring -> Buffer.t.
Variable toString : Buffer.t -> jsstring.
Variable E : Type.
Variable callback : Message value -> list E * bool.

Lemma header_app h o len rest :
  header h o len ->
  readInt32LE (h ++ rest) 0 = Some o /\ readInt32LE (h ++ rest) 4 = Some len.
Proof.
  intros (Hl & H0 & H4).
  destruct h as [|b0 [|b1 [|b2 [|b3 [|b4 [|b5 [|b6 [|b7 [|b8 h]]]]]]]]];
    try discriminate Hl.
  split; [exact H0|exact H4].
Qed.

(** The first packet of a frame, in a state with nothing pending: the header
    is read and the bytes that the length covers are decoded, whatever
    follows them in the packet. *)
Lemma decode_packet_frame st h o len body rest :
  full st = [] -> header h o len -> 0 <= len -> length body = Z.to_nat len ->
  decode_packet parse toString callback st (h ++ body ++ rest)
  = inl (parse_step parse callback {| full := []; op := Some o |} (Some o)
           (toString body)).
Proof.
  intros Hf Hh Hlen Hb. unfold decode_packet.
  destruct (header_app h o len (body ++ rest) Hh) as [-> ->]. rewrite Hf.
  rewrite slice_body; [|apply Hh|exact Hlen].
  rewrite <- Hb, take_app_length. reflexivity.
Qed.

Lemma decode_packet_pending st packet :
  full st <> [] ->
  decode_packet parse toString callback st packet
  = inl (parse_step parse callback st (op st) (toString packet)).
Proof. intros Hf. unfold decode_packet. now destruct (full st). Qed.

Lemma wire_readable_decode st chunks :
  readable parse toString callback st chunks = decode parse toString callback st chunks.
Proof.
  revert st. induction chunks as [|c cs IH]; intros st; [reflexivity|].
  cbn [readable decode].
  destruct (decode_packet parse toString callback st c) as [[st' effs]|st']; [|reflexivity].
  cbn [called]. now rewrite app_nil_r, IH.
Qed.

(** Once a text is pending and every packet holds the byte zero, nothing
    parses: the texts of the packets pile up. *)
Lemma decode_dead :
  (forall b, In NUL b -> In 0%N (toString b)) ->
  (forall s, In 0%N s -> parse s = None) ->
  forall packets st,
    full st <> [] -> Forall (fun p => In NUL p) packets ->
    decode parse toString callback st packets
    = Returned {| full := full st ++ concat (map toString packets); op := op st |} [].
Proof.
  intros L1 L2. induction packets as [|p ps IH]; intros st Hf Hall.
  - cbn [decode map concat]. rewrite app_nil_r. now destruct st.
  - inversion Hall as [|? ? Hp Hps]; subst. cbn [decode].
    rewrite decode_packet_pending by exact Hf. unfold parse_step.
    rewrite L2 by (apply in_or_app; right; now apply L1).
    rewrite IH; [|cbn [full]; now destruct (full st)|exact Hps].
    cbn [called full Wire.op app map concat]. now rewrite app_assoc.
Qed.

(** The word that [writeInt32LE] stores for a number below 256 holds the
    byte zero. *)
Lemma writeInt32LE_NUL o h : 0 <= o < 256 -> writeInt32LE o = Some h -> In NUL h.
Proof.
  intros Ho H. unfold writeInt32LE in H.
  destruct ((- 2 ^ 31 <=? o) && (o <? 2 ^ 31)); [|discriminate].
  injection H as <-. right. left. unfold byte_of, NUL.
  rewrite Z.shiftr_div_pow2 by lia. change (8 * 1) with 8.
  rewrite Z.div_small by (change (2 ^ 8) with 256; lia). reflexivity.
Qed.


Lemma slice_past_end (b : Buffer.t) (stop : Z) : slice b (Z.of_nat (length b)) stop = [].
Proof.
  unfold slice, adjustOffset.
  destruct (Z.ltb_spec (Z.of_nat (length b)) 0); [lia|].
  rewrite Z.min_id.
  match goal with |- (if ?c then _ else _) = _ => destruct c end; [|reflexivity].
  rewrite drop_ge by lia. apply take_nil.
Qed.

Lemma readInt32LE_short (b : Buffer.t) :
  (length b < 8)%nat -> readInt32LE b 0 = None \/ readInt32LE b 4 = None.
Proof.
  intros H.
  destruct b as [|b0 [|b1 [|b2 [|b3 [|b4 [|b5 [|b6 [|b7 b]]]]]]]];
    cbn [length] in H; try lia; try (now left); now right.
Qed.

(** X22. A frame that is cut right after its header, for any
    frame and any runtime whose [toString] gives the empty string for the
    empty buffer and whose [JSON.parse] rejects the empty string.  The chunk
    of the header leaves nothing pending: the empty text does not parse, and
    appending it leaves [state.full] empty.  So the chunk that follows, which
    holds the payload, is read as the first packet of a frame, its first
    eight bytes being taken for a header; when it is shorter than eight bytes
    the handler throws and the payload is lost. *)
Theorem frame_split_after_header (st : State) (h body : Buffer.t) (o len : Z) :
  full st = [] -> header h o len ->
  toString [] = [] -> parse [] = None ->
  decode parse toString callback st [h]
  = Returned {| full := []; op := Some o |} [] /\
  readable parse toString callback st [h; body]
  = readable parse toString callback {| full := []; op := Some o |} [body] /\
  ((length body < 8)%nat ->
   exists st', readable parse toString callback st [h; body] = Threw st' [] /\
               full st' = []).
Proof.
  intros Hf Hh Ht Hp.
  assert (Hd : decode_packet parse toString callback st h
               = inl ({| full := []; op := Some o |}, [])).
  { unfold decode_packet. destruct Hh as (Hl & H0 & H4). rewrite Hf, H0, H4.
    replace 8 with (Z.of_nat (length h)) at 1 by (rewrite Hl; reflexivity).
    rewrite slice_past_end, Ht. unfold parse_step. cbn [full app Wire.op].
    now rewrite Hp. }
  split; [|split].
  - cbn [decode]. now rewrite Hd.
  - cbn [readable decode]. rewrite Hd. cbn [called app].
    destruct (decode_packet parse toString callback _ body) as [[st' effs]|st'];
      reflexivity.
  - intros Hb. cbn [readable decode]. rewrite Hd. cbn [called app].
    unfold decode_packet. cbn [full].
    destruct (readInt32LE body 0) as [o'|] eqn:H0; [|eauto].
    destruct (readInt32LE_short body Hb) as [H|H]; [congruence|]. rewrite H. eauto.
Qed.

(** X18. A frame that reaches the decoder whole, on a runtime
    where the text of the payload [P] survives the UTF-8 coding and parses
    back to [P]: for an opcode of 32 bits and a text shorter than [2^31]
    bytes, [encode] gives a packet on which [decode], with nothing pending,
    calls the callback once, with the opcode and [P], and is left with
    nothing pending, unless an exception leaves the callback: then the text
    stays pending. *)
Theorem decode_encode_whole (o : Z) (P : value) (s : jsstring) (st : State) :
  stringify P = Some s ->
  parse (toString (utf8 s)) = Some P ->
  - 2 ^ 31 <= o < 2 ^ 31 ->
  Z.of_nat (length (utf8 s)) < 2 ^ 31 ->
  full st = [] ->
  let m := {| msg_op := Some o; msg_data := P |} in
  exists packet,
    encode stringify utf8 o P = Some packet /\
    length packet = (8 + length (utf8 s))%nat /\
    decode parse toString callback st [packet]
    = Returned (if (callback m).2
                then {| full := toString (utf8 s); op := Some o |}
                else initial)
        (callback m).1.
Proof.
  intros Hs Hp Ho Hlen Hf. cbn zeta.
  assert (Hl : - 2 ^ 31 <= Z.of_nat (length (utf8 s)) < 2 ^ 31) by lia.
  destruct (read_write_Int32LE o [] Ho) as (h1 & Hw1 & Hl1 & Hr1).
  destruct (read_write_Int32LE _ [] Hl) as (h2 & Hw2 & Hl2 & Hr2).
  rewrite app_nil_r in Hr1, Hr2.
  assert (Hh : header (h1 ++ h2) o (Z.of_nat (length (utf8 s)))).
  { split; [rewrite length_app; lia|]. split.
    - destruct (read_write_Int32LE o h2 Ho) as (h & Hw & _ & Hr). congruence.
    - rewrite readInt32LE_skip by exact Hl1. exact Hr2. }
  exists ((h1 ++ h2) ++ utf8 s). split; [|split].
  - unfold encode. rewrite Hs, Hw1, Hw2, Nat2Z.id, firstn_all.
    now rewrite <- app_assoc.
  - rewrite !length_app. lia.
  - cbn [decode].
    pose proof (decode_packet_frame st (h1 ++ h2) o _ (utf8 s) [] Hf Hh
                  ltac:(lia) ltac:(now rewrite Nat2Z.id)) as H.
    rewrite app_nil_r in H. rewrite H. unfold parse_step. cbn [full app].
    rewrite Hp. cbn zeta.
    destruct (callback {| msg_op := Some o; msg_data := P |}) as [effs []];
      cbn [fst snd called]; now rewrite app_nil_r.
Qed.

(** X7. An exception that leaves the callback of [decode], as one
    of a listener does, is caught by the [catch] that is meant for
    [JSON.parse]: the text of the frame, which did parse, is kept in
    [state.full] as if it were incomplete.  From then on every packet is
    appended to it as text.  On a runtime where [toString] keeps the byte
    zero as the code unit zero and [JSON.parse] rejects the empty text and
    every text that holds that code unit, as those of JavaScript do, nothing
    parses again while the packets hold a byte zero, and the callback is
    never called again; every frame that [encode] makes with an opcode below
    256 holds such a byte, in its header. *)
Theorem listener_exception_poisons_decoder (h body : Buffer.t) (o len : Z)
    (data : value) (packets : list Buffer.t) :
  (forall b, In NUL b -> In 0%N (toString b)) ->
  (forall s, In 0%N s -> parse s = None) ->
  parse [] = None ->
  header h o len -> 0 <= len -> length body = Z.to_nat len ->
  parse (toString body) = Some data ->
  (callback {| msg_op := Some o; msg_data := data |}).2 = true ->
  Forall (fun p => In NUL p) packets ->
  readable parse toString callback initial ((h ++ body) :: packets)
  = Returned {| full := toString body ++ concat (map toString packets);
                op := Some o |}
      (callback {| msg_op := Some o; msg_data := data |}).1 /\
  (forall o' P packet, 0 <= o' < 256 ->
     encode stringify utf8 o' P = Some packet -> In NUL packet).
Proof.
  intros L1 L2 L3 Hh Hlen Hb Hp Hc Hall. split.
  - rewrite wire_readable_decode. cbn [decode].
    pose proof (decode_packet_frame initial h o len body [] eq_refl Hh Hlen Hb) as H.
    rewrite app_nil_r in H. rewrite H. unfold parse_step. cbn [full app Wire.op].
    rewrite Hp. cbn zeta. rewrite Hc.
    rewrite (decode_dead L1 L2 packets); [|cbn [full]|exact Hall].
    + cbn [called full Wire.op]. now rewrite app_nil_r.
    + intros Hnil. rewrite Hnil in Hp. congruence.
  - intros o' P packet Ho He. unfold encode in He.
    destruct (stringify P) as [s|]; [|discriminate].
    destruct (writeInt32LE o') as [h1|] eqn:H1; [|discriminate].
    destruct (writeInt32LE (Z.of_nat (length (utf8 s)))) as [h2|]; [|discriminate].
    cbv beta iota zeta in He. injection He as <-. apply in_or_app. left.
    now apply (writeInt32LE_NUL o').
Qed.

End WireDecoder.

(** ** ipc.js over any runtime: the callback of the transport *)
Section WireTransport.
Import Buffer Wire.
Import IPC.OPCodes.
Variable value : Type.
Variable stringify : value -> option jsstring.
Variable parse : jsstring -> option value.
Variable utf8 : jsstring -> Buffer.t.
Variable toString : Buffer.t -> jsstring.
Variable falsy : value -> bool.
Variable authorize : value -> bool.
Variable listener_throws : effect value -> bool.

(** One packet that holds a frame whose text parses. *)
Lemma receive_frame h body o len data :
  header h o len -> 0 <= len -> length body = Z.to_nat len ->
  parse (toString body) = Some data ->
  let r := on_frame stringify utf8 falsy authorize listener_throws
             {| msg_op := Some o; msg_data := data |} in
  receive stringify parse utf8 toString falsy authorize listener_throws initial
    [h ++ body]
  = Returned (if r.2 then {| full := toString body; op := Some o |} else initial) r.1.
Proof.
  intros Hh Hlen Hb Hp. cbn zeta. unfold receive. cbn [readable decode].
  pose proof (decode_packet_frame value parse toString _
                (on_frame stringify utf8 falsy authorize listener_throws)
                initial h o len body [] eq_refl Hh Hlen Hb) as H.
  rewrite app_nil_r in H. rewrite H. unfold parse_step. cbn [full app Wire.op].
  rewrite Hp. cbn zeta.
  destruct (on_frame stringify utf8 falsy authorize listener_throws
              {| msg_op := Some o; msg_data := data |}) as [effs []];
    cbn [fst snd called]; now rewrite !app_nil_r.
Qed.

(** X8. Keep-alive.  To a [PING] frame whose text parses the
    transport answers by one write and emits nothing.  What it writes is a
    [PONG] frame made by [encode] from the parsed value: the text of
    [JSON.stringify] of what [JSON.parse] returned, not the bytes that came.
    When [encode] throws on that value, nothing is written and the text of
    the [PING] stays pending in the decoder.  A [PONG] frame has no effect. *)
Theorem transport_echoes_ping (h body : Buffer.t) (o len : Z) (data : value) :
  header h o len -> 0 <= len -> length body = Z.to_nat len ->
  parse (toString body) = Some data ->
  let receive := receive stringify parse utf8 toString falsy authorize
                   listener_throws in
  (o = PING ->
   (forall s, stringify data = Some s -> Z.of_nat (length (utf8 s)) < 2 ^ 31 ->
      exists h', header h' PONG (Z.of_nat (length (utf8 s))) /\
                 encode stringify utf8 PONG data = Some (h' ++ utf8 s) /\
                 receive initial [h ++ body] = Returned initial [Write (h' ++ utf8 s)]) /\
   (encode stringify utf8 PONG data = None ->
      receive initial [h ++ body]
      = Returned {| full := toString body; op := Some PING |} [])) /\
  (o = PONG -> receive initial [h ++ body] = Returned initial []).
Proof.
  intros Hh Hlen Hb Hp. cbn zeta.
  pose proof (receive_frame h body o len data Hh Hlen Hb Hp) as R. cbn zeta in R.
  split.
  - intros ->. unfold on_frame in R. cbn [msg_op msg_data] in R.
    change (PING =? PING) with true in R. cbn iota in R. split.
    + intros s Hs Hl.
      assert (Hr : - 2 ^ 31 <= Z.of_nat (length (utf8 s)) < 2 ^ 31) by lia.
      destruct (read_write_Int32LE PONG [] ltac:(unfold PONG; lia))
        as (h1 & Hw1 & Hl1 & _).
      destruct (read_write_Int32LE _ [] Hr) as (h2 & Hw2 & Hl2 & Hr2).
      rewrite app_nil_r in Hr2.
      assert (He : encode stringify utf8 PONG data = Some ((h1 ++ h2) ++ utf8 s)).
      { unfold encode. rewrite Hs, Hw1, Hw2, Nat2Z.id, firstn_all.
        now rewrite <- app_assoc. }
      exists (h1 ++ h2). split; [|split; [exact He|]].
      * split; [rewrite length_app; lia|]. split.
        -- destruct (read_write_Int32LE PONG h2 ltac:(unfold PONG; lia))
             as (h0 & Hw & _ & Hr0). congruence.
        -- rewrite readInt32LE_skip by exact Hl1. exact Hr2.
      * rewrite He in R. exact R.
    + intros He. rewrite He in R. exact R.
  - intros ->. exact R.
Qed.


End WireTransport.

(** ** The decoder and the transport on the builtins of the fragment *)
Section WireWitnesses.
Import Buffer JSON Wire Fragment.
Import IPC.OPCodes.

Lemma toString_NUL b : In NUL b -> In 0%N (Fragment.toString b).
Proof. intros H. apply in_map_iff. exists NUL. now split. Qed.

Lemma parse_NUL s : In 0%N s -> Fragment.parse s = None.
Proof.
  intros H. unfold Fragment.parse.
  destruct (forallb _ s) eqn:F; [|reflexivity].
  rewrite forallb_forall in F. specialize (F _ H). discriminate F.
Qed.

Lemma header_of_header o len :
  - 2 ^ 31 <= o < 2 ^ 31 -> - 2 ^ 31 <= len < 2 ^ 31 -> header (header_of o len) o len.
Proof.
  intros Ho Hl. split; [reflexivity|].
  destruct (read_write_Int32LE o
              [byte_of len 0; byte_of len 1; byte_of len 2; byte_of len 3] Ho)
    as (h1 & Hw1 & _ & Hr1).
  destruct (read_write_Int32LE len [] Hl) as (h2 & Hw2 & _ & Hr2).
  unfold writeInt32LE in Hw1, Hw2.
  destruct ((- 2 ^ 31 <=? o) && (o <? 2 ^ 31)); [|discriminate].
  destruct ((- 2 ^ 31 <=? len) && (len <? 2 ^ 31)); [|discriminate].
  injection Hw1 as <-. injection Hw2 as <-. split; [exact Hr1|].
  rewrite app_nil_r in Hr2. exact Hr2.
Qed.


(** The frame of [encode(1, 12)] cut after its header: the payload is read as
    a header and the handler throws. *)
Lemma frame_split_after_header_witness :
  readable Fragment.parse Fragment.toString record initial [header_of 1 2; lit "12"]
  = Threw {| full := []; op := Some 1 |} [].
Proof.
  destruct (frame_split_after_header value Fragment.parse Fragment.toString _ record
              initial (header_of 1 2) (lit "12") 1 2 eq_refl
              (header_of_header 1 2 ltac:(lia) ltac:(lia)) eq_refl eq_refl)
    as (_ & H & _).
  refine (eq_trans H _). vm_compute. reflexivity.
Defined.

(** A dispatch, encoded and decoded in one piece. *)
Lemma decode_encode_whole_witness :
  let P := JObj [(lit "cmd", JStr (lit "DISPATCH")); (lit "data", JNull)] in
  exists packet,
    encode Fragment.stringify Fragment.utf8 1 P = Some packet /\
    decode Fragment.parse Fragment.toString record initial [packet]
    = Returned initial [{| msg_op := Some 1; msg_data := P |}].
Proof.
  cbn zeta.
  destruct (decode_encode_whole value Fragment.stringify Fragment.parse Fragment.utf8
              Fragment.toString _ record 1
              (JObj [(lit "cmd", JStr (lit "DISPATCH")); (lit "data", JNull)])
              (units (JSON.stringify
                 (JObj [(lit "cmd", JStr (lit "DISPATCH")); (lit "data", JNull)])))
              initial eq_refl ltac:(vm_compute; reflexivity) ltac:(lia)
              ltac:(vm_compute; reflexivity) eq_refl)
    as (packet & He & _ & Hd).
  exists packet. split; [exact He|exact Hd].
Defined.

(** A listener throws on the first frame; the two frames that follow are
    kept as text and the callback is not called for them. *)
Lemma listener_exception_poisons_decoder_witness :
  readable Fragment.parse Fragment.toString throwing initial
    [header_of 1 1 ++ lit "7"; header_of 1 1 ++ lit "8"; header_of 3 1 ++ lit "9"]
  = Returned {| full := Fragment.toString (lit "7")
                        ++ concat (map Fragment.toString
                                     [header_of 1 1 ++ lit "8"; header_of 3 1 ++ lit "9"]);
                op := Some 1 |}
      [{| msg_op := Some 1; msg_data := JNum 7 |}].
Proof.
  refine (proj1 (listener_exception_poisons_decoder value Fragment.stringify
                   Fragment.parse Fragment.utf8 Fragment.toString _ throwing
                   (header_of 1 1) (lit "7") 1 1 (JNum 7)
                   [header_of 1 1 ++ lit "8"; header_of 3 1 ++ lit "9"]
                   toString_NUL parse_NUL eq_refl
                   (header_of_header 1 1 ltac:(lia) ltac:(lia)) ltac:(lia) eq_refl
                   eq_refl eq_refl _)).
  repeat constructor; vm_compute; tauto.
Defined.

(** A [PING] whose text has a space before the number: the [PONG] holds the
    number without it. *)
Lemma transport_echoes_ping_witness :
  exists h',
    header h' PONG 1 /\
    receive Fragment.stringify Fragment.parse Fragment.utf8 Fragment.toString
      falsy authorize quiet initial [header_of PING 2 ++ lit " 7"]
    = Returned initial [Write (h' ++ lit "7")].
Proof.
  destruct (transport_echoes_ping value Fragment.stringify Fragment.parse Fragment.utf8
              Fragment.toString falsy authorize quiet
              (header_of PING 2) (lit " 7") PING 2 (JNum 7)
              (header_of_header PING 2 ltac:(unfold PING; lia) ltac:(lia))
              ltac:(lia) eq_refl eq_refl) as [H _].
  destruct (H eq_refl) as [H1 _].
  destruct (H1 (units (lit "7")) eq_refl ltac:(vm_compute; reflexivity))
    as (h' & Hh & _ & Hr).
  exists h'. split; [exact Hh|exact Hr].
Defined.


End WireWitnesses.
(** ** RpcClient: what the client refers to *)
Section AvoidFacts.
Import RpcClient Observe Track.
Variable k : Constants.
Variables (P T : nat) (tok : option string).

Lemma avoids_same c c' :
  _expecting c' = _expecting c -> timers c' = timers c -> nextTimer c' = nextTimer c ->
  onConnected c' = onConnected c -> onClose c' = onClose c ->
  avoids P T tok c -> avoids P T tok c'.
Proof. intros E1 E2 E3 E4 E5 [H1 H2 H3 H4 H5]. split; rewrite ?E1, ?E2, ?E3, ?E4, ?E5; auto. Qed.

Lemma avoids_fold {A} (f : Client -> A -> Client) l :
  (forall c x, avoids P T tok c -> avoids P T tok (f c x)) ->
  forall c, avoids P T tok c -> avoids P T tok (fold_left f l c).
Proof.
  intros Hf. induction l as [|x l IH]; intros c Hc; [exact Hc|].
  cbn [fold_left]. apply IH. now apply Hf.
Qed.

Lemma avoids_log e c : avoids P T tok c -> avoids P T tok (log e c).
Proof. now apply avoids_same. Qed.

Lemma avoids_settle p s c : avoids P T tok c -> avoids P T tok (settle p s c).
Proof.
  intros H. unfold settle. destruct (promises c !! p) as [[| |]|]; try exact H.
  revert H. now apply avoids_same.
Qed.

Lemma avoids_clearTimeout t c : avoids P T tok c -> avoids P T tok (clearTimeout t c).
Proof.
  intros [H1 H2 H3 H4 H5]. split; prj; auto.
  - intros t' tm Ht. apply lookup_delete_Some in Ht as [_ Ht]. eauto.
  - intros t' tm Ht. apply lookup_delete_Some in Ht as [_ Ht]. eauto.
Qed.

Lemma avoids_setTimeout now a d c :
  action_free tok P a -> avoids P T tok c -> avoids P T tok (setTimeout now a d c).2.
Proof.
  intros Ha [H1 H2 H3 H4 H5]. split; prj; auto.
  - intros t' tm Ht. apply lookup_insert_Some in Ht as [[_ <-]|[_ Ht]]; eauto.
  - intros t' tm Ht. apply lookup_insert_Some in Ht as [[<- _]|[_ Ht]]; [lia|].
    specialize (H5 _ _ Ht). lia.
Qed.

Lemma avoids_entry_settle e s c : avoids P T tok c -> avoids P T tok (entry_settle e s c).
Proof. intros H. now apply avoids_settle, avoids_clearTimeout. Qed.

Lemma avoids_tryReconnect now id c :
  avoids P T tok c -> avoids P T tok (_tryReconnect now id c).
Proof.
  intros H. unfold _tryReconnect. destruct (_ >=? _); [now apply avoids_log|].
  apply avoids_setTimeout; [exact I|]. revert H. now apply avoids_same.
Qed.

Lemma avoids_run_job now j c : avoids P T tok c -> avoids P T tok (run_job now j c).
Proof.
  intros H. unfold run_job. destruct (job_fulfilled j); [|now apply avoids_tryReconnect].
  revert H. now apply avoids_same.
Qed.

Lemma avoids_drain now c : avoids P T tok c -> avoids P T tok (drain now c).
Proof.
  intros H. unfold drain. apply avoids_fold; [intros; now apply avoids_run_job|].
  revert H. now apply avoids_same.
Qed.

Lemma avoids_connect now id c :
  (_connectPromise c = None -> length (promises c) <> P /\ nextTimer c <> T) ->
  avoids P T tok c -> avoids P T tok (connect now id c).2.
Proof.
  intros Hs H. unfold connect. destruct (_connectPromise c); [exact H|].
  destruct (Hs eq_refl) as [HP HT]. destruct H as [H1 H2 H3 H4 H5]. split; prj; auto.
  - intros t' tm Ht Hne. apply lookup_insert_Some in Ht as [[_ <-]|[_ Ht]]; [exact HP|eauto].
  - intros t' q Hin. apply in_app_or in Hin as [Hin|[[= <- <-]|[]]]; auto.
  - intros id' q Hin. apply in_app_or in Hin as [Hin|[[= <- <-]|[]]]; eauto.
  - intros t' tm Ht. apply lookup_insert_Some in Ht as [[<- _]|[_ Ht]]; [lia|].
    specialize (H5 _ _ Ht). lia.
Qed.

Lemma In_map_set {V} (key : string) (v : V) (l : list (string * V)) n e :
  In (n, e) (map_set key v l) -> (n, e) = (key, v) \/ In (n, e) l.
Proof.
  induction l as [|[k' v'] l IH]; cbn [map_set].
  - intros [H|[]]. now left.
  - destruct (String.eqb k' key).
    + intros [H|H]; [now left|right; now right].
    + intros [H|H]; [right; now left|]. destruct (IH H); [now left|right; now right].
Qed.

Lemma In_map_delete {V} (key : string) (l : list (string * V)) x :
  In x (map_delete key l) -> In x l.
Proof. unfold map_delete. intros H. now apply filter_In in H. Qed.

Lemma avoids_request now cmd args evt token c :
  length (promises c) <> P -> nextTimer c <> T -> Some token <> tok ->
  avoids P T tok c -> avoids P T tok (request now cmd args evt token c).2.
Proof.
  intros HP HT Htok H. rewrite request_unfold. cbn zeta.
  match goal with |- context [settle _ _ ?x] => set (c1 := x) end.
  assert (G : avoids P T tok c1).
  { destruct H as [H1 H2 H3 H4 H5]. unfold c1. split; prj; auto.
    - intros n e Hin Hn. apply In_map_set in Hin as [[= -> ->]|Hin]; [auto|eauto].
    - intros t' tm Ht Hne. apply lookup_insert_Some in Ht as [[_ <-]|[_ Ht]]; [|eauto].
      cbn [callback action_free]. auto.
    - intros t' tm Ht. apply lookup_insert_Some in Ht as [[<- _]|[_ Ht]]; [lia|].
      specialize (H5 _ _ Ht). lia. }
  clearbody c1.
  destruct args as [a|]; [destruct (socket c)|];
    [now apply avoids_log|now apply avoids_settle..].
Qed.

Lemma avoids_delete n c :
  avoids P T tok c -> avoids P T tok (set_expecting (map_delete n (_expecting c)) c).
Proof.
  intros [H1 H2 H3 H4 H5]. split; prj; auto.
  intros n' e Hin. apply In_map_delete in Hin. eauto.
Qed.

Lemma avoids_connected_listener h c :
  avoids P T tok c -> avoids P T tok (connected_listener h c).
Proof.
  intros H. unfold connected_listener. apply avoids_settle.
  apply (avoids_same (clearTimeout h.1 c)); [reflexivity..|now apply avoids_clearTimeout].
Qed.

Lemma avoids_close_listener now ev h c :
  avoids P T tok c -> avoids P T tok (close_listener now ev h c).
Proof.
  intros H. unfold close_listener. apply avoids_settle.
  assert (H1 : avoids P T tok (log EmitDisconnected
                 (fold_left (fun c e => entry_settle e.2
                    (Rejected (ConnectionError (code ev +:+ ": " +:+ reason ev))) c)
                    (_expecting c) c))).
  { apply avoids_log, avoids_fold; [|exact H]. intros. now apply avoids_entry_settle. }
  match goal with |- avoids _ _ _ (if ?b then _ else _) => destruct b end;
    [now apply avoids_tryReconnect|exact H1].
Qed.

Lemma avoids_close_listener_null now h c :
  avoids P T tok c -> avoids P T tok (close_listener_null now h c).
Proof.
  intros H. unfold close_listener_null.
  destruct (_expecting c); [|now apply avoids_log].
  apply avoids_log.
  match goal with |- avoids _ _ _ (if ?b then _ else _) => destruct b end;
    [now apply avoids_tryReconnect, avoids_log|now apply avoids_log].
Qed.

Lemma avoids_emit_close now ev c :
  avoids P T tok c -> avoids P T tok (emit_close now ev c).
Proof.
  intros H. unfold emit_close. destruct ev as [ev|].
  - apply avoids_fold; [intros; now apply avoids_close_listener|].
    destruct H as [H1 H2 H3 H4 H5]. split; prj; auto.
  - destruct (onClose c) as [|h rest] eqn:E; [exact H|].
    apply avoids_close_listener_null.
    destruct H as [H1 H2 H3 H4 H5]. split; prj; auto.
    intros id q Hin. apply (H4 id q). rewrite E. now right.
Qed.

Lemma avoids_emit_connected c :
  avoids P T tok c -> avoids P T tok (emit_connected c).
Proof.
  intros H. unfold emit_connected.
  apply avoids_fold; [intros; now apply avoids_connected_listener|].
  destruct H as [H1 H2 H3 H4 H5]. split; prj; auto.
Qed.

Lemma avoids_emit_event evt d c :
  avoids P T tok c -> avoids P T tok (emit_event evt d c).
Proof.
  intros H. unfold emit_event. destruct (bool_decide _).
  - now apply avoids_emit_connected, avoids_log.
  - destruct (bool_decide _); [|now apply avoids_log].
    now apply avoids_log, avoids_log.
Qed.

Lemma avoids_onRpcMessage m c : avoids P T tok c -> avoids P T tok (_onRpcMessage k m c).
Proof.
  intros H. unfold _onRpcMessage. destruct (_ && _).
  - destruct (data_user (data m)) as [u|]; [|now apply avoids_log].
    apply avoids_fold; [intros; now apply avoids_connected_listener|].
    destruct H as [H1 H2 H3 H4 H5]. destruct u; split; prj; auto; intros ? ? [].
  - destruct (nonce m) as [n|]; [|now apply avoids_emit_event].
    destruct (map_get n (_expecting c)) as [e|]; [|now apply avoids_emit_event].
    destruct (bool_decide _).
    + destruct (data m) as [[]|]; try (now apply avoids_log);
        now apply avoids_delete, avoids_entry_settle.
    + now apply avoids_delete, avoids_entry_settle.
Qed.

Lemma avoids_fire now a c :
  (is_reconnect a = true -> length (promises c) <> P /\ nextTimer c <> T) ->
  avoids P T tok c -> avoids P T tok (fire now a c).
Proof.
  intros Hs H. destruct a as [p|token p|id]; cbn [fire].
  - now apply avoids_settle.
  - now apply avoids_settle, avoids_delete.
  - unfold reconnect_resume.
    pose proof (avoids_connect now id (set_connectPromise None c)) as G.
    destruct (connect now id (set_connectPromise None c)) as [p c'] eqn:E.
    cbn [snd] in G. prj.
    assert (G' : avoids P T tok c').
    { apply G; [intros _; now apply Hs|]. revert H. now apply avoids_same. }
    revert G'. now apply avoids_same.
Qed.

End AvoidFacts.
(** ** RpcClient: promises and timers are only added *)
Section GrowFacts.
Import RpcClient Observe Track.
Variable k : Constants.

Lemma grows_refl c : grows c c.
Proof. split; lia. Qed.

Lemma grows_trans c1 c2 c3 : grows c1 c2 -> grows c2 c3 -> grows c1 c3.
Proof. intros [H1 H2] [H3 H4]. split; lia. Qed.

Lemma grows_same c c' :
  promises c' = promises c -> nextTimer c' = nextTimer c -> grows c c'.
Proof. intros H1 H2. unfold grows. rewrite H1, H2. split; lia. Qed.

Lemma grows_fold {A} (f : Client -> A -> Client) l :
  (forall c x, grows c (f c x)) -> forall c, grows c (fold_left f l c).
Proof.
  intros Hf. induction l as [|x l IH]; intros c; [apply grows_refl|].
  cbn [fold_left]. eapply grows_trans; [apply Hf|apply IH].
Qed.

Lemma length_settle p s c : length (promises (settle p s c)) = length (promises c).
Proof.
  unfold settle. destruct (promises c !! p) as [[| |]|]; try reflexivity.
  prj. apply length_insert.
Qed.

Lemma grows_settle p s c : grows c (settle p s c).
Proof. split; [rewrite length_settle|rewrite nextTimer_settle]; lia. Qed.

Lemma grows_clearTimeout t c : grows c (clearTimeout t c).
Proof. now apply grows_same. Qed.

Lemma grows_setTimeout now a d c : grows c (setTimeout now a d c).2.
Proof. split; prj; lia. Qed.

Lemma grows_entry_settle e s c : grows c (entry_settle e s c).
Proof.
  unfold entry_settle. eapply grows_trans; [apply grows_clearTimeout|apply grows_settle].
Qed.

Lemma grows_tryReconnect now id c : grows c (_tryReconnect now id c).
Proof.
  unfold _tryReconnect. destruct (_ >=? _); [now apply grows_same|]. split; prj; lia.
Qed.

Lemma grows_drain now c : grows c (drain now c).
Proof.
  unfold drain. eapply (grows_trans _ (set_jobs [] c)); [now apply grows_same|].
  apply grows_fold. intros c' j. unfold run_job.
  destruct (job_fulfilled j); [now apply grows_same|apply grows_tryReconnect].
Qed.

Lemma grows_connect now id c : grows c (connect now id c).2.
Proof.
  unfold connect. destruct (_connectPromise c); [apply grows_refl|].
  split; prj; rewrite ?length_app; cbn [length]; lia.
Qed.

Lemma grows_request now cmd args evt token c :
  grows c (request now cmd args evt token c).2.
Proof.
  rewrite request_unfold. cbn zeta.
  match goal with |- context [settle _ _ ?x] => set (c1 := x) end.
  assert (G : grows c c1) by (unfold c1; split; prj; rewrite ?length_app; cbn [length]; lia).
  clearbody c1.
  destruct args as [a|]; [destruct (socket c)|].
  - eapply grows_trans; [exact G|now apply grows_same].
  - eapply grows_trans; [exact G|apply grows_settle].
  - eapply grows_trans; [exact G|apply grows_settle].
Qed.

Lemma grows_connected_listener h c : grows c (connected_listener h c).
Proof.
  unfold connected_listener.
  eapply grows_trans; [|apply grows_settle]. now apply grows_same.
Qed.

Lemma grows_close_listener now ev h c : grows c (close_listener now ev h c).
Proof.
  unfold close_listener. eapply grows_trans; [|apply grows_settle].
  match goal with |- grows c (if ?b then _tryReconnect _ _ ?x else _) =>
    assert (H : grows c x) end.
  { eapply grows_trans; [|now apply grows_same].
    apply grows_fold. intros. apply grows_entry_settle. }
  match goal with |- grows c (if ?b then _ else _) => destruct b end; [|exact H].
  eapply grows_trans; [exact H|apply grows_tryReconnect].
Qed.

Lemma grows_close_listener_null now h c : grows c (close_listener_null now h c).
Proof.
  unfold close_listener_null. destruct (_expecting c); [|now apply grows_same].
  match goal with |- grows c (log Throw ?x) =>
    apply (grows_trans _ x); [|now apply grows_same] end.
  match goal with |- grows c (if ?b then _ else _) => destruct b end;
    [|now apply grows_same].
  apply (grows_trans _ (log EmitDisconnected c)); [now apply grows_same|].
  apply grows_tryReconnect.
Qed.

Lemma grows_emit_close now ev c : grows c (emit_close now ev c).
Proof.
  unfold emit_close. destruct ev as [ev|].
  - eapply (grows_trans _ (set_onClose [] c)); [now apply grows_same|].
    apply grows_fold. intros. apply grows_close_listener.
  - destruct (onClose c) as [|h rest]; [apply grows_refl|].
    eapply (grows_trans _ (set_onClose rest c)); [now apply grows_same|].
    apply grows_close_listener_null.
Qed.

Lemma grows_emit_connected c : grows c (emit_connected c).
Proof.
  unfold emit_connected.
  eapply (grows_trans _ (set_onConnected [] c)); [now apply grows_same|].
  apply grows_fold. intros. apply grows_connected_listener.
Qed.

Lemma grows_emit_event evt d c : grows c (emit_event evt d c).
Proof.
  unfold emit_event.
  destruct (bool_decide _); [|destruct (bool_decide _); now apply grows_same].
  apply (grows_trans _ (log (EmitEvent evt d) c)); [now apply grows_same|].
  apply grows_emit_connected.
Qed.

Lemma grows_onRpcMessage m c : grows c (_onRpcMessage k m c).
Proof.
  unfold _onRpcMessage. destruct (_ && _).
  - destruct (data_user (data m)) as [u|]; [|now apply grows_same].
    match goal with |- grows c (fold_left _ _ ?x) =>
      apply (grows_trans _ x); [|apply grows_fold; intros; apply grows_connected_listener] end.
    destruct u; now apply grows_same.
  - destruct (nonce m) as [n|]; [|apply grows_emit_event].
    destruct (map_get n (_expecting c)) as [e|]; [|apply grows_emit_event].
    destruct (bool_decide _).
    + destruct (data m) as [[]|]; try (now apply grows_same);
        match goal with |- grows c (set_expecting _ ?x) =>
          apply (grows_trans _ x); [apply grows_entry_settle|now apply grows_same] end.
    + match goal with |- grows c (set_expecting _ ?x) =>
        apply (grows_trans _ x); [apply grows_entry_settle|now apply grows_same] end.
Qed.

Lemma grows_fire now a c : grows c (fire now a c).
Proof.
  destruct a as [p|token p|id]; cbn [fire].
  - apply grows_settle.
  - eapply grows_trans; [|apply grows_settle]. now apply grows_same.
  - unfold reconnect_resume.
    pose proof (grows_connect now id (set_connectPromise None c)) as G.
    destruct (connect now id (set_connectPromise None c)) as [p c'].
    cbn [snd] in G. eapply grows_trans; [exact G|]. now apply grows_same.
Qed.

Lemma grows_handle now e c : grows c (handle k now e c).
Proof.
  destruct e as [id|cmd args evt token|t|m|ev|q err|]; cbn [handle].
  - apply grows_connect.
  - apply grows_request.
  - destruct (timers c !! t) as [tm|]; [|apply grows_refl].
    destruct (due tm <=? now); [|apply grows_refl].
    eapply grows_trans; [apply (grows_clearTimeout t)|apply grows_fire].
  - apply grows_onRpcMessage.
  - apply grows_emit_close.
  - apply grows_settle.
  - now apply grows_same.
Qed.

Lemma grows_step e c : grows c (step k e c).
Proof. unfold step. eapply grows_trans; [apply grows_handle|apply grows_drain]. Qed.

Lemma grows_run es : forall c, grows c (run k es c).
Proof.
  induction es as [|e es IH]; intros c; [apply grows_refl|].
  cbn [run fold_left]. eapply grows_trans; [apply grows_step|apply IH].
Qed.

End GrowFacts.
(** ** RpcClient: the numbers a client refers to were given out by it *)
Section WfFacts.
Import RpcClient Observe Track.
Variable k : Constants.

Lemma connect_fresh now id c :
  _connectPromise c = None ->
  length (promises (connect now id c).2) = S (length (promises c)) /\
  nextTimer (connect now id c).2 = S (nextTimer c).
Proof.
  intros H. unfold connect. rewrite H. prj. rewrite length_app. cbn [length]. lia.
Qed.

Lemma request_fresh now cmd args evt token c :
  length (promises (request now cmd args evt token c).2) = S (length (promises c)) /\
  nextTimer (request now cmd args evt token c).2 = S (nextTimer c).
Proof.
  rewrite request_unfold. cbn zeta.
  destruct args as [a|]; [destruct (socket c)|];
    rewrite ?length_settle, ?nextTimer_settle; prj; rewrite length_app; cbn [length]; lia.
Qed.

Lemma avoids_handle P T tok now e c :
  avoids P T tok c ->
  ((length (promises c) < length (promises (handle k now e c)))%nat ->
   length (promises c) <> P) ->
  ((nextTimer c < nextTimer (handle k now e c))%nat -> nextTimer c <> T) ->
  (forall cmd args evt token, e = Request cmd args evt token -> Some token <> tok) ->
  avoids P T tok (handle k now e c).
Proof.
  intros H HP HT Htok.
  destruct e as [id|cmd args evt token|t|m|ev|q err|]; cbn [handle] in *.
  - apply avoids_connect; [|exact H]. intros Hn.
    destruct (connect_fresh now id c Hn) as [E1 E2]. split; [apply HP|apply HT]; lia.
  - destruct (request_fresh now cmd args evt token c) as [E1 E2].
    apply avoids_request; [apply HP; lia|apply HT; lia|now apply (Htok cmd args evt)|exact H].
  - destruct (timers c !! t) as [tm|]; [|exact H].
    destruct (due tm <=? now); [|exact H].
    apply avoids_fire; [|now apply avoids_clearTimeout].
    intros Hr. destruct (callback tm) as [p|token p|id]; try discriminate. cbn [fire] in *.
    destruct (resume_fields now id (clearTimeout t c)) as (_ & E1 & _ & _ & _ & E2 & _).
    cbn zeta in E1, E2. rewrite E1, E2 in *. rewrite length_app in *. cbn [length] in *.
    prj. split; [apply HP|apply HT]; lia.
  - now apply avoids_onRpcMessage.
  - now apply avoids_emit_close.
  - now apply avoids_settle.
  - revert H. now apply avoids_same.
Qed.

Lemma wf_new o : wf (new o).
Proof.
  intros P T _ _. split; cbn.
  - intros n e [].
  - intros t tm H. now rewrite lookup_empty in H.
  - intros t q [].
  - intros id q [].
  - intros t tm H. now rewrite lookup_empty in H.
Qed.

Lemma wf_step e c : wf c -> wf (step k e c).
Proof.
  intros Hwf P T HP HT. unfold step in *.
  pose proof (grows_handle k e.1 e.2 c) as [G1 G2].
  pose proof (grows_drain e.1 (handle k e.1 e.2 c)) as [G3 G4].
  apply avoids_drain, avoids_handle.
  - apply Hwf; lia.
  - lia.
  - lia.
  - discriminate.
Qed.

(** Every client that can be reached refers only to promises and timers that
    it has created. *)
Lemma wf_run es : forall c, wf c -> wf (run k es c).
Proof.
  induction es as [|e es IH]; intros c Hc; [exact Hc|].
  cbn [run fold_left]. apply IH. now apply wf_step.
Qed.

End WfFacts.
(** ** RpcClient: what happens to one request *)
Section FollowFacts.
Import RpcClient Observe Track.
Variable k : Constants.
Variables (P T : nat) (token : string).

Lemma follows_refl c : follows P T token c c.
Proof. split; auto. Qed.

Lemma follows_trans c1 c2 c3 :
  follows P T token c1 c2 -> follows P T token c2 c3 -> follows P T token c1 c3.
Proof. intros [A1 A2 A3 A4 A5] [B1 B2 B3 B4 B5]. split; try lia; congruence. Qed.

Lemma follows_same c c' :
  promises c' = promises c -> timers c' = timers c -> nextTimer c' = nextTimer c ->
  _expecting c' = _expecting c -> follows P T token c c'.
Proof. intros E1 E2 E3 E4. split; rewrite ?E1, ?E2, ?E3, ?E4; auto. Qed.

Lemma follows_fold_in {A} (f : Client -> A -> Client) l :
  (forall c x, In x l -> follows P T token c (f c x)) ->
  forall c, follows P T token c (fold_left f l c).
Proof.
  induction l as [|x l IH]; intros Hf c; [apply follows_refl|].
  cbn [fold_left]. eapply follows_trans; [apply Hf; now left|].
  apply IH. intros c' y Hy. apply Hf. now right.
Qed.

Lemma follows_settle q s c : q <> P -> follows P T token c (settle q s c).
Proof.
  intros Hq. split.
  - rewrite length_settle. lia.
  - rewrite nextTimer_settle. lia.
  - now apply settle_other.
  - unfold settle. now destruct (promises c !! q) as [[| |]|].
  - now rewrite expecting_settle.
Qed.

Lemma follows_clearTimeout t c : t <> T -> follows P T token c (clearTimeout t c).
Proof. intros Ht. split; prj; auto. now apply lookup_delete_ne. Qed.

Lemma follows_setTimeout now a d c :
  (T < nextTimer c)%nat -> follows P T token c (setTimeout now a d c).2.
Proof. intros Ht. split; prj; auto. apply lookup_insert_ne. lia. Qed.

Lemma follows_entry_settle e s c :
  promise e <> P -> timeout e <> T -> follows P T token c (entry_settle e s c).
Proof.
  intros H1 H2. unfold entry_settle.
  eapply follows_trans; [apply (follows_clearTimeout (timeout e)); exact H2|].
  apply follows_settle. exact H1.
Qed.

Lemma follows_tryReconnect now id c :
  (T < nextTimer c)%nat -> follows P T token c (_tryReconnect now id c).
Proof.
  intros Ht. unfold _tryReconnect. destruct (_ >=? _); [now apply follows_same|].
  split; prj; auto. apply lookup_insert_ne. lia.
Qed.

Lemma follows_drain now c :
  (T < nextTimer c)%nat -> follows P T token c (drain now c).
Proof.
  intros Ht. unfold drain.
  assert (G : forall l c', (T < nextTimer c')%nat ->
            follows P T token c' (fold_left (fun c j => run_job now j c) l c')).
  { induction l as [|j l IH]; intros c' Hc'; [apply follows_refl|]. cbn [fold_left].
    assert (F : follows P T token c' (run_job now j c')).
    { unfold run_job. destruct (job_fulfilled j);
        [now apply follows_same|now apply follows_tryReconnect]. }
    eapply follows_trans; [exact F|]. apply IH. destruct F. lia. }
  eapply (follows_trans _ (set_jobs [] c)); [now apply follows_same|]. now apply G.
Qed.

Lemma follows_connect now id c :
  (P < length (promises c))%nat -> (T < nextTimer c)%nat ->
  follows P T token c (connect now id c).2.
Proof.
  intros HP HT. unfold connect. destruct (_connectPromise c); [apply follows_refl|].
  split; prj; rewrite ?length_app; cbn [length]; auto; try lia.
  - now apply lookup_app_l.
  - apply lookup_insert_ne. lia.
Qed.

Lemma map_get_map_set {V} (key key' : string) (v : V) (l : list (string * V)) :
  key' <> key -> map_get key (map_set key' v l) = map_get key l.
Proof.
  intros Hne. unfold map_get. f_equal.
  induction l as [|[k' v'] l IH]; cbn [map_set find fst].
  - destruct (String.eqb_spec key' key); [done|reflexivity].
  - destruct (String.eqb_spec k' key') as [->|Hk]; cbn [find fst].
    + destruct (String.eqb_spec key' key); [done|reflexivity].
    + destruct (String.eqb_spec k' key); [reflexivity|exact IH].
Qed.

Lemma map_get_map_delete {V} (key key' : string) (l : list (string * V)) :
  key' <> key -> map_get key (map_delete key' l) = map_get key l.
Proof.
  intros Hne. unfold map_get, map_delete. f_equal.
  induction l as [|[k' v'] l IH]; [reflexivity|]. cbn [List.filter find fst].
  destruct (String.eqb_spec k' key') as [->|Hk]; cbn [negb find fst].
  - destruct (String.eqb_spec key' key); [done|exact IH].
  - destruct (String.eqb_spec k' key); [reflexivity|exact IH].
Qed.

Lemma map_get_deleted {V} (key : string) (l : list (string * V)) :
  map_get key (map_delete key l) = None.
Proof.
  unfold map_get, map_delete.
  induction l as [|[k' v'] l IH]; [reflexivity|]. cbn [List.filter find fst].
  destruct (String.eqb_spec k' key) as [->|Hk]; cbn [negb find fst]; [exact IH|].
  destruct (String.eqb_spec k' key); [done|exact IH].
Qed.

Lemma map_get_In {V} (key : string) (l : list (string * V)) v :
  map_get key l = Some v -> In (key, v) l.
Proof.
  unfold map_get. destruct (find _ l) as [[k' v']|] eqn:E; [|discriminate].
  intros [= <-]. apply find_some in E as [Hin Hk]. cbn [fst] in Hk.
  apply String.eqb_eq in Hk. now subst.
Qed.

Lemma follows_request now cmd args evt token' c :
  (P < length (promises c))%nat -> (T < nextTimer c)%nat -> token' <> token ->
  follows P T token c (request now cmd args evt token' c).2.
Proof.
  intros HP HT Hne. rewrite request_unfold. cbn zeta.
  match goal with |- context [settle _ _ ?x] => set (c1 := x) end.
  assert (G : follows P T token c c1).
  { unfold c1. split; prj; rewrite ?length_app; cbn [length]; auto; try lia.
    - now apply lookup_app_l.
    - apply lookup_insert_ne. lia.
    - now apply map_get_map_set. }
  clearbody c1.
  destruct args as [a|]; [destruct (socket c)|].
  - eapply follows_trans; [exact G|now apply follows_same].
  - eapply follows_trans; [exact G|apply follows_settle; lia].
  - eapply follows_trans; [exact G|apply follows_settle; lia].
Qed.

Lemma follows_delete n c :
  n <> token -> follows P T token c (set_expecting (map_delete n (_expecting c)) c).
Proof. intros Hn. split; prj; auto. now apply map_get_map_delete. Qed.

Lemma follows_connected_listener h c :
  h.1 <> T -> h.2 <> P -> follows P T token c (connected_listener h c).
Proof.
  intros H1 H2. unfold connected_listener.
  eapply follows_trans; [|now apply follows_settle].
  eapply follows_trans; [apply (follows_clearTimeout h.1); exact H1|now apply follows_same].
Qed.

Lemma follows_emit_connected c :
  avoids P T (Some token) c -> follows P T token c (emit_connected c).
Proof.
  intros [H1 H2 H3 H4 H5]. unfold emit_connected.
  apply (follows_trans _ (set_onConnected [] c)); [now apply follows_same|].
  apply follows_fold_in. intros c' [t q] Hin.
  destruct (H3 _ _ Hin). now apply follows_connected_listener.
Qed.

Lemma follows_emit_event evt d c :
  avoids P T (Some token) c -> follows P T token c (emit_event evt d c).
Proof.
  intros H. unfold emit_event.
  destruct (bool_decide _); [|destruct (bool_decide _); now apply follows_same].
  apply (follows_trans _ (log (EmitEvent evt d) c)); [now apply follows_same|].
  apply follows_emit_connected. revert H. now apply avoids_same.
Qed.

Lemma follows_onRpcMessage m c :
  avoids P T (Some token) c ->
  is_ready k m || negb (bool_decide (nonce m = Some token)) = true ->
  follows P T token c (_onRpcMessage k m c).
Proof.
  intros Hav Hq. pose proof Hav as [H1 H2 H3 H4 H5].
  unfold _onRpcMessage. unfold is_ready in Hq.
  destruct (_ && _).
  - destruct (data_user (data m)) as [u|]; [|now apply follows_same].
    match goal with |- follows _ _ _ c (fold_left _ ?l ?x) =>
      apply (follows_trans _ x); [destruct u; now apply follows_same|] end.
    apply follows_fold_in. intros c' [t q] Hin.
    assert (Hin' : In (t, q) (onConnected c)) by (destruct u; exact Hin).
    destruct (H3 _ _ Hin'). now apply follows_connected_listener.
  - cbn [orb] in Hq. apply negb_true_iff, bool_decide_eq_false in Hq.
    destruct (nonce m) as [n|]; [|now apply follows_emit_event].
    assert (Hn : n <> token) by congruence.
    destruct (map_get n (_expecting c)) as [e|] eqn:He; [|now apply follows_emit_event].
    apply map_get_In in He. destruct (H1 _ _ He) as [Hp Ht]; [congruence|].
    assert (F : forall s, follows P T token c
                  (set_expecting (map_delete n (_expecting (entry_settle e s c)))
                     (entry_settle e s c))).
    { intros s. eapply follows_trans; [apply (follows_entry_settle e s c Hp Ht)|].
      apply follows_delete. exact Hn. }
    destruct (bool_decide _); [|apply F].
    destruct (data m) as [[]|]; try (now apply follows_same); apply F.
Qed.

Lemma follows_fire now a c :
  action_free (Some token) P a ->
  (P < length (promises c))%nat -> (T < nextTimer c)%nat ->
  follows P T token c (fire now a c).
Proof.
  intros Ha HP HT. destruct a as [p|n p|id]; cbn [fire action_free] in *.
  - now apply follows_settle.
  - destruct Ha as [Hp Hn].
    eapply follows_trans; [apply (follows_delete n); congruence|now apply follows_settle].
  - unfold reconnect_resume.
    pose proof (follows_connect now id (set_connectPromise None c) HP HT) as G.
    destruct (connect now id (set_connectPromise None c)) as [p c'].
    cbn [snd] in G.
    eapply (follows_trans _ (set_connectPromise None c)); [now apply follows_same|].
    eapply follows_trans; [exact G|now apply follows_same].
Qed.

Lemma follows_handle now e c :
  avoids P T (Some token) c ->
  (P < length (promises c))%nat -> (T < nextTimer c)%nat ->
  quiet k token P T (now, e) = true ->
  follows P T token c (handle k now e c).
Proof.
  intros Hav HP HT Hq. unfold quiet in Hq. cbn [snd] in Hq.
  destruct e as [id|cmd args evt token'|t|m|ev|q err|]; cbn [handle].
  - now apply follows_connect.
  - apply follows_request; auto. apply negb_true_iff in Hq.
    now apply String.eqb_neq in Hq.
  - apply negb_true_iff, Nat.eqb_neq in Hq.
    destruct (timers c !! t) as [tm|] eqn:Htm; [|apply follows_refl].
    destruct (due tm <=? now); [|apply follows_refl].
    eapply follows_trans; [apply (follows_clearTimeout t); exact Hq|].
    apply follows_fire; auto. destruct Hav as [_ H2 _ _ _]. now apply (H2 t).
  - now apply follows_onRpcMessage.
  - discriminate.
  - apply follows_settle. apply negb_true_iff in Hq. now apply Nat.eqb_neq in Hq.
  - now apply follows_same.
Qed.

Lemma follows_step e c :
  avoids P T (Some token) c ->
  (P < length (promises c))%nat -> (T < nextTimer c)%nat ->
  quiet k token P T e = true ->
  follows P T token c (step k e c).
Proof.
  intros Hav HP HT Hq. unfold step. destruct e as [now e]. cbn [fst snd].
  pose proof (follows_handle now e c Hav HP HT Hq) as F.
  eapply follows_trans; [exact F|]. apply follows_drain. destruct F. lia.
Qed.

End FollowFacts.
Section TrackFacts.
Import RpcClient Observe Track.
Variable k : Constants.

Lemma tracked_step e c token p t d :
  tracked c token p t d -> quiet k token p t e = true ->
  tracked (step k e c) token p t d.
Proof.
  intros ([R1 R2 R3] & HP & HT & Hav) Hq.
  pose proof (follows_step k p t token e c Hav HP HT Hq) as [F1 F2 F3 F4 F5].
  split; [|split; [lia|split; [lia|]]].
  - split; congruence.
  - unfold step. destruct e as [now ev]. cbn [fst snd].
    apply avoids_drain, avoids_handle; try lia; [exact Hav|].
    intros cmd args evt token' ->. unfold quiet in Hq. cbn [snd] in Hq.
    apply negb_true_iff, String.eqb_neq in Hq. congruence.
Qed.

Lemma tracked_run es : forall c token p t d,
  tracked c token p t d -> forallb (quiet k token p t) es = true ->
  tracked (run k es c) token p t d.
Proof.
  induction es as [|e es IH]; intros c token p t d Hc Hq; [exact Hc|].
  cbn [forallb] in Hq. apply andb_true_iff in Hq as [He Hq].
  cbn [run fold_left]. apply IH; [|exact Hq]. now apply tracked_step.
Qed.

Lemma map_has_get {V} (key : string) (l : list (string * V)) :
  map_has key l = false -> map_get key l = None.
Proof.
  unfold map_has, map_get. induction l as [|[k' v'] l IH]; [reflexivity|].
  cbn [existsb find fst]. destruct (String.eqb k' key); [discriminate|exact IH].
Qed.

Lemma freshb_spec token c : freshb token c = true -> fresh token c.
Proof.
  unfold freshb, fresh. rewrite andb_true_iff, negb_true_iff, forallb_forall.
  intros [H1 H2]. split; [now apply map_has_get|].
  intros t tm q Ht Hcb. apply elem_of_map_to_list, list_elem_of_In in Ht.
  specialize (H2 _ Ht). cbn [snd] in H2. rewrite Hcb in H2.
  now rewrite String.eqb_refl in H2.
Qed.

Lemma map_get_set_eq {V} (key : string) (v : V) (l : list (string * V)) :
  map_get key (map_set key v l) = Some v.
Proof.
  unfold map_get. induction l as [|[k' v'] l IH]; cbn [map_set find fst option_map].
  - now rewrite String.eqb_refl.
  - destruct (String.eqb_spec k' key) as [->|Hne]; cbn [find fst option_map].
    + now rewrite String.eqb_refl.
    + destruct (String.eqb_spec k' key); [done|exact IH].
Qed.

(** A request, issued on a client that refers to what it created only, under
    a name that is not in use. *)
Lemma tracked_request now cmd a evt token c :
  wf c -> fresh token c -> socket c = true ->
  tracked (step k (now, Request cmd (Plain a) evt token) c) token
    (length (promises c)) (nextTimer c) (now + requestTimeout (options c)).
Proof.
  intros Hwf [Hf1 Hf2] Hs.
  pose proof (Hwf (length (promises c)) (nextTimer c) (le_n _) (le_n _))
    as [H1 H2 H3 H4 H5].
  unfold step. cbn [fst snd handle]. rewrite request_unfold. cbn zeta. rewrite Hs.
  match goal with |- context [drain now ?x] => set (c1 := x) end.
  assert (F : registered c1 token (length (promises c)) (nextTimer c)
                (now + requestTimeout (options c)) /\
              length (promises c1) = S (length (promises c)) /\
              nextTimer c1 = S (nextTimer c) /\
              avoids (length (promises c)) (nextTimer c) (Some token) c1).
  { unfold c1. prj. split; [|split; [|split]].
    - split; prj.
      + apply map_get_set_eq.
      + apply lookup_insert_eq.
      + rewrite lookup_app_r by lia. now rewrite Nat.sub_diag.
    - rewrite length_app. cbn [length]. lia.
    - reflexivity.
    - split; prj; auto.
      + intros n e Hin Hn. apply In_map_set in Hin as [[= -> ->]|Hin]; [done|].
        now apply (H1 n).
      + intros t' tm Ht Hne. apply lookup_insert_Some in Ht as [[? _]|[_ Ht]]; [done|].
        specialize (H2 _ _ Ht Hne). pose proof (fun q => Hf2 _ _ q Ht) as Hf.
        destruct (callback tm) as [q|n q|id]; cbn [action_free] in *; auto.
        destruct H2 as [Hq _]. split; [exact Hq|]. intros [= ->]. now apply (Hf q).
      + intros t' tm Ht. apply lookup_insert_Some in Ht as [[<- _]|[_ Ht]]; [lia|].
        specialize (H5 _ _ Ht). lia. }
  clearbody c1. destruct F as ([R1 R2 R3] & E1 & E2 & Hav).
  pose proof (follows_drain (length (promises c)) (nextTimer c) token now c1
                ltac:(lia)) as [F1 F2 F3 F4 F5].
  split; [|split; [lia|split; [lia|]]].
  - split; congruence.
  - now apply avoids_drain.
Qed.

(** The timer of a request fires. *)
Lemma timeout_fires now c token p t d :
  timers c !! t = Some {| due := d; callback := RequestTimeout token p |} ->
  promises c !! p = Some Pending ->
  (t < nextTimer c)%nat -> d <= now ->
  let c' := step k (now, Fire t) c in
  promises c' !! p = Some (Rejected RpcTimeout) /\
  map_get token (_expecting c') = None /\
  timers c' !! t = None /\
  jobs c' = [].
Proof.
  intros R2 R3 Ht Hd. cbn zeta. split; [|split; [|split]]; [| | |apply jobs_step].
  - unfold step. rewrite promises_drain. cbn [fst snd handle]. rewrite R2.
    cbn [due callback]. destruct (Z.leb_spec d now); [|lia]. cbn [fire].
    now apply settle_pending_lookup.
  - unfold step. rewrite expecting_drain. cbn [fst snd handle]. rewrite R2.
    cbn [due callback]. destruct (Z.leb_spec d now); [|lia]. cbn [fire].
    rewrite expecting_settle. prj. apply map_get_deleted.
  - unfold step. cbn [fst snd handle]. rewrite R2.
    cbn [due callback]. destruct (Z.leb_spec d now); [|lia]. cbn [fire].
    apply cleared_drain, cleared_settle. split; prj; [exact Ht|apply lookup_delete_eq].
Qed.

(** A message that names a request which is not in the table: it is
    emitted as an event. *)
Lemma stray_message_emitted now m c token :
  nonce m = Some token -> is_ready k m = false ->
  map_get token (_expecting c) = None ->
  step k (now, OnMessage m) c = drain now (emit_event (evt m) (data m) c).
Proof.
  intros Hn Hr Hg. unfold step. cbn [fst snd handle].
  unfold _onRpcMessage. unfold is_ready in Hr. now rewrite Hr, Hn, Hg.
Qed.




(** A request whose [send] throws: the promise is rejected at once, while
    the entry and the timer stay. *)
Lemma request_unsent now cmd args evt token c :
  (socket c = false \/ args = Unserializable) -> jobs c = [] -> awaiting c = [] ->
  let p := length (promises c) in
  let t := nextTimer c in
  let c' := step k (now, Request cmd args evt token) c in
  promises c' = promises c ++ [Rejected SendFailure] /\
  _expecting c' = map_set token {| promise := p; timeout := t |} (_expecting c) /\
  timers c' = <[t := {| due := now + requestTimeout (options c);
                        callback := RequestTimeout token p |}]> (timers c) /\
  nextTimer c' = S t /\
  jobs c' = [] /\ awaiting c' = [] /\
  trace c' = trace c ++ [SetTimeout t (requestTimeout (options c)) (RequestTimeout token p);
                         Settle p (Rejected SendFailure)].
Proof.
  intros Hs Hj Ha. cbn zeta. unfold step. cbn [fst snd handle].
  rewrite request_unfold. cbn zeta.
  match goal with |- context [settle _ _ ?x] => set (c1 := x) end.
  assert (F : promises c1 = promises c ++ [Pending] /\
              _expecting c1 = map_set token {| promise := length (promises c);
                                               timeout := nextTimer c |} (_expecting c) /\
              timers c1 = <[nextTimer c := {| due := now + requestTimeout (options c);
                                              callback := RequestTimeout token
                                                            (length (promises c)) |}]>
                            (timers c) /\
              nextTimer c1 = S (nextTimer c) /\
              trace c1 = trace c ++ [SetTimeout (nextTimer c) (requestTimeout (options c))
                                       (RequestTimeout token (length (promises c)))] /\
              jobs c1 = [] /\ awaiting c1 = [])
    by (unfold c1; prj; rewrite Hj, Ha; repeat split; reflexivity).
  clearbody c1. destruct F as (Fp & Fe & Ft & Fn & Ftr & Fj & Fa).
  assert (Hp : promises c1 !! length (promises c) = Some Pending).
  { rewrite Fp, lookup_app_r by lia. now rewrite Nat.sub_diag. }
  assert (E : (match args with
               | Plain a => if socket c then log (TransportSend cmd a evt token) c1
                            else settle (length (promises c)) (Rejected SendFailure) c1
               | Unserializable => settle (length (promises c)) (Rejected SendFailure) c1
               end) = settle (length (promises c)) (Rejected SendFailure) c1).
  { destruct Hs as [Hs| ->]; [rewrite Hs; now destruct args|reflexivity]. }
  rewrite E.
  destruct (settle_pending_fields _ (Rejected SendFailure) c1 Hp)
    as (S1 & S2 & S3 & S4 & S5 & S6 & _).
  pose proof (expecting_settle (length (promises c)) (Rejected SendFailure) c1) as S7.
  revert S1 S2 S3 S4 S5 S6 S7.
  generalize (settle (length (promises c)) (Rejected SendFailure) c1).
  intros c2 S1 S2 S3 S4 S5 S6 S7.
  rewrite Fa in S3. rewrite Fj, Fa in S4. cbn in S3, S4.
  rewrite drain_nil by exact S4. prj.
  rewrite S1, S2, S3, S5, S6, S7, Fp, Fe, Ft, Fn, Ftr.
  rewrite <- app_assoc. cbn [app].
  repeat split; try reflexivity.
  replace (length (promises c)) with (length (promises c) + 0)%nat at 1 by lia.
  now rewrite insert_app_r.
Qed.

Lemma jobs_run_nil es : forall c, jobs c = [] -> jobs (run k es c) = [].
Proof.
  induction es as [|e es IH]; intros c Hc; [exact Hc|].
  cbn [run fold_left]. apply IH. apply jobs_step.
Qed.

End TrackFacts.
Section RequestTheorems.
Import RpcClient Observe Track Lifecycle.
Variable k : Constants.


(** X23. A request that is answered.  In the same situation (the
    transport has a socket and [encode] accepts the request), a
    message that carries the name of the request and is not the dispatch of
    [READY] settles the promise: it fulfils it with [message.data], or, when
    its [evt] is ["RpcError"] and it has data, rejects it with that data as a
    [MessageError].  The entry is removed and the timer is cleared, so that
    no timeout follows; the promise is settled for good.  An ["RpcError"]
    without data makes [_onRpcMessage] throw and leaves the request as it
    was. *)
Theorem request_answered (o : Options) (es0 es : list (Z * event)) (now now' : Z)
    (cmd : string) (a : option JSON.value) (evt : option string) (token : string)
    (m : Message) :
  let c := run k es0 (new o) in
  let p := length (promises c) in
  let t := nextTimer c in
  let deadline := now + requestTimeout (options c) in
  socket c = true ->
  freshb token c = true ->
  forallb (quiet k token p t) es = true ->
  nonce m = Some token -> is_ready k m = false ->
  let c2 := run k es (step k (now, Request cmd (Plain a) evt token) c) in
  let c3 := step k (now', OnMessage m) c2 in
  let answer :=
    if bool_decide (RpcClient.evt m = Some "RpcError"%string)
    then Rejected (MessageError (data m))
    else Fulfilled (Data (data m)) in
  let throws :=
    bool_decide (RpcClient.evt m = Some "RpcError"%string) &&
    match data m with None | Some JSON.JNull => true | _ => false end in
  (throws = false ->
   promises c3 !! p = Some answer /\
   map_get token (_expecting c3) = None /\
   timers c3 !! t = None /\
   (forall es', promises (run k es' c3) !! p = Some answer)) /\
  (throws = true ->
   registered c3 token p t deadline /\ trace c3 = trace c2 ++ [Throw]).
Proof.
  cbn zeta. intros Hs Hf Hq Hn Hrd.
  pose proof (wf_run k es0 (new o) (wf_new o)) as Hwf.
  pose proof (tracked_request k now cmd a evt token _ Hwf (freshb_spec _ _ Hf) Hs) as Ht.
  pose proof (tracked_run k es _ _ _ _ _ Ht Hq) as (Hr & HP & HT & Hav).
  pose proof (jobs_run_nil k es (step k (now, Request cmd (Plain a) evt token)
                                   (run k es0 (new o)))) as Hj.
  specialize (Hj (jobs_step _ _ _)).
  revert Hr HP HT Hav Hj.
  generalize (run k es (step k (now, Request cmd (Plain a) evt token) (run k es0 (new o)))).
  intros c2 [R1 R2 R3] HP HT Hav Hj.
  assert (E : forall s, s <> Pending ->
            let c3 := drain now' (set_expecting
                        (map_delete token (_expecting (entry_settle
                           {| promise := length (promises (run k es0 (new o)));
                              timeout := nextTimer (run k es0 (new o)) |} s c2)))
                        (entry_settle {| promise := length (promises (run k es0 (new o)));
                              timeout := nextTimer (run k es0 (new o)) |} s c2)) in
            promises c3 !! length (promises (run k es0 (new o))) = Some s /\
            map_get token (_expecting c3) = None /\
            timers c3 !! nextTimer (run k es0 (new o)) = None).
  { intros s Hns. cbn zeta. rewrite promises_drain, expecting_drain. prj.
    split; [|split].
    - unfold entry_settle. cbn [promise timeout]. now apply settle_pending_lookup.
    - apply map_get_deleted.
    - apply cleared_drain.
      apply (cleared_same _ (entry_settle
                {| promise := length (promises (run k es0 (new o)));
                   timeout := nextTimer (run k es0 (new o)) |} s c2)); [reflexivity..|].
      unfold entry_settle. cbn [promise timeout]. apply cleared_settle.
      split; prj; [exact HT|apply lookup_delete_eq]. }
  unfold step. cbn [fst snd handle]. unfold _onRpcMessage.
  unfold is_ready in Hrd. rewrite Hrd, Hn, R1.
  destruct (bool_decide (RpcClient.evt m = Some "RpcError"%string)); cbn [andb].
  - destruct (data m) as [d|] eqn:Hdata.
    + destruct d; split; try discriminate; intros _;
        try (destruct (E (Rejected (MessageError (Some JSON.JNull))) ltac:(discriminate))
               as (E1 & E2 & E3); fail);
        try (rewrite drain_nil by exact Hj; split; [split; assumption|reflexivity]);
        match goal with |- context [MessageError ?x] =>
          destruct (E (Rejected (MessageError x)) ltac:(discriminate)) as (E1 & E2 & E3)
        end;
        (split; [exact E1|split; [exact E2|split; [exact E3|]]]);
        intros es'; apply (stable_run k es' _ _ _ E1); discriminate.
    + split; [discriminate|]. intros _. rewrite drain_nil by exact Hj.
      split; [split; assumption|reflexivity].
  - split; [|discriminate]. intros _.
    destruct (E (Fulfilled (Data (data m))) ltac:(discriminate)) as (E1 & E2 & E3).
    split; [exact E1|split; [exact E2|split; [exact E3|]]].
    intros es'. apply (stable_run k es' _ _ _ E1). discriminate.
Qed.

(** X20. A request whose [transport.send] throws, because the
    transport has no socket yet or because [encode] throws on the
    arguments.  The exception leaves the executor of the promise, which is
    rejected with it at once; nothing is sent.  The timer and the entry of
    [_expecting] were made before and stay: the entry is removed when the
    timer fires, [requestTimeout] later, and the promise stays rejected with
    the error of [send], whatever happens. *)
Theorem request_send_fails (c : Client) (now now' : Z) (cmd : string) (args : Args)
    (evt : option string) (token : string) :
  (socket c = false \/ args = Unserializable) ->
  jobs c = [] -> awaiting c = [] ->
  now + requestTimeout (options c) <= now' ->
  let p := length (promises c) in
  let t := nextTimer c in
  let c1 := step k (now, Request cmd args evt token) c in
  let c2 := step k (now', Fire t) c1 in
  promises c1 !! p = Some (Rejected SendFailure) /\
  map_get token (_expecting c1) = Some {| promise := p; timeout := t |} /\
  timers c1 !! t = Some {| due := now + requestTimeout (options c);
                           callback := RequestTimeout token p |} /\
  trace c1 = trace c ++ [SetTimeout t (requestTimeout (options c)) (RequestTimeout token p);
                         Settle p (Rejected SendFailure)] /\
  map_get token (_expecting c2) = None /\
  timers c2 !! t = None /\
  (forall es, promises (run k es c1) !! p = Some (Rejected SendFailure)).
Proof.
  intros Hs Hj Ha Hd. cbn zeta.
  destruct (request_unsent k now cmd args evt token c Hs Hj Ha)
    as (Fp & Fe & Ft & Fn & Fj & Fa & Ftr).
  cbn zeta in Fp, Fe, Ft, Fn, Fj, Fa, Ftr.
  revert Fp Fe Ft Fn Fj Fa Ftr.
  generalize (step k (now, Request cmd args evt token) c).
  intros c1 Fp Fe Ft Fn Fj Fa Ftr.
  assert (Hp : promises c1 !! length (promises c) = Some (Rejected SendFailure)).
  { rewrite Fp, lookup_app_r by lia. now rewrite Nat.sub_diag. }
  assert (Ht : timers c1 !! nextTimer c
               = Some {| due := now + requestTimeout (options c);
                         callback := RequestTimeout token (length (promises c)) |}).
  { rewrite Ft. apply lookup_insert_eq. }
  split; [exact Hp|]. split; [rewrite Fe; apply map_get_set_eq|].
  split; [exact Ht|]. split; [exact Ftr|].
  split; [|split].
  - unfold step. rewrite expecting_drain. cbn [fst snd handle]. rewrite Ht.
    cbn [due callback]. destruct (Z.leb_spec (now + requestTimeout (options c)) now'); [|lia].
    cbn [fire]. rewrite expecting_settle. prj. apply map_get_deleted.
  - unfold step. cbn [fst snd handle]. rewrite Ht.
    cbn [due callback]. destruct (Z.leb_spec (now + requestTimeout (options c)) now'); [|lia].
    cbn [fire]. apply cleared_drain, cleared_settle.
    split; prj; [rewrite Fn; lia|apply lookup_delete_eq].
  - intros es. apply (stable_run k es _ _ _ Hp). discriminate.
Qed.

(** X24. [destroy()] while a request is pending.  The table of
    pending requests is emptied but the promise of the request is left
    pending and its timer is left running; then [this._subscriptions.clear()]
    throws, since [_subscriptions] is assigned nowhere, so that nothing is
    sent to the transport and it is not closed.  An answer that comes
    afterwards is not delivered to the request, which ends by [RpcTimeout]
    when its timer fires. *)
Theorem destroy_abandons_requests (c : Client) (token : string) (p t : nat)
    (d now : Z) (m : Message) :
  registered c token p t d -> (t < nextTimer c)%nat -> jobs c = [] -> d <= now ->
  let c' := destroy c in
  _expecting c' = [] /\ promises c' = promises c /\ timers c' = timers c /\
  trace c' = trace c ++ [Throw] /\
  (nonce m = Some token -> is_ready k m = false ->
   promises (step k (now, OnMessage m) c') !! p = Some Pending) /\
  promises (step k (now, Fire t) c') !! p = Some (Rejected RpcTimeout).
Proof.
  intros [R1 R2 R3] Ht Hj Hd. cbn zeta. unfold destroy.
  split; [reflexivity|]. split; [reflexivity|]. split; [reflexivity|].
  split; [reflexivity|]. split.
  - intros Hn Hrd.
    rewrite (stray_message_emitted k now m
               (log Throw (set_expecting [] (set_onConnected [] c))) token Hn Hrd eq_refl).
    rewrite promises_drain. unfold emit_event, emit_connected. prj.
    destruct (bool_decide _); [exact R3|]. destruct (bool_decide _); exact R3.
  - apply (timeout_fires k now _ token p t d); auto.
Qed.

End RequestTheorems.

Section RequestWitnesses.
Import RpcClient Observe Track Lifecycle Samples.


(** The same client gets the answer to ["n1"] at time 20. *)
Lemma request_answered_witness :
  let c := run constants [(0, Connect "app"); (1, TransportOpened);
                          (5, OnMessage ready_message)] (new manual) in
  let m := {| cmd := Some "GET_GUILDS"; evt := None;
              nonce := Some "n1"; data := Some (JSON.JObj []) |} in
  let c2 := run constants [(11, Request "GET_CHANNELS" (Plain None) None "n2")]
              (step constants (10, Request "GET_GUILDS" (Plain None) None "n1") c) in
  let c3 := step constants (20, OnMessage m) c2 in
  promises c3 !! length (promises c) = Some (Fulfilled (Data (Some (JSON.JObj [])))) /\
  timers c3 !! nextTimer c = None.
Proof.
  cbn zeta.
  refine (let H := proj1 (request_answered constants manual
                     [(0, Connect "app"); (1, TransportOpened);
                      (5, OnMessage ready_message)]
                     [(11, Request "GET_CHANNELS" (Plain None) None "n2")]
                     10 20 "GET_GUILDS" None None "n1"
                     {| cmd := Some "GET_GUILDS"; evt := None;
                        nonce := Some "n1"; data := Some (JSON.JObj []) |} _ _ _ _ _) _ in
          conj (proj1 H) (proj1 (proj2 (proj2 H)))).
  - vm_compute; reflexivity.
  - vm_compute; reflexivity.
  - vm_compute; reflexivity.
  - reflexivity.
  - vm_compute; reflexivity.
  - vm_compute; reflexivity.
Defined.


(** A request on a client that never connected. *)
Lemma request_send_fails_witness :
  let c1 := step constants (10, Request "GET_GUILDS" (Plain None) None "n1") (new manual) in
  promises c1 !! 0%nat = Some (Rejected SendFailure) /\
  map_get "n1" (_expecting c1) = Some {| promise := 0; timeout := 0 |} /\
  map_get "n1" (_expecting (step constants (10010, Fire 0%nat) c1)) = None.
Proof.
  cbn zeta.
  pose proof (request_send_fails constants (new manual) 10 10010 "GET_GUILDS"
                (Plain None) None "n1" (or_introl eq_refl) eq_refl eq_refl
                ltac:(vm_compute; discriminate)) as (H1 & H2 & _ & _ & H5 & _).
  split; [exact H1|]. split; [exact H2|exact H5].
Defined.

(** [destroy()] with three requests pending; the answer to ["n2"] comes at
    time 30 and its timer fires at time 10011. *)
Lemma destroy_abandons_requests_witness :
  let c' := destroy (three_pending manual) in
  _expecting c' = [] /\
  promises (step constants (10011, Fire 2%nat) c') !! 2%nat = Some (Rejected RpcTimeout).
Proof.
  cbn zeta.
  refine (let H := destroy_abandons_requests constants (three_pending manual)
                     "n2" 2 2 10011 10011
                     {| cmd := Some "GET_CHANNELS"; evt := None;
                        nonce := Some "n2"; data := None |} _ _ _ _ in
          conj (proj1 H) (proj2 (proj2 (proj2 (proj2 (proj2 H)))))).
  - split; vm_compute; reflexivity.
  - vm_compute; lia.
  - vm_compute; reflexivity.
  - lia.
Defined.

End RequestWitnesses.
Section BatchFacts.
Import Batch BatchRun.
Context {Req Res Err : Type}.
Variable request : Req -> outcome (Err := Err) Res.


Lemma find_app_list {A} (f : A -> bool) (l1 l2 : list A) :
  find f (l1 ++ l2) = match find f l1 with Some x => Some x | None => find f l2 end.
Proof. induction l1 as [|x l1 IH]; cbn; [reflexivity|]. destruct (f x); auto. Qed.

Lemma find_none_list {A} (f : A -> bool) (l : list A) :
  (forall x, In x l -> f x = false) -> find f l = None.
Proof.
  induction l as [|x l IH]; cbn; intros H; [reflexivity|].
  rewrite (H x) by auto. apply IH. auto.
Qed.

Lemma length_resolve p v (cs : list (option Res)) : length (resolve p v cs) = length cs.
Proof.
  unfold resolve. destruct (cs !! p) as [[|]|]; auto. apply length_insert.
Qed.

Lemma lookup_resolve_ne p q v (cs : list (option Res)) :
  p <> q -> resolve p v cs !! q = cs !! q.
Proof.
  intros H. unfold resolve. destruct (cs !! p) as [[|]|]; auto.
  now apply list_lookup_insert_ne.
Qed.

Lemma lookup_resolve_pending p v (cs : list (option Res)) :
  cs !! p = Some None -> resolve p v cs !! p = Some (Some v).
Proof.
  intros H. unfold resolve. rewrite H. apply list_lookup_insert_eq.
  now apply lookup_lt_Some in H.
Qed.

Lemma lookup_resolve_settled p v x (cs : list (option Res)) :
  cs !! p = Some (Some x) -> resolve p v cs = cs.
Proof. intros H. unfold resolve. now rewrite H. Qed.

(** A promise that is resolved stays as it is. *)
Lemma resolve_each_settled (batch : list (Item Req)) : forall results (cs : list (option Res)) p x,
  cs !! p = Some (Some x) -> resolve_each batch results cs !! p = Some (Some x).
Proof.
  induction batch as [|it batch IH]; intros results cs p x H; [exact H|].
  destruct results as [|v results]; [exact H|]. cbn [resolve_each].
  apply IH. destruct (decide (item_resolve it = p)) as [->|Hne].
  - now rewrite (lookup_resolve_settled _ _ x).
  - now rewrite lookup_resolve_ne.
Qed.

(** A pending promise is resolved with the result that stands where its
    first item stands. *)
Lemma resolve_each_pending (batch : list (Item Req)) results :
  Forall2 (fun it v => request (item_request it) = Fulfil v) batch results ->
  forall (cs : list (option Res)) p, cs !! p = Some None ->
  resolve_each batch results cs !! p
  = Some match find (fun it : Item Req => Nat.eqb (item_resolve it) p) batch with
         | Some it => match request (item_request it) with
                      | Fulfil v => Some v
                      | _ => None
                      end
         | None => None
         end.
Proof.
  induction 1 as [|it v batch results Hv _ IH]; intros cs p Hp; [exact Hp|].
  cbn [resolve_each find]. destruct (Nat.eqb_spec (item_resolve it) p) as [->|Hne].
  - rewrite Hv. apply resolve_each_settled. now apply lookup_resolve_pending.
  - apply IH. now rewrite lookup_resolve_ne.
Qed.

(** Promises that no item names are not touched. *)
Lemma resolve_each_below (batch : list (Item Req)) (N : nat) : forall results (cs : list (option Res)) p,
  (forall it, In it batch -> (N <= item_resolve it)%nat) -> (p < N)%nat ->
  resolve_each batch results cs !! p = cs !! p.
Proof.
  induction batch as [|it batch IH]; intros results cs p H Hp; [reflexivity|].
  destruct results as [|v results]; [reflexivity|]. cbn [resolve_each].
  rewrite IH by (cbn in H; auto). apply lookup_resolve_ne.
  specialize (H it (or_introl eq_refl)). lia.
Qed.

Lemma length_resolve_each (batch : list (Item Req)) : forall results (cs : list (option Res)),
  length (resolve_each batch results cs) = length cs.
Proof.
  induction batch as [|it batch IH]; intros results cs; [reflexivity|].
  destruct results as [|v results]; [reflexivity|]. cbn [resolve_each].
  now rewrite IH, length_resolve.
Qed.

Lemma first_reject_none (l : list (outcome (Err := Err) Res)) :
  (forall o, In o l -> exists v, o = Fulfil v) -> first_reject l = None.
Proof.
  intros H. unfold first_reject. rewrite find_none_list; [reflexivity|].
  intros o Ho. destruct (H o Ho) as [v ->]. reflexivity.
Qed.

Lemma all_values_some (l : list (outcome (Err := Err) Res)) :
  (forall o, In o l -> exists v, o = Fulfil v) ->
  exists vs, all_values l = Some vs /\ Forall2 (fun o v => o = Fulfil v) l vs.
Proof.
  induction l as [|o l IH]; intros H.
  - exists []. split; [reflexivity|constructor].
  - destruct (H o (or_introl eq_refl)) as [v ->].
    destruct IH as (vs & E & F); [intros; apply H; now right|].
    exists (v :: vs). cbn. rewrite E. split; [reflexivity|now constructor].
Qed.

Lemma Promise_all_fulfils (l : list (outcome (Err := Err) Res)) :
  (forall o, In o l -> exists v, o = Fulfil v) ->
  exists vs, Promise_all l = Fulfil vs /\ Forall2 (fun o v => o = Fulfil v) l vs.
Proof.
  intros H. destruct (all_values_some l H) as (vs & E & F).
  exists vs. unfold Promise_all. now rewrite first_reject_none, E.
Qed.

Lemma all_values_none (l : list (outcome (Err := Err) Res)) o :
  In o l -> (forall v, o <> Fulfil v) -> all_values l = None.
Proof.
  induction l as [|x l IH]; intros Ho Hn; [destruct Ho|].
  destruct Ho as [->|Ho].
  - destruct o; cbn; try reflexivity. now destruct (Hn v).
  - cbn. destruct x; try reflexivity. now rewrite (IH Ho Hn).
Qed.

Lemma Promise_all_fails (l : list (outcome (Err := Err) Res)) o :
  In o l -> (forall v, o <> Fulfil v) -> forall vs, Promise_all l <> Fulfil vs.
Proof.
  intros Ho Hn vs. unfold Promise_all. destruct (first_reject l); [discriminate|].
  now rewrite (all_values_none l o Ho Hn).
Qed.

(** *** Calls of [batchRequest] with batching on *)

Lemma run_snoc es e (b : Batch.t Req Res) :
  run request (es ++ [e]) b = step request e (run request es b).
Proof. unfold run. now rewrite fold_left_app. Qed.

Lemma find_items p (l : list Req) :
  find (fun it : Item Req => Nat.eqb (item_resolve it) p)
       (map (fun r : Req => {| item_request := r; item_resolve := p |}) l)
  = match l with r :: _ => Some {| item_request := r; item_resolve := p |} | [] => None end.
Proof. destruct l as [|r l]; cbn; [reflexivity|]. now rewrite Nat.eqb_refl. Qed.

Lemma find_items_ne p q (l : list Req) : q <> p -> 
  find (fun it : Item Req => Nat.eqb (item_resolve it) p)
       (map (fun r : Req => {| item_request := r; item_resolve := q |}) l) = None.
Proof.
  intros H. apply find_none_list. intros it Hit. apply in_map_iff in Hit.
  destruct Hit as (r & <- & _). cbn. now apply Nat.eqb_neq.
Qed.

Lemma run_calls (b : Batch.t Req Res) (calls : list (Z * list Req)) :
  enableBatching b = true -> queued b calls (run request (batch_calls calls) b).
Proof.
  intros Hb. induction calls as [|c calls IH] using rev_ind.
  - split; cbn; auto.
    + now rewrite app_nil_r.
    + now rewrite app_nil_r.
    + intros _ i c Hc. destruct i; discriminate.
  - replace (batch_calls (calls ++ [c])) with (batch_calls calls ++ [Call c.1 c.2])
      by (unfold batch_calls; now rewrite map_app).
    rewrite run_snoc.
    revert IH. generalize (run request (batch_calls calls) b). intros b1 [Q1 Q2 Q3 Q4 Q5 Q6 Q7].
    assert (Hlen : length (callers b1) = (length (callers b) + length calls)%nat).
    { rewrite Q3, length_app, length_replicate. reflexivity. }
    unfold step, batchRequest. rewrite Q1. cbn [snd]. split; cbn.
    + reflexivity.
    + exact Q2.
    + rewrite Q3, length_app. cbn [length]. rewrite <- app_assoc. f_equal.
      rewrite Nat.add_1_r. cbn [replicate]. symmetry. apply replicate_cons_app.
    + rewrite map_app, Q4, map_map. cbn. rewrite map_id, <- app_assoc. f_equal.
      rewrite map_app, concat_app. cbn. now rewrite app_nil_r.
    + rewrite last_snoc, Q2. reflexivity.
    + intros it Hit. apply in_app_or in Hit. destruct Hit as [Hit|Hit].
      * destruct (Q6 it Hit) as [?|(i & c' & Hi & Hr & Hp)]; [now left|right].
        exists i, c'. split; [|auto]. now apply lookup_app_l_Some.
      * right. apply in_map_iff in Hit. destruct Hit as (r & <- & Hr). cbn.
        exists (length calls), c. split; [|split; [exact Hr|exact Hlen]].
        rewrite lookup_app_r by lia. now rewrite Nat.sub_diag.
    + intros Hold i c' Hi. rewrite find_app_list.
      destruct (decide (i < length calls)%nat) as [Hlt|Hge].
      * rewrite lookup_app_l in Hi by exact Hlt. rewrite (Q7 Hold i c' Hi).
        destruct (c'.2) as [|r rs]; [|reflexivity].
        apply find_items_ne. lia.
      * assert (i = length calls).
        { apply lookup_lt_Some in Hi. rewrite length_app in Hi. cbn in Hi. lia. }
        subst i. rewrite lookup_app_r in Hi by lia. rewrite Nat.sub_diag in Hi.
        injection Hi as <-. rewrite find_none_list.
        -- rewrite Hlen. apply find_items.
        -- intros it Hit. apply Nat.eqb_neq.
           destruct (Q6 it Hit) as [Ho|(j & c' & Hj & _ & Hp)].
           ++ specialize (Hold it Ho). lia.
           ++ apply lookup_lt_Some in Hj. lia.
Qed.

Lemma timer_fires_due now due (b : Batch.t Req Res) :
  _batchTimer b = Some due -> due <= now ->
  timer_fires request now b
  = _processBatch request
      {| enableBatching := enableBatching b; batchDelay := batchDelay b;
         _batchQueue := _batchQueue b; _batchTimer := None; callers := callers b |}.
Proof.
  intros H Hd. unfold timer_fires. rewrite H.
  destruct (Z.leb_spec due now); [reflexivity|lia].
Qed.

(** Events that come when the queue is empty leave the promises given
    before as they are. *)
Lemma run_keeps_older (N : nat) es : forall (b : Batch.t Req Res),
  (forall it, In it (_batchQueue b) -> (N <= item_resolve it)%nat) ->
  (N <= length (callers b))%nat ->
  forall p, (p < N)%nat -> callers (run request es b) !! p = callers b !! p.
Proof.
  induction es as [|e es IH]; intros b Hq Hn p Hp; [reflexivity|].
  cbn [run fold_left]. change (fold_left _ es ?x) with (run request es x).
  assert (G : (forall it, In it (_batchQueue (step request e b)) -> (N <= item_resolve it)%nat) /\
              (N <= length (callers (step request e b)))%nat /\
              callers (step request e b) !! p = callers b !! p).
  { destruct e as [now rs|now]; cbn [step].
    - unfold batchRequest. destruct (enableBatching b); cbn; [|auto].
      split; [|split].
      + intros it Hit. apply in_app_or in Hit. destruct Hit as [Hit|Hit]; [auto|].
        apply in_map_iff in Hit. destruct Hit as (r & <- & _). exact Hn.
      + rewrite length_app. lia.
      + apply lookup_app_l. lia.
    - unfold timer_fires. destruct (_batchTimer b) as [due|]; [|auto].
      destruct (due <=? now); [|auto]. unfold _processBatch. cbn.
      split; [intros it []|].
      destruct (Promise_all _) as [vs| |]; [|auto..].
      split; [now rewrite length_resolve_each|].
      now apply (resolve_each_below _ N). }
  destruct G as (G1 & G2 & G3). rewrite (IH _ G1 G2 p Hp). exact G3.
Qed.

(** X25. Batching on: some calls of [batchRequest] are made
    while the queue is empty, then the timer fires when it is due, and every
    request of the batch is fulfilled.  Then the promise of each call is
    resolved with the result of the first request of that call, not with
    the list of the results of its requests, and the promise of a call
    with no request stays pending. *)
Theorem batch_resolves_with_first_result (b : Batch.t Req Res)
    (calls : list (Z * list Req)) (now : Z) :
  enableBatching b = true -> _batchQueue b = [] ->
  (forall c, last calls = Some c -> c.1 + batchDelay b <= now) ->
  (forall c r, In c calls -> In r c.2 -> exists v, request r = Fulfil v) ->
  let b2 := timer_fires request now (run request (batch_calls calls) b) in
  _batchQueue b2 = [] /\
  forall i c, calls !! i = Some c ->
    callers b2 !! (length (callers b) + i)%nat = Some (first_result request c.2).
Proof.
  intros Hb Hq Hdue Hall. cbn zeta.
  pose proof (run_calls b calls Hb) as Q. revert Q.
  generalize (run request (batch_calls calls) b). intros b1 [Q1 Q2 Q3 Q4 Q5 Q6 Q7].
  destruct (last calls) as [cl|] eqn:Hlast.
  2:{ apply last_None in Hlast. subst calls.
      assert (He : _batchQueue b1 = []).
      { apply (f_equal (@length _)) in Q4. rewrite Hq in Q4. cbn in Q4.
        rewrite length_map in Q4. now apply length_zero_iff_nil. }
      split.
      - unfold timer_fires. destruct (_batchTimer b1) as [due|]; [|exact He].
        destruct (due <=? now); [reflexivity|exact He].
      - intros i c H. destruct i; discriminate. }
  rewrite (timer_fires_due now _ b1 Q5 (Hdue cl eq_refl)).
  unfold _processBatch. cbn. split; [reflexivity|]. intros i c Hi.
  destruct (Promise_all_fulfils
              (map (fun item => request (item_request item)) (_batchQueue b1)))
    as (vs & E & F).
  { intros o Ho. apply in_map_iff in Ho. destruct Ho as (it & <- & Hit).
    destruct (Q6 it Hit) as [H|(j & c' & Hj & Hr & _)].
    - rewrite Hq in H. destruct H.
    - apply (Hall c' _); [|exact Hr]. apply list_elem_of_In.
      now apply (list_elem_of_lookup_2 _ j). }
  rewrite E.
  assert (F' : Forall2 (fun it v => request (item_request it) = Fulfil v) (_batchQueue b1) vs).
  { apply Forall2_fmap_l in F. exact F. }
  rewrite (resolve_each_pending _ _ F').
  - rewrite (Q7 ltac:(rewrite Hq; intros ? []) i c Hi).
    unfold first_result. destruct (c.2) as [|r rs]; reflexivity.
  - rewrite Q3. rewrite lookup_app_r by lia.
    apply lookup_replicate. split; [reflexivity|]. apply lookup_lt_Some in Hi. lia.
Qed.

(** X26. Batching on: when one request of the batch is rejected
    or never answered, [_processBatch] resolves no promise at all, although
    it has emptied the queue: the promise of every call of the batch, also
    of the calls whose own requests were fulfilled, stays pending whatever
    calls and timers come later. *)
Theorem batch_failure_settles_nobody (b : Batch.t Req Res)
    (calls : list (Z * list Req)) (now : Z) :
  enableBatching b = true -> _batchQueue b = [] ->
  (forall c, last calls = Some c -> c.1 + batchDelay b <= now) ->
  (exists c r, In c calls /\ In r c.2 /\ forall v, request r <> Fulfil v) ->
  let b2 := timer_fires request now (run request (batch_calls calls) b) in
  _batchQueue b2 = [] /\
  forall es i, (i < length calls)%nat ->
    callers (run request es b2) !! (length (callers b) + i)%nat = Some None.
Proof.
  intros Hb Hq Hdue (c & r & Hc & Hr & Hn). cbn zeta.
  pose proof (run_calls b calls Hb) as Q. revert Q.
  generalize (run request (batch_calls calls) b). intros b1 [Q1 Q2 Q3 Q4 Q5 Q6 Q7].
  destruct (last calls) as [cl|] eqn:Hlast.
  2:{ apply last_None in Hlast. subst calls. destruct Hc. }
  rewrite (timer_fires_due now _ b1 Q5 (Hdue cl eq_refl)).
  unfold _processBatch. cbn [_batchQueue callers enableBatching batchDelay _batchTimer].
  assert (Hin : In (request r) (map (fun item => request (item_request item)) (_batchQueue b1))).
  { rewrite <- (map_map item_request request), Q4, Hq. cbn [map app].
    apply in_map. apply in_concat. exists c.2. split; [now apply in_map|exact Hr]. }
  pose proof (Promise_all_fails _ _ Hin Hn) as Hfail.
  destruct (Promise_all _) as [vs| |] eqn:E; [now destruct (Hfail vs)| |];
    (split; [reflexivity|]; intros es i Hi;
     rewrite (run_keeps_older (length (callers b) + length calls) es);
     [ cbn; rewrite Q3; rewrite lookup_app_r by lia;
       apply lookup_replicate; split; [reflexivity|lia]
     | intros it []
     | cbn; rewrite Q3, length_app, length_replicate; lia
     | lia ]).
Qed.

(** X27. Batching on: every call of [batchRequest] appends
    its requests to the queue and restarts the timer, so that after some
    calls the queue holds the requests of all of them in order and the
    timer is due [batchDelay] after the last call.  Nothing is sent before:
    a timer that fires earlier finds nothing to do; when it is due the whole
    queue is taken. *)
Theorem batch_timer_restarts (b : Batch.t Req Res)
    (calls : list (Z * list Req)) (c : Z * list Req) (now : Z) :
  enableBatching b = true ->
  let b1 := run request (batch_calls (calls ++ [c])) b in
  _batchTimer b1 = Some (c.1 + batchDelay b) /\
  map item_request (_batchQueue b1)
  = map item_request (_batchQueue b) ++ concat (map snd (calls ++ [c])) /\
  (now < c.1 + batchDelay b -> timer_fires request now b1 = b1) /\
  (c.1 + batchDelay b <= now ->
   _batchQueue (timer_fires request now b1) = [] /\
   _batchTimer (timer_fires request now b1) = None).
Proof.
  intros Hb. cbn zeta.
  pose proof (run_calls b (calls ++ [c]) Hb) as Q. revert Q.
  generalize (run request (batch_calls (calls ++ [c])) b). intros b1 [Q1 Q2 Q3 Q4 Q5 Q6 Q7].
  rewrite last_snoc in Q5. split; [exact Q5|]. split; [exact Q4|]. split.
  - intros H. unfold timer_fires. rewrite Q5.
    destruct (Z.leb_spec (c.1 + batchDelay b) now); [lia|reflexivity].
  - intros H. rewrite (timer_fires_due now _ b1 Q5 H). split; reflexivity.
Qed.

End BatchFacts.

Section BatchWitnesses.
Import Batch BatchRun.

(** Three calls within the delay of 10, the second one with no request;
    every request is fulfilled with the length of its name. *)
Lemma batch_resolves_with_first_result_witness :
  let request := fun r : string => Fulfil (Err := string) (String.length r) in
  let calls := [(0, ["a"; "bb"]%string); (3, []); (5, ["ccc"%string])] in
  let b2 := timer_fires request 15 (run request (batch_calls calls) (Batch.new true 10)) in
  callers b2 !! 0%nat = Some (Some 1%nat) /\
  callers b2 !! 1%nat = Some None /\
  callers b2 !! 2%nat = Some (Some 3%nat).
Proof.
  cbn zeta.
  pose proof (batch_resolves_with_first_result
                (fun r : string => Fulfil (Err := string) (String.length r))
                (Batch.new true 10)
                [(0, ["a"; "bb"]%string); (3, []); (5, ["ccc"%string])] 15
                eq_refl eq_refl) as H.
  destruct H as [_ H].
  - intros c Hc. injection Hc as <-. cbn. lia.
  - intros c r _ _. eexists. reflexivity.
  - split; [|split].
    + exact (H 0%nat _ eq_refl).
    + exact (H 1%nat _ eq_refl).
    + exact (H 2%nat _ eq_refl).
Defined.

(** Two calls; the request of the second one is rejected: the promise of
    the first call stays pending, also after a later timer. *)
Lemma batch_failure_settles_nobody_witness :
  let request := fun r : string =>
    if String.eqb r "bad" then Reject "no"%string else Fulfil (String.length r) in
  let calls := [(0, ["a"%string]); (2, ["bad"%string])] in
  let b2 := timer_fires request 12 (run request (batch_calls calls) (Batch.new true 10)) in
  callers (run request [Timer 100] b2) !! 0%nat = Some None.
Proof.
  cbn zeta.
  pose proof (batch_failure_settles_nobody
                (fun r : string =>
                   if String.eqb r "bad" then Reject "no"%string
                   else Fulfil (String.length r))
                (Batch.new true 10)
                [(0, ["a"%string]); (2, ["bad"%string])] 12
                eq_refl eq_refl) as H.
  destruct H as [_ H].
  - intros c Hc. injection Hc as <-. cbn. lia.
  - exists (2, ["bad"%string]), "bad"%string.
    split; [right; now left|]. split; [now left|]. intros v. cbn. discriminate.
  - exact (H [Timer 100] 0%nat ltac:(cbn; lia)).
Defined.

(** Two calls at times 0 and 5 with a delay of 10: the timer is due at
    time 15, and nothing happens at time 12. *)
Lemma batch_timer_restarts_witness :
  let request := fun r : string => Fulfil (Err := string) (String.length r) in
  let b1 := run request (batch_calls [(0, ["a"%string]); (5, ["b"%string])])
              (Batch.new true 10) in
  _batchTimer b1 = Some 15 /\ timer_fires request 12 b1 = b1.
Proof.
  cbn zeta.
  pose proof (batch_timer_restarts
                (fun r : string => Fulfil (Err := string) (String.length r))
                (Batch.new true 10) [(0, ["a"%string])] (5, ["b"%string]) 12
                eq_refl) as (H1 & _ & H3 & _).
  split; [exact H1|]. apply H3. cbn. lia.
Defined.

(** Claim C9 at its failing input.  Every request is fulfilled with the
    length of its name, except ["bad"], which is rejected.  With batching
    off, a call with the requests ["a"] and ["bb"] is fulfilled with the list
    of the two results.  With batching on and a delay of 10, the same call,
    followed by a call with the request ["ccc"], is resolved when the timer
    fires with the result of ["a"] alone; and when a call with ["a"] is
    followed by a call with ["bad"], neither call is settled, where with
    batching off the first is fulfilled and the second rejected. *)
Theorem batch_settles_with_first_result_only :
  let request := fun r : string =>
    if String.eqb r "bad" then Reject "no"%string else Fulfil (String.length r) in
  let on := Batch.new (Res := nat) true 10 in
  let off := Batch.new (Res := nat) false 10 in
  (batchRequest request 0 ["a"; "bb"]%string off).1 = inl (Fulfil [1; 2]%nat) /\
  callers (timer_fires request 15
             (run request (batch_calls [(0, ["a"; "bb"]%string); (5, ["ccc"%string])]) on))
  = [Some 1%nat; Some 3%nat] /\
  (batchRequest request 0 ["a"%string] off).1 = inl (Fulfil [1%nat]) /\
  (batchRequest request 5 ["bad"%string] off).1 = inl (Reject "no"%string) /\
  callers (run request [Timer 100]
             (timer_fires request 15
                (run request (batch_calls [(0, ["a"%string]); (5, ["bad"%string])]) on)))
  = [None; None].
Proof. vm_compute. repeat split. Qed.

End BatchWitnesses.
Section LeakFacts.
Import RpcClient Observe Leak.
Variable k : Constants.

Lemma accrued_refl c : accrued c c.
Proof. exists []. rewrite app_nil_r. cbn. split; [reflexivity|lia]. Qed.

Lemma accrued_trans c1 c2 c3 : accrued c1 c2 -> accrued c2 c3 -> accrued c1 c3.
Proof.
  intros (l & H1 & H2) (l' & H1' & H2'). exists (l ++ l').
  rewrite H1', H1, H2', H2, length_app, app_assoc. split; [reflexivity|lia].
Qed.

Lemma accrued_keeps c c' : keeps c c' -> onClose c' = onClose c -> accrued c c'.
Proof.
  intros (_ & H & _) Ho. exists []. rewrite Ho, H, app_nil_r. cbn. split; [reflexivity|lia].
Qed.

Lemma accrued_fold {A} (f : Client -> A -> Client) l :
  (forall c x, accrued c (f c x)) -> forall c, accrued c (fold_left f l c).
Proof.
  intros Hf. induction l as [|x l IH]; intros c; [apply accrued_refl|].
  cbn [fold_left]. eapply accrued_trans; [apply Hf|apply IH].
Qed.

Lemma onClose_entry_settle e s c : onClose (entry_settle e s c) = onClose c.
Proof. unfold entry_settle. now rewrite onClose_settle. Qed.

Lemma onClose_connected_listener h c : onClose (connected_listener h c) = onClose c.
Proof. unfold connected_listener. now rewrite onClose_settle. Qed.

Lemma onClose_onRpcMessage m c : onClose (_onRpcMessage k m c) = onClose c.
Proof.
  unfold _onRpcMessage. destruct (_ && _).
  - destruct (data_user (data m)) as [u|]; [|reflexivity].
    rewrite onClose_fold by (intros; apply onClose_connected_listener).
    now destruct u.
  - assert (E : forall ev d, onClose (emit_event ev d c) = onClose c).
    { intros ev d. unfold emit_event.
      destruct (bool_decide _); [|now destruct (bool_decide _)].
      unfold emit_connected.
      now rewrite onClose_fold by (intros; apply onClose_connected_listener). }
    destruct (nonce m) as [n|]; [|apply E].
    destruct (map_get n (_expecting c)) as [e|]; [|apply E].
    destruct (bool_decide _).
    + destruct (data m) as [[]|]; try reflexivity; prj; apply onClose_entry_settle.
    + prj. apply onClose_entry_settle.
Qed.

Lemma onClose_close_listener_null now h c :
  onClose (close_listener_null now h c) = onClose c.
Proof.
  unfold close_listener_null. destruct (_expecting c); [|reflexivity]. prj.
  match goal with |- onClose (if ?b then _ else _) = _ => destruct b end;
    rewrite ?onClose_tryReconnect; reflexivity.
Qed.

Lemma accrued_connect now id c : accrued c (connect now id c).2.
Proof.
  unfold connect. destruct (_connectPromise c); [apply accrued_refl|].
  exists [(id, length (promises c))]. split; [reflexivity|].
  prj. rewrite !connects_app. cbn. lia.
Qed.

Lemma accrued_resume now id c : accrued c (reconnect_resume now id c).
Proof.
  unfold reconnect_resume.
  pose proof (accrued_connect now id (set_connectPromise None c)) as H.
  destruct (connect now id (set_connectPromise None c)) as [p c'].
  destruct H as (l & H1 & H2). exists l. split; [exact H1|exact H2].
Qed.

Lemma accrued_fire now a c : accrued c (fire now a c).
Proof.
  destruct a as [p|token p|id].
  - apply accrued_keeps; [now apply keeps_fire|]. cbn [fire]. apply onClose_settle.
  - apply accrued_keeps; [now apply keeps_fire|]. cbn [fire]. now rewrite onClose_settle.
  - cbn [fire]. apply accrued_resume.
Qed.

Lemma accrued_handle now e c : no_close (now, e) = true -> accrued c (handle k now e c).
Proof.
  destruct e as [id|cmd args evt token|t|m|ev|q err|]; cbn [handle]; intros He.
  - apply accrued_connect.
  - apply accrued_keeps; [apply keeps_request|].
    rewrite request_unfold. cbn zeta.
    destruct args as [a|]; [destruct (socket c)|]; rewrite ?onClose_settle; reflexivity.
  - destruct (timers c !! t) as [tm|]; [|apply accrued_refl].
    destruct (due tm <=? now); [|apply accrued_refl].
    apply (accrued_trans _ (clearTimeout t c)); [|apply accrued_fire].
    apply accrued_keeps; [apply keeps_clearTimeout|reflexivity].
  - apply accrued_keeps; [apply keeps_onRpcMessage|apply onClose_onRpcMessage].
  - discriminate.
  - apply accrued_keeps; [apply keeps_settle|apply onClose_settle].
  - apply accrued_keeps; [now apply keeps_same|reflexivity].
Qed.

Lemma accrued_step e c : no_close e = true -> accrued c (step k e c).
Proof.
  destruct e as [now e]. intros He. unfold step. cbn [fst snd].
  apply (accrued_trans _ (handle k now e c)).
  - apply accrued_handle. exact He.
  - apply accrued_keeps; [apply keeps_drain|apply onClose_drain].
Qed.

Lemma accrued_run es : forall c, forallb no_close es = true -> accrued c (run k es c).
Proof.
  induction es as [|e es IH]; intros c H; [apply accrued_refl|].
  cbn in H. apply andb_prop in H as [He H]. cbn [run fold_left].
  eapply accrued_trans; [apply (accrued_step e c He)|apply IH, H].
Qed.

(** *** The calls of [emit('disconnected')] *)

Lemma disconnects_app tr tr' :
  disconnects (tr ++ tr') = (disconnects tr + disconnects tr')%nat.
Proof. unfold disconnects. now rewrite List.filter_app, length_app. Qed.

Lemma disconnects_settle p s c :
  disconnects (trace (settle p s c)) = disconnects (trace c).
Proof.
  unfold settle. destruct (promises c !! p) as [[| |]|]; try reflexivity.
  prj. rewrite disconnects_app. cbn. lia.
Qed.

Lemma disconnects_entry_settle e s c :
  disconnects (trace (entry_settle e s c)) = disconnects (trace c).
Proof. unfold entry_settle. now rewrite disconnects_settle. Qed.

Lemma disconnects_tryReconnect now id c :
  disconnects (trace (_tryReconnect now id c)) = disconnects (trace c).
Proof.
  unfold _tryReconnect. destruct (_ >=? _); prj; rewrite ?disconnects_app; cbn; lia.
Qed.

Lemma disconnects_fold {A} (f : Client -> A -> Client) l :
  (forall c x, disconnects (trace (f c x)) = disconnects (trace c)) ->
  forall c, disconnects (trace (fold_left f l c)) = disconnects (trace c).
Proof.
  intros Hf. induction l as [|x l IH]; intros c; [reflexivity|].
  cbn [fold_left]. now rewrite IH, Hf.
Qed.

Lemma disconnects_drain now c : disconnects (trace (drain now c)) = disconnects (trace c).
Proof.
  unfold drain. rewrite disconnects_fold; [reflexivity|].
  intros c' j. unfold run_job. destruct (job_fulfilled j).
  - prj. rewrite disconnects_app. cbn. lia.
  - apply disconnects_tryReconnect.
Qed.

Lemma disconnects_close_listener now ev h c :
  disconnects (trace (close_listener now ev h c)) = S (disconnects (trace c)).
Proof.
  unfold close_listener. rewrite disconnects_settle.
  match goal with |- disconnects (trace (if ?b then _ else _)) = _ => destruct b end;
    rewrite ?disconnects_tryReconnect; prj; rewrite disconnects_app;
    rewrite (disconnects_fold (fun c (e : string * Expecting) => entry_settle e.2 _ c))
      by (intros; apply disconnects_entry_settle);
    cbn; lia.
Qed.

Lemma disconnects_close_listeners now ev l : forall c,
  disconnects (trace (fold_left (fun c h => close_listener now ev h c) l c))
  = (disconnects (trace c) + length l)%nat.
Proof.
  induction l as [|h l IH]; intros c; cbn [fold_left length]; [lia|].
  rewrite IH, disconnects_close_listener. lia.
Qed.

(** X28. The ['close'] listener that [connect] registers on the
    transport is removed only when the transport emits ['close'], not when
    the attempt fails or times out.  So over every run without a ['close']
    the listeners grow by one for each call of [transport.connect()], and
    at the next ['close'] whose event is not [null] each of them runs:
    ['disconnected'] is emitted once for every attempt made since the last
    ['close'].  On a [null] event the first listener throws, so that it
    alone is used up, and ['disconnected'] is emitted once if [_expecting]
    is empty and not at all otherwise. *)
Theorem close_listeners_accumulate (c : Client) (es : list (Z * event))
    (now : Z) (ev : CloseEvent) :
  forallb no_close es = true ->
  let c1 := run k es c in
  let c2 := step k (now, OnClose (Some ev)) c1 in
  let c0 := step k (now, OnClose None) c1 in
  (length (onClose c1) + connects (trace c)
   = length (onClose c) + connects (trace c1))%nat /\
  disconnects (trace c2) = (disconnects (trace c1) + length (onClose c1))%nat /\
  onClose c2 = [] /\
  onClose c0 = tl (onClose c1) /\
  disconnects (trace c0)
  = (disconnects (trace c1)
     + match onClose c1, _expecting c1 with _ :: _, [] => 1 | _, _ => 0 end)%nat.
Proof.
  intros Hes. cbn zeta.
  destruct (accrued_run es c Hes) as (l & H1 & H2). revert H1 H2.
  generalize (run k es c). intros c1 H1 H2. split; [|split; [|split; [|split]]].
  - rewrite H1, H2, length_app. lia.
  - unfold step. cbn [fst snd handle emit_close]. rewrite disconnects_drain.
    now rewrite disconnects_close_listeners.
  - unfold step. cbn [fst snd handle emit_close]. rewrite onClose_drain.
    rewrite onClose_fold by (intros; apply onClose_close_listener). reflexivity.
  - unfold step. cbn [fst snd handle emit_close]. rewrite onClose_drain.
    destruct (onClose c1) as [|h rest] eqn:E; [now rewrite E|].
    now rewrite onClose_close_listener_null.
  - unfold step. cbn [fst snd handle emit_close]. rewrite disconnects_drain.
    destruct (onClose c1) as [|h rest]; [lia|].
    unfold close_listener_null. prj.
    destruct (_expecting c1) as [|x xs].
    + prj. rewrite disconnects_app. cbn [disconnects List.filter length].
      match goal with |- context [if ?b then _ else _] => destruct b end;
        rewrite ?disconnects_tryReconnect; prj; rewrite disconnects_app; cbn; lia.
    + prj. rewrite disconnects_app. cbn. lia.
Qed.

End LeakFacts.

Section LeakWitness.
Import RpcClient Observe Leak Samples.

(** A client with automatic reconnection loses the connection at time 20;
    the first attempt to reconnect fails, the second one succeeds; at the
    next loss ['disconnected'] is emitted twice. *)
Lemma close_listeners_accumulate_witness :
  let c := run constants [(0, Connect "app"); (5, OnMessage ready_message);
                          (20, OnClose (Some lost))] (new automatic) in
  let es := [(2020, Fire 1%nat); (2021, ConnectRejected 1%nat IPC.ConnectionFailed);
             (6021, Fire 3%nat); (6030, OnMessage ready_message)] in
  let c1 := run constants es c in
  let c2 := step constants (7000, OnClose (Some lost)) c1 in
  length (onClose c1) = 2%nat /\
  disconnects (trace c2) = (disconnects (trace c1) + 2)%nat.
Proof.
  cbn zeta.
  pose proof (close_listeners_accumulate constants
                (run constants [(0, Connect "app"); (5, OnMessage ready_message);
                                (20, OnClose (Some lost))] (new automatic))
                [(2020, Fire 1%nat); (2021, ConnectRejected 1%nat IPC.ConnectionFailed);
                 (6021, Fire 3%nat); (6030, OnMessage ready_message)]
                7000 lost eq_refl) as (_ & H & _).
  split; [vm_compute; reflexivity|].
  rewrite H. f_equal.
Defined.

End LeakWitness.
Section ReconnectedFacts.
Import RpcClient Observe.
Variable k : Constants.

(** The fields a ['connected'] listener reads, before it settles. *)
Lemma listener_settle h c :
  connected_listener h c
  = settle h.2 (Fulfilled This) (set_reconnectAttempts 0 (clearTimeout h.1 c)).
Proof. reflexivity. Qed.

(** The call of [_tryReconnect] suspended on [p] goes on once [p] is
    fulfilled. *)
Lemma listener_woken h c p id :
  promises c !! p = Some (Fulfilled This) -> awaiting c = [] ->
  jobs c = [{| job_clientId := id; job_fulfilled := true |}] ->
  let c' := connected_listener h c in
  promises c' !! p = Some (Fulfilled This) /\ awaiting c' = [] /\
  jobs c' = [{| job_clientId := id; job_fulfilled := true |}].
Proof.
  intros Hp Ha Hj. cbn zeta. rewrite listener_settle.
  set (x := set_reconnectAttempts 0 (clearTimeout h.1 c)).
  assert (Fx : promises x = promises c /\ awaiting x = awaiting c /\ jobs x = jobs c)
    by (repeat split; reflexivity).
  clearbody x. destruct Fx as (Xp & Xa & Xj).
  destruct (promises x !! h.2) as [[| |]|] eqn:Hq.
  - destruct (settle_pending_fields h.2 (Fulfilled This) x Hq)
      as (_ & Sp & Sa & Sj & _).
    rewrite Sp, Sa, Sj, Xp, Xa, Xj, Ha, Hj. cbn.
    split; [|auto]. rewrite list_lookup_insert_ne; [exact Hp|].
    intros E. rewrite <- E, <- Xp, Hq in Hp. discriminate.
  - unfold settle. rewrite Hq, Xp, Xa, Xj. auto.
  - unfold settle. rewrite Hq, Xp, Xa, Xj. auto.
  - unfold settle. rewrite Hq, Xp, Xa, Xj. auto.
Qed.

Lemma listener_wakes h c p id :
  promises c !! p = Some Pending -> awaiting c = [(p, id)] -> jobs c = [] ->
  let c' := connected_listener h c in
  (h.2 = p ->
   promises c' !! p = Some (Fulfilled This) /\ awaiting c' = [] /\
   jobs c' = [{| job_clientId := id; job_fulfilled := true |}]) /\
  (h.2 <> p ->
   promises c' !! p = Some Pending /\ awaiting c' = [(p, id)] /\ jobs c' = []).
Proof.
  intros Hp Ha Hj. cbn zeta. rewrite listener_settle.
  set (x := set_reconnectAttempts 0 (clearTimeout h.1 c)).
  assert (Fx : promises x = promises c /\ awaiting x = awaiting c /\ jobs x = jobs c)
    by (repeat split; reflexivity).
  clearbody x. destruct Fx as (Xp & Xa & Xj). split.
  - intros E. rewrite E. rewrite <- Xp in Hp.
    destruct (settle_pending_fields p (Fulfilled This) x Hp) as (_ & Sp & Sa & Sj & _).
    rewrite Sp, Sa, Sj, Xa, Xj, Ha, Hj. cbn.
    rewrite bool_decide_eq_true_2 by reflexivity. cbn.
    split; [|auto]. apply list_lookup_insert_eq. now apply lookup_lt_Some in Hp.
  - intros Hne. destruct (promises x !! h.2) as [[| |]|] eqn:Hq.
    + destruct (settle_pending_fields h.2 (Fulfilled This) x Hq)
        as (_ & Sp & Sa & Sj & _).
      rewrite Sp, Sa, Sj, Xp, Xa, Xj, Ha, Hj. cbn.
      rewrite bool_decide_eq_false_2 by (intros E; now apply Hne). cbn.
      split; [|auto]. rewrite list_lookup_insert_ne by exact Hne. exact Hp.
    + unfold settle. rewrite Hq, Xp, Xa, Xj. auto.
    + unfold settle. rewrite Hq, Xp, Xa, Xj. auto.
    + unfold settle. rewrite Hq, Xp, Xa, Xj. auto.
Qed.

Lemma listeners_woken l : forall c p id,
  promises c !! p = Some (Fulfilled This) -> awaiting c = [] ->
  jobs c = [{| job_clientId := id; job_fulfilled := true |}] ->
  let c' := fold_left (fun c h => connected_listener h c) l c in
  promises c' !! p = Some (Fulfilled This) /\ awaiting c' = [] /\
  jobs c' = [{| job_clientId := id; job_fulfilled := true |}].
Proof.
  induction l as [|h l IH]; intros c p id Hp Ha Hj; cbn zeta; [auto|].
  cbn [fold_left].
  destruct (listener_woken h c p id Hp Ha Hj) as (Hp' & Ha' & Hj').
  exact (IH _ p id Hp' Ha' Hj').
Qed.

Lemma listeners_wake l : forall c p id t,
  In (t, p) l ->
  promises c !! p = Some Pending -> awaiting c = [(p, id)] -> jobs c = [] ->
  let c' := fold_left (fun c h => connected_listener h c) l c in
  promises c' !! p = Some (Fulfilled This) /\ awaiting c' = [] /\
  jobs c' = [{| job_clientId := id; job_fulfilled := true |}].
Proof.
  induction l as [|h l IH]; intros c p id t Hin Hp Ha Hj; [destruct Hin|].
  cbn zeta. cbn [fold_left].
  destruct (listener_wakes h c p id Hp Ha Hj) as [Heq Hne].
  destruct (decide (h.2 = p)) as [E|E].
  - destruct (Heq E) as (Hp' & Ha' & Hj'). exact (listeners_woken l _ p id Hp' Ha' Hj').
  - destruct (Hne E) as (Hp' & Ha' & Hj').
    destruct Hin as [->|Hin]; [now destruct E|].
    exact (IH _ p id t Hin Hp' Ha' Hj').
Qed.

Lemma connectPromise_listeners l : forall c,
  _connectPromise (fold_left (fun c h => connected_listener h c) l c) = _connectPromise c.
Proof.
  induction l as [|h l IH]; intros c; [reflexivity|].
  cbn [fold_left]. rewrite IH. unfold connected_listener, settle.
  now destruct (promises _ !! h.2) as [[| |]|].
Qed.

Lemma onConnected_fire_reconnect c t d id :
  timers c !! t = Some {| due := d; callback := ReconnectDelay id |} ->
  onConnected (step k (d, Fire t) c)
  = onConnected c ++ [(nextTimer c, length (promises c))].
Proof.
  intros Hd. unfold step. cbn [fst snd handle]. rewrite Hd. cbn [due callback].
  rewrite Z.leb_refl. cbn [fire]. rewrite onConnected_drain. reflexivity.
Qed.

(** X29. A reconnection that succeeds.  While [_tryReconnect]
    waits for the end of its delay, the timer fires: [connect] is called
    anew, with a new promise and one call of [transport.connect()].  When
    the dispatch of [READY] follows, that promise is fulfilled with the
    client, the counter of attempts is reset to zero, [isReconnecting] is
    false again and ['reconnected'] is the last thing emitted; no call of
    [_tryReconnect] is left suspended. *)
Theorem reconnect_succeeds (c : Client) (id : string) (a d now : Z) (m : Message) :
  retrying c id a ->
  timers c !! pred (nextTimer c) = Some {| due := d; callback := ReconnectDelay id |} ->
  is_ready k m = true ->
  data_user (data m) <> None ->
  let p := length (promises c) in
  let c1 := step k (d, Fire (pred (nextTimer c))) c in
  let c2 := step k (now, OnMessage m) c1 in
  connects (trace c1) = S (connects (trace c)) /\
  _connectPromise c1 = Some p /\
  promises c2 !! p = Some (Fulfilled This) /\
  _connectPromise c2 = Some p /\
  reconnectAttempts c2 = 0 /\
  isReconnecting c2 = false /\
  last (trace c2) = Some EmitReconnected /\
  awaiting c2 = [] /\ jobs c2 = [].
Proof.
  intros (Ha & Hj & _ & _ & _ & _ & _) Hd Hr Hdata. cbn zeta.
  pose proof (step_fire_reconnect k c _ d id Hd Hj) as F. cbn zeta in F.
  pose proof (onConnected_fire_reconnect c _ d id Hd) as Fo.
  revert F Fo. generalize (step k (d, Fire (pred (nextTimer c))) c). intros c1.
  intros (Htr & Hpr & Haw & Hjb & _ & _ & Hcp & _ & _ & _) Hoc.
  rewrite Ha in Haw. cbn [app] in Haw.
  split; [rewrite Htr, connects_app; cbn; lia|]. split; [exact Hcp|].
  assert (Hp1 : promises c1 !! length (promises c) = Some Pending).
  { rewrite Hpr, lookup_app_r by lia. now rewrite Nat.sub_diag. }
  unfold step. cbn [fst snd handle]. unfold is_ready in Hr. unfold _onRpcMessage. rewrite Hr.
  destruct (data_user (data m)) as [u|]; [clear Hdata|done].
  set (x := set_onConnected [] (log EmitConnected
              match u with Some u0 => set_user (Some u0) c1 | None => c1 end)).
  assert (E : onConnected (log EmitConnected
              match u with Some u0 => set_user (Some u0) c1 | None => c1 end)
              = onConnected c1) by now destruct u.
  rewrite E.
  assert (Fx : promises x = promises c1 /\ awaiting x = awaiting c1 /\ jobs x = jobs c1 /\
               _connectPromise x = _connectPromise c1).
  { unfold x. destruct u; repeat split; reflexivity. }
  clearbody x. destruct Fx as (Xp & Xa & Xj & Xc).
  assert (Hin : In (nextTimer c, length (promises c)) (onConnected c1)).
  { rewrite Hoc. apply in_or_app. right. now left. }
  pose proof (listeners_wake (onConnected c1) x _ id _ Hin
                ltac:(rewrite Xp; exact Hp1) ltac:(rewrite Xa; exact Haw)
                ltac:(rewrite Xj; exact Hjb)) as W.
  pose proof (connected_listeners_fields (onConnected c1) x
                ltac:(intros E0; rewrite E0 in Hin; destruct Hin)
                ltac:(unfold fulfilled_jobs; rewrite Xj, Hjb; constructor)) as [W0 _].
  assert (Wc : _connectPromise (fold_left (fun c h => connected_listener h c)
                                  (onConnected c1) x) = Some (length (promises c))).
  { rewrite <- Hcp, <- Xc. apply connectPromise_listeners. }
  cbn zeta in W. revert W W0 Wc.
  generalize (fold_left (fun c h => connected_listener h c) (onConnected c1) x).
  intros y (Wp & Wa & Wj) W0 Wc.
  rewrite (drain_one now _ y Wj). unfold run_job. cbn [job_fulfilled]. prj.
  rewrite Wp, Wc, W0, Wa. repeat split; try reflexivity.
  apply last_snoc.
Qed.

End ReconnectedFacts.

Section ReconnectedWitness.
Import RpcClient Observe Samples.

(** A client with automatic reconnection loses the connection at time 20;
    the delay of 2000 ms ends, and [READY] comes at time 2030. *)
Lemma reconnect_succeeds_witness :
  let c := run constants [(0, Connect "app"); (5, OnMessage ready_message);
                          (20, OnClose (Some lost))] (new automatic) in
  let c2 := step constants (2030, OnMessage ready_message)
              (step constants (2020, Fire (pred (nextTimer c))) c) in
  isReconnecting c = true /\ reconnectAttempts c = 1 /\
  isReconnecting c2 = false /\ reconnectAttempts c2 = 0.
Proof.
  cbn zeta. split; [vm_compute; reflexivity|]. split; [vm_compute; reflexivity|].
  refine (let H := reconnect_succeeds constants
                     (run constants [(0, Connect "app"); (5, OnMessage ready_message);
                                     (20, OnClose (Some lost))] (new automatic))
                     "app" 1 2020 2030 ready_message _ _ _ _ in
          conj (proj1 (proj2 (proj2 (proj2 (proj2 (proj2 H))))))
               (proj1 (proj2 (proj2 (proj2 (proj2 H)))))).
  - unfold retrying. repeat split; try (vm_compute; reflexivity).
    + vm_compute. discriminate.
    + exists 2020. vm_compute. reflexivity.
    + intros t tm Ht Hr.
      match type of Ht with timers ?x !! _ = _ =>
        assert (E : timers x = {[ 1%nat := {| due := 2020;
                                              callback := ReconnectDelay "app" |} ]})
          by (vm_compute; reflexivity);
        rewrite E in Ht
      end.
      apply lookup_singleton_Some in Ht as [<- _]. vm_compute. reflexivity.
  - vm_compute. reflexivity.
  - vm_compute. reflexivity.
  - vm_compute. discriminate.
Defined.

End ReconnectedWitness.
Section ConstructorFacts.
Import JSON Transport Constructor.

Lemma property_app (key : text) (l1 l2 : list (text * value)) :
  property key (JObj (l1 ++ l2))
  = match property key (JObj l2) with
    | Some v => Some v
    | None => property key (JObj l1)
    end.
Proof.
  unfold property. rewrite rev_app_distr, find_app_list.
  destruct (find _ (rev l2)) as [[k v]|]; reflexivity.
Qed.

Lemma property_cons_snoc (key : text) (l : list (text * value)) k v :
  property key (JObj (l ++ [(k, v)]))
  = if bool_decide (k = key) then Some v else property key (JObj l).
Proof.
  unfold property. rewrite rev_app_distr. cbn [rev app find fst].
  destruct (bool_decide (k = key)); reflexivity.
Qed.

(** The members written with [||] are the defaults when [options] has not
    the key. *)
Lemma property_or_defaults (key : text) (o l : list (text * value)) :
  property key (JObj o) = None ->
  property key (JObj (map (fun kd => (kd.1, or (property kd.1 (JObj o)) kd.2)) l))
  = property key (JObj l).
Proof.
  intros Ho. induction l as [|[k d] l IH] using rev_ind; [reflexivity|].
  rewrite map_app. cbn [map fst snd]. rewrite !property_cons_snoc.
  destruct (bool_decide_reflect (k = key)) as [->|Hne]; [|exact IH].
  rewrite Ho. reflexivity.
Qed.

(** X30. The options of the client.  A member that the argument
    of the constructor has is taken as it is, also when it is falsy (0,
    false, the empty string, null): the value written with [||] is
    overwritten by the spread of [options] that follows it.  The default
    stands only for a key that the argument has not.  So a given
    [maxConcurrentRequests] of 0 makes a request queue of capacity 0, not
    of 5, whereas a falsy [maxListeners], which is not part of the spread,
    does become 20. *)
Theorem constructor_keeps_given_options (o : list (text * value)) (key : text) :
  property key (options o)
  = match property key (JObj o) with
    | Some v => Some v
    | None => property key (JObj defaults)
    end /\
  (forall n, property (lit "maxConcurrentRequests") (JObj o) = Some (JNum n) ->
             requestQueue o = Some (RequestQueue.new n)) /\
  (property (lit "maxConcurrentRequests") (JObj o) = None ->
   requestQueue o = Some (RequestQueue.new 5)) /\
  (forall v, property (lit "maxListeners") (JObj o) = Some v -> truthy v = false ->
             maxListeners o = JNum 20).
Proof.
  assert (G : forall key', property key' (options o)
            = match property key' (JObj o) with
              | Some v => Some v
              | None => property key' (JObj defaults)
              end).
  { intros key'. unfold options. rewrite property_app.
    destruct (property key' (JObj o)) as [v|] eqn:Ho; [reflexivity|].
    now apply property_or_defaults. }
  split; [apply G|]. split; [|split].
  - intros n Hn. unfold requestQueue. now rewrite G, Hn.
  - intros Hn. unfold requestQueue. rewrite G, Hn. reflexivity.
  - intros v Hv Ht. unfold maxListeners. rewrite Hv. cbn [or]. now rewrite Ht.
Qed.

End ConstructorFacts.
